(** * l402-ts: a shallow embedding of the request-orchestration core

    The development follows the layout of the TypeScript sources:

    - [JS]          the fragment of the JavaScript runtime the sources rely on
                    (strings, [number], regular expressions);
    - [Bolt11]      src/bolt11.ts, invoice amount extraction;
    - [Challenge]   src/challenge.ts, WWW-Authenticate parsing;
    - [Budget]      src/budget.ts, the rolling-window budget controller;
    - [Cache]       src/credential-cache.ts, the LRU credential cache;
    - [SpendingLog] src/spending-log.ts;
    - [Client]      src/client.ts, the 402 retry protocol;
    - [Nwc]         src/wallets/nwc.ts, the hexadecimal helpers.

    The definitions of all modules come first; the facts follow, one
    section per source file, and the test suite of the repository is
    replayed on the model at the end.

    Modelling conventions.
    - A JS string is a Rocq [string] whose characters are the code units
      U+0000..U+00FF.
    - A JS [number] holding an integer (satoshi amounts, millisecond
      timestamps, sizes) is a [Z]; arithmetic on such numbers is exact below
      2^53, the range all budget and clock quantities live in.  The one place
      where the sources convert an unbounded integer into a [number],
      [Number(sats)] in bolt11.ts, is modelled with its rounding.
    - [Date.now()] is an explicit argument [now] of every operation that
      reads the clock. *)

From Stdlib Require Import ZArith List String Ascii Bool Lia Arith.
Import ListNotations.

Local Open Scope string_scope.
Local Open Scope Z_scope.

(* ================================================================== *)
(** * The JavaScript fragment *)
(* ================================================================== *)

Module JS.

(** ** Characters *)

Definition code (c : ascii) : N := N_of_ascii c.

Definition in_range (lo hi : N) (c : ascii) : bool :=
  (N.leb lo (code c) && N.leb (code c) hi)%bool.

Definition is_upper (c : ascii) : bool := in_range 65 90 c.
Definition is_lower (c : ascii) : bool := in_range 97 122 c.
(** [\d] *)
Definition is_digit (c : ascii) : bool := in_range 48 57 c.

(** [\s], and the characters removed by [String.prototype.trim]:
    TAB, LF, VT, FF, CR, SP and NBSP. *)
Definition is_space (c : ascii) : bool :=
  (in_range 9 13 c || N.eqb (code c) 32 || N.eqb (code c) 160)%bool.

(** Letters with a lower-case partner: A-Z, and in the Latin-1 block
    U+00C0..U+00DE without the multiplication sign U+00D7. *)
Definition has_lower (c : ascii) : bool :=
  (is_upper c || (in_range 192 222 c && negb (N.eqb (code c) 215)))%bool.

Definition lower_char (c : ascii) : ascii :=
  if has_lower c then ascii_of_N (code c + 32) else c.

(** ** Strings *)

(** [s.toLowerCase()] *)
Fixpoint toLowerCase (s : string) : string :=
  match s with
  | EmptyString => EmptyString
  | String c s' => String (lower_char c) (toLowerCase s')
  end.

Fixpoint trimStart (s : string) : string :=
  match s with
  | EmptyString => EmptyString
  | String c s' => if is_space c then trimStart s' else s
  end.

(** Removes trailing white space: a white-space character is kept only
    when something that is kept follows it. *)
Fixpoint trimEnd (s : string) : string :=
  match s with
  | EmptyString => EmptyString
  | String c s' =>
      match trimEnd s' with
      | EmptyString => if is_space c then EmptyString else String c EmptyString
      | t => String c t
      end
  end.

(** [s.trim()] *)
Definition trim (s : string) : string := trimEnd (trimStart s).

(** Truthiness of a string: only the empty string is falsy. *)
Definition truthy (s : string) : bool :=
  match s with EmptyString => false | _ => true end.

(** ** Regular expressions

    The three patterns of the sources only quantify single-character
    classes, so the syntax below does the same.  Matching is the
    ECMAScript backtracking discipline: alternatives are tried from left
    to right, greedy quantifiers try the longest run first, lazy ones the
    shortest, and the first complete match wins. *)

Definition cls := ascii -> bool.

Inductive regex : Type :=
| REps
| RChar (p : cls)
| RSeq (r1 r2 : regex)
| RAlt (r1 r2 : regex)
| ROpt (r : regex)                   (* r?   *)
| RStar (p : cls)                    (* [p]* *)
| RPlus (p : cls)                    (* [p]+ *)
| RPlusLazy (p : cls)                (* [p]+? *)
| RGroup (name : string) (r : regex) (* (?<name>r) *).

(** Named captures; a group that did not take part in the match has no
    entry, which is [undefined] in [match.groups]. *)
Definition captures := list (string * string).
Definition cont := captures -> list ascii -> option captures.

Fixpoint group (caps : captures) (name : string) : option string :=
  match caps with
  | [] => None
  | (n, v) :: caps' => if String.eqb n name then Some v else group caps' name
  end.

(** The text between two positions of the subject. *)
Definition consumed (s s' : list ascii) : string :=
  string_of_list_ascii (firstn (List.length s - List.length s') s).

Section Quantifiers.
Variable p : cls.
Variable caps : captures.
Variable k : cont.

Fixpoint star_greedy (s : list ascii) : option captures :=
  match s with
  | c :: s' =>
      if p c then
        match star_greedy s' with
        | Some r => Some r
        | None => k caps s
        end
      else k caps s
  | [] => k caps s
  end.

Fixpoint star_lazy (s : list ascii) : option captures :=
  match k caps s with
  | Some r => Some r
  | None =>
      match s with
      | c :: s' => if p c then star_lazy s' else None
      | [] => None
      end
  end.
End Quantifiers.

Fixpoint rmatch (r : regex) (caps : captures) (s : list ascii) (k : cont)
  : option captures :=
  match r with
  | REps => k caps s
  | RChar p =>
      match s with
      | c :: s' => if p c then k caps s' else None
      | [] => None
      end
  | RSeq r1 r2 => rmatch r1 caps s (fun caps' s' => rmatch r2 caps' s' k)
  | RAlt r1 r2 =>
      match rmatch r1 caps s k with
      | Some res => Some res
      | None => rmatch r2 caps s k
      end
  | ROpt r1 =>
      match rmatch r1 caps s k with
      | Some res => Some res
      | None => k caps s
      end
  | RStar p => star_greedy p caps k s
  | RPlus p =>
      match s with
      | c :: s' => if p c then star_greedy p caps k s' else None
      | [] => None
      end
  | RPlusLazy p =>
      match s with
      | c :: s' => if p c then star_lazy p caps k s' else None
      | [] => None
      end
  | RGroup name r1 =>
      rmatch r1 caps s (fun caps' s' => k ((name, consumed s s') :: caps') s')
  end.

Definition accept : cont := fun caps _ => Some caps.

(** [re.exec(s)] for a pattern that starts with [^]. *)
Definition exec_anchored (r : regex) (s : string) : option captures :=
  rmatch r [] (list_ascii_of_string s) accept.

Fixpoint search (r : regex) (s : list ascii) : option captures :=
  match rmatch r [] s accept with
  | Some caps => Some caps
  | None =>
      match s with
      | [] => None
      | _ :: s' => search r s'
      end
  end.

(** [re.exec(s)] for an unanchored pattern: the leftmost match. *)
Definition exec (r : regex) (s : string) : option captures :=
  search r (list_ascii_of_string s).

(** Pattern characters under the [i] flag: a letter matches both cases. *)
Definition chr_i (c : ascii) : cls :=
  fun x => Ascii.eqb (lower_char x) (lower_char c).

Definition chr (c : ascii) : cls := fun x => Ascii.eqb x c.

(** A literal under the [i] flag. *)
Fixpoint lit_i (s : string) : regex :=
  match s with
  | EmptyString => REps
  | String c s' => RSeq (RChar (chr_i c)) (lit_i s')
  end.

(** [[a-z]] under the [i] flag. *)
Definition is_alpha_i (c : ascii) : bool := (is_lower c || is_upper c)%bool.

(** ** [Number(bigint)]

    The nearest IEEE-754 double, ties to even: integers of at most 53
    bits are kept, longer ones lose their low bits.  (Above 2^1024 the
    conversion yields [Infinity], which has no counterpart in [Z].) *)
Definition Number_of_BigInt (z : Z) : Z :=
  let a := Z.abs z in
  let e := Z.log2 a - 52 in
  if e <=? 0 then z
  else
    let q := Z.shiftr a e in
    let r := a - Z.shiftl q e in
    let half := Z.shiftl 1 (e - 1) in
    let q' :=
      if r <? half then q
      else if half <? r then q + 1
      else if Z.even q then q else q + 1 in
    Z.sgn z * Z.shiftl q' e.

(** [BigInt(s)] on a string of decimal digits. *)
Definition digit_value (c : ascii) : Z := Z.of_N (code c) - 48.

Definition BigInt_of_digits (s : string) : Z :=
  fold_left (fun acc c => 10 * acc + digit_value c) (list_ascii_of_string s) 0.

(** ** What a match binds

    [binds name r]: every match of [r] goes through a group called
    [name]. *)
Fixpoint binds (name : string) (r : regex) : bool :=
  match r with
  | RSeq r1 r2 => (binds name r1 || binds name r2)%bool
  | RAlt r1 r2 => (binds name r1 && binds name r2)%bool
  | RGroup n r1 => (String.eqb n name || binds name r1)%bool
  | _ => false
  end.

(** The groups set in [caps] are set in [caps']. *)
Definition extends (caps caps' : captures) : Prop :=
  forall name, group caps name <> None -> group caps' name <> None.

(** A run of [p] cannot go on into [rest]. *)
Definition stops (p : cls) (rest : list ascii) : Prop :=
  match rest with [] => True | c :: _ => p c = false end.

End JS.

(* ================================================================== *)
(** * src/errors.ts *)
(* ================================================================== *)

Module Errors.

(** The [L402Error] hierarchy, and what else a JavaScript function can
    throw: an [Error] of the host ([TypeError], a network failure, ...),
    or any other value, kept by its [String()] rendering. *)
Inductive error : Type :=
| BudgetExceededError (limitType : string) (limitSats currentSats invoiceSats : Z)
| PaymentFailedError (reason : string) (bolt11 : option string)
| InvoiceExpiredError (bolt11 : option string)
| ChallengeParseError (header reason : string)
| NoWalletError
| DomainNotAllowedError (domain : string)
| HostError (name message : string)
| ThrownValue (rendering : string).

(** [e instanceof L402Error] *)
Definition instanceof_L402Error (e : error) : bool :=
  match e with
  | HostError _ _ | ThrownValue _ => false
  | _ => true
  end.

(** The outcome of a synchronous call. *)
Inductive result (A : Type) : Type :=
| Ok (a : A)
| Throw (e : error).
Arguments Ok {A} a.
Arguments Throw {A} e.

End Errors.
Import Errors.

(* ================================================================== *)
(** * src/bolt11.ts *)
(* ================================================================== *)

Module Bolt11.
Import JS.

(** [[munp]] under the [i] flag. *)
Definition is_multiplier_i (c : ascii) : bool :=
  (chr_i "m" c || chr_i "u" c || chr_i "n" c || chr_i "p" c)%bool.

(** [/^ln(?<network>[a-z]+?)(?<amount>\d+)?(?<multiplier>[munp])?1/i] *)
Definition BOLT11_RE : regex :=
  RSeq (lit_i "ln")
    (RSeq (RGroup "network" (RPlusLazy is_alpha_i))
      (RSeq (ROpt (RGroup "amount" (RPlus is_digit)))
        (RSeq (ROpt (RGroup "multiplier" (RChar is_multiplier_i)))
          (RChar (chr_i "1"))))).

Record rational : Type := { num : Z; denom : Z }.

(** The [MULTIPLIERS] table; a missing key is [undefined]. *)
Definition MULTIPLIERS (key : string) : option rational :=
  if String.eqb key "m" then Some {| num := 1; denom := 1000 |}
  else if String.eqb key "u" then Some {| num := 1; denom := 1000000 |}
  else if String.eqb key "n" then Some {| num := 1; denom := 1000000000 |}
  else if String.eqb key "p" then Some {| num := 1; denom := 1000000000000 |}
  else None.

Definition SATS_PER_BTC : Z := 100000000.

(** The value of the [bigint] variable [sats]: [/] on [bigint] truncates
    towards zero.  Reading [m.num] of a missing table entry is a
    [TypeError]. *)
Definition sats_of (amount : Z) (multiplier : option string) : result Z :=
  match multiplier with
  | Some mult =>
      if truthy mult then
        match MULTIPLIERS (toLowerCase mult) with
        | Some m => Ok (Z.quot (amount * SATS_PER_BTC * num m) (denom m))
        | None =>
            Throw (HostError "TypeError"
                     "Cannot read properties of undefined (reading 'num')")
        end
      else Ok (amount * SATS_PER_BTC)
  | None => Ok (amount * SATS_PER_BTC)
  end.

Definition extractAmountSats (bolt11 : string) : result (option Z) :=
  if negb (truthy bolt11) then Ok None
  else
    let invoice := toLowerCase (trim bolt11) in
    match exec_anchored BOLT11_RE invoice with
    | None => Ok None
    | Some groups =>
        match group groups "amount" with
        | None => Ok None              (* "any amount" invoice *)
        | Some amountStr =>
            let amount := BigInt_of_digits amountStr in
            match sats_of amount (group groups "multiplier") with
            | Ok sats => Ok (Some (Number_of_BigInt sats))
            | Throw e => Throw e
            end
        end
    end.



(** ** The claimed amount of a well-formed invoice

    The human-readable part of an invoice is [ln], a network prefix, an
    optional amount (decimal digits and an optional multiplier letter) and
    the separator [1].  [exact_sats] is the amount the digits denote, in
    satoshis, with exact integer arithmetic. *)

Inductive multiplier : Type := Milli | Micro | Nano | Pico.

Definition multiplier_letter (m : multiplier) : string :=
  match m with Milli => "m" | Micro => "u" | Nano => "n" | Pico => "p" end.

Definition scale_numerator (m : multiplier) : Z := 1.

Definition scale_denominator (m : multiplier) : Z :=
  match m with
  | Milli => 1000
  | Micro => 1000000
  | Nano => 1000000000
  | Pico => 1000000000000
  end.

Definition exact_sats (digits : string) (m : option multiplier) : Z :=
  match m with
  | Some m =>
      Z.quot (BigInt_of_digits digits * 100000000 * scale_numerator m)
             (scale_denominator m)
  | None => BigInt_of_digits digits * 100000000
  end.

Definition all_chars (p : cls) (s : string) : bool :=
  forallb p (list_ascii_of_string s).

(** A network prefix: lower-case letters ([bc], [tb], [tbs], [bcrt], ...). *)
Definition letters_ok (net : string) : bool :=
  (truthy net && all_chars is_lower net)%bool.

Fixpoint ends_with_multiplier (net : list ascii) : bool :=
  match net with
  | [] => false
  | c :: net' =>
      match net' with
      | [] => is_multiplier_i c
      | _ => ends_with_multiplier net'
      end
  end.

Definition starts_with_one (s : string) : bool :=
  match s with
  | String c _ => chr_i "1" c
  | EmptyString => false
  end.

(** The prefix of an invoice with an amount.  A prefix that ends in a
    multiplier letter before an amount that starts with [1] reads as a
    shorter prefix, a multiplier and the separator; such invoices are left
    out. *)
Definition network_ok (net amount : string) : bool :=
  (letters_ok net
   && negb (ends_with_multiplier (list_ascii_of_string net)
            && starts_with_one amount))%bool.

Definition digits_ok (ds : string) : bool :=
  (truthy ds && all_chars is_digit ds)%bool.

(** The data part of an invoice is bech32 text, which has no [1]. *)
Definition data_ok (data : string) : bool :=
  all_chars (fun c => negb (chr_i "1" c)) data.

Definition invoice_text (net ds : string) (m : option multiplier)
  (data : string) : string :=
  ("ln" ++ net ++ ds
     ++ match m with Some m => multiplier_letter m | None => "" end
     ++ "1" ++ data)%string.

(** What follows the network prefix in [BOLT11_RE]. *)
Definition MULT_SEP : regex :=
  RSeq (ROpt (RGroup "multiplier" (RChar is_multiplier_i))) (RChar (chr_i "1")).

Definition AMOUNT_MULT_SEP : regex :=
  RSeq (ROpt (RGroup "amount" (RPlus is_digit))) MULT_SEP.

(** A text without [1]. *)
Definition no_one (t : list ascii) : Prop :=
  forallb (fun c => negb (chr_i "1" c)) t = true.

(** The positions the lazy network group tries on an invoice without
    amount: inside the prefix, at the separator, or in the data. *)
Definition before_separator (t : list ascii) : Prop :=
  (exists letters data,
      t = (letters ++ "1"%char :: data)%list
      /\ forallb is_lower letters = true /\ no_one data)
  \/ no_one t.



End Bolt11.

(* ================================================================== *)
(** * src/challenge.ts *)
(* ================================================================== *)

Module Challenge.
Import JS.

Record L402Challenge : Type := { macaroon : string; invoice : string }.

Definition dquote : ascii := ascii_of_N 34.

Definition not_dquote (c : ascii) : bool := negb (Ascii.eqb c dquote).

(** [[^\s,]] *)
Definition not_space_comma (c : ascii) : bool :=
  negb (is_space c || Ascii.eqb c ",")%bool.

(** A character of an unquoted value that is not a double quote either. *)
Definition plain (c : ascii) : bool := (not_space_comma c && not_dquote c)%bool.

(** [(?:L402|LSAT)] under the [i] flag. *)
Definition SCHEME : regex := RAlt (lit_i "L402") (lit_i "LSAT").

(** [/(?:L402|LSAT)\s+macaroon="(?<macaroon>[^"]+)"\s*,\s*invoice="(?<invoice>[^"]+)"/i] *)
Definition CHALLENGE_RE : regex :=
  RSeq SCHEME
    (RSeq (RPlus is_space)
      (RSeq (lit_i "macaroon=")
        (RSeq (RChar (chr dquote))
          (RSeq (RGroup "macaroon" (RPlus not_dquote))
            (RSeq (RChar (chr dquote))
              (RSeq (RStar is_space)
                (RSeq (RChar (chr ","))
                  (RSeq (RStar is_space)
                    (RSeq (lit_i "invoice=")
                      (RSeq (RChar (chr dquote))
                        (RSeq (RGroup "invoice" (RPlus not_dquote))
                          (RChar (chr dquote))))))))))))).

(** [/(?:L402|LSAT)\s+macaroon=(?<macaroon>[^\s,]+)\s*,?\s*invoice=(?<invoice>[^\s,]+)/i] *)
Definition CHALLENGE_NOQUOTE_RE : regex :=
  RSeq SCHEME
    (RSeq (RPlus is_space)
      (RSeq (lit_i "macaroon=")
        (RSeq (RGroup "macaroon" (RPlus not_space_comma))
          (RSeq (RStar is_space)
            (RSeq (ROpt (RChar (chr ",")))
              (RSeq (RStar is_space)
                (RSeq (lit_i "invoice=")
                  (RGroup "invoice" (RPlus not_space_comma))))))))).

Definition undefined_trim : error :=
  HostError "TypeError" "Cannot read properties of undefined (reading 'trim')".

Definition parseChallenge (header : string) : result L402Challenge :=
  if negb (truthy header) then
    Throw (ChallengeParseError header "empty header")
  else
    let m :=
      match exec CHALLENGE_RE header with
      | Some groups => Some groups
      | None => exec CHALLENGE_NOQUOTE_RE header
      end in
    match m with
    | None => Throw (ChallengeParseError header "no L402/LSAT challenge found")
    | Some groups =>
        match group groups "macaroon", group groups "invoice" with
        | Some mac, Some inv =>
            let macaroon := trim mac in
            let invoice := trim inv in
            if negb (truthy macaroon) then
              Throw (ChallengeParseError header "empty macaroon")
            else if negb (truthy invoice) then
              Throw (ChallengeParseError header "empty invoice")
            else Ok {| macaroon := macaroon; invoice := invoice |}
        | _, _ => Throw undefined_trim
        end
    end.

(** A [Headers] object: the name/value pairs in insertion order. *)
Definition Headers : Type := list (string * string).

Definition same_name (a b : string) : bool :=
  String.eqb (toLowerCase a) (toLowerCase b).

(** [headers.get(name)]: the values under that name joined by [", "], or
    [null]. *)
Definition Headers_get (h : Headers) (name : string) : option string :=
  match filter (fun e => same_name (fst e) name) h with
  | [] => None
  | e :: rest =>
      Some (fold_left (fun acc e' => (acc ++ ", " ++ snd e')%string) rest (snd e))
  end.

(** [headers.set(name, value)]: the first entry of that name is replaced
    in place and the others are dropped; a new name is appended. *)
Fixpoint Headers_set (h : Headers) (name value : string) : Headers :=
  match h with
  | [] => [(toLowerCase name, value)]
  | e :: h' =>
      if same_name (fst e) name then
        (toLowerCase name, value)
          :: filter (fun e' => negb (same_name (fst e') name)) h'
      else e :: Headers_set h' name value
  end.

(** The argument of [findL402Challenge]: a [Headers] object or a plain
    object, given by its [Object.entries]. *)
Inductive headers_arg : Type :=
| HeadersObject (h : Headers)
| PlainObject (entries : list (string * string)).

(** [obj[key] = v] and [obj[key]] on a plain object. *)
Fixpoint object_set (o : list (string * string)) (key v : string)
  : list (string * string) :=
  match o with
  | [] => [(key, v)]
  | (k', v') :: o' =>
      if String.eqb k' key then (k', v) :: o' else (k', v') :: object_set o' key v
  end.

Fixpoint object_get (o : list (string * string)) (key : string) : option string :=
  match o with
  | [] => None
  | (k', v') :: o' => if String.eqb k' key then Some v' else object_get o' key
  end.

Definition www_authenticate (headers : headers_arg) : option string :=
  match headers with
  | HeadersObject h => Headers_get h "www-authenticate"
  | PlainObject entries =>
      let lower :=
        fold_left (fun lower e => object_set lower (toLowerCase (fst e)) (snd e))
                  entries [] in
      object_get lower "www-authenticate"
  end.

Definition findL402Challenge (headers : headers_arg) : option L402Challenge :=
  match www_authenticate headers with
  | None => None
  | Some wwwAuth =>
      if negb (truthy wwwAuth) then None
      else
        match parseChallenge wwwAuth with   (* try *)
        | Ok c => Some c
        | Throw _ => None                   (* catch *)
        end
  end.

End Challenge.

(* ================================================================== *)
(** * src/budget.ts *)
(* ================================================================== *)

Module Budget.
Import JS.

Record BudgetOptions : Type := {
  opt_maxSatsPerRequest : option Z;
  opt_maxSatsPerHour : option Z;
  opt_maxSatsPerDay : option Z;
  opt_allowedDomains : option (list string)
}.

(** An entry of [_payments]. *)
Record payment : Type := { timestamp : Z; amount : Z }.

(** [allowedDomains] is a [Set<string>], kept as its elements in insertion
    order. *)
Record BudgetController : Type := {
  maxSatsPerRequest : Z;
  maxSatsPerHour : Z;
  maxSatsPerDay : Z;
  allowedDomains : option (list string);
  _payments : list payment
}.

Definition no_options : BudgetOptions :=
  {| opt_maxSatsPerRequest := None; opt_maxSatsPerHour := None;
     opt_maxSatsPerDay := None; opt_allowedDomains := None |}.

(** [a ?? b] *)
Definition nullish {A : Type} (a : option A) (b : A) : A :=
  match a with Some x => x | None => b end.

Definition constructor (options : BudgetOptions) : BudgetController :=
  {| maxSatsPerRequest := nullish (opt_maxSatsPerRequest options) 1000;
     maxSatsPerHour := nullish (opt_maxSatsPerHour options) 10000;
     maxSatsPerDay := nullish (opt_maxSatsPerDay options) 50000;
     allowedDomains := opt_allowedDomains options;
     _payments := [] |}.

Definition with_payments (b : BudgetController) (ps : list payment)
  : BudgetController :=
  {| maxSatsPerRequest := maxSatsPerRequest b;
     maxSatsPerHour := maxSatsPerHour b;
     maxSatsPerDay := maxSatsPerDay b;
     allowedDomains := allowedDomains b;
     _payments := ps |}.

(** The loop of [_prune]: [shift()] while the first entry is older than
    the cutoff. *)
Fixpoint shift_while_older (cutoff : Z) (ps : list payment) : list payment :=
  match ps with
  | p :: ps' => if timestamp p <? cutoff then shift_while_older cutoff ps' else ps
  | [] => []
  end.

Definition _prune (b : BudgetController) (now : Z) : BudgetController :=
  let cutoff := now - 86400000 in
  with_payments b (shift_while_older cutoff (_payments b)).

(** [_payments.filter(p => p.timestamp >= since).reduce((sum, p) => sum + p.amount, 0)] *)
Definition spent_since (since : Z) (ps : list payment) : Z :=
  fold_left (fun sum p => sum + amount p)
            (filter (fun p => timestamp p >=? since) ps) 0.

(** The allow-list test of [check]; [domain] is [None] when the argument
    is omitted.  Yields the rejected domain. *)
Definition domain_rejected (b : BudgetController) (domain : option string)
  : option string :=
  match allowedDomains b, domain with
  | Some allowed, Some d =>
      if truthy d then
        let lowerDomains := map toLowerCase allowed in
        if negb (existsb (String.eqb (toLowerCase d)) lowerDomains)
        then Some d else None
      else None
  | _, _ => None
  end.

(** [check(amountSats, domain)], with the controller it leaves behind. *)
Definition check (b : BudgetController) (now : Z) (amountSats : Z)
  (domain : option string) : result unit * BudgetController :=
  match domain_rejected b domain with
  | Some d => (Throw (DomainNotAllowedError d), b)
  | None =>
      (* Per-request limit *)
      if amountSats >? maxSatsPerRequest b then
        (Throw (BudgetExceededError "per_request" (maxSatsPerRequest b) 0 amountSats), b)
      else
        let b1 := _prune b now in
        (* Hourly limit *)
        let hourAgo := now - 3600000 in
        let spentHour := spent_since hourAgo (_payments b1) in
        if spentHour + amountSats >? maxSatsPerHour b1 then
          (Throw (BudgetExceededError "per_hour" (maxSatsPerHour b1) spentHour amountSats), b1)
        else
          (* Daily limit *)
          let dayAgo := now - 86400000 in
          let spentDay := spent_since dayAgo (_payments b1) in
          if spentDay + amountSats >? maxSatsPerDay b1 then
            (Throw (BudgetExceededError "per_day" (maxSatsPerDay b1) spentDay amountSats), b1)
          else (Ok tt, b1)
  end.

Definition recordPayment (b : BudgetController) (now : Z) (amountSats : Z)
  : BudgetController :=
  with_payments b (_payments b ++ [{| timestamp := now; amount := amountSats |}]).

Definition spentLastHour (b : BudgetController) (now : Z) : Z * BudgetController :=
  let b1 := _prune b now in
  let hourAgo := now - 3600000 in
  (spent_since hourAgo (_payments b1), b1).

Definition spentLastDay (b : BudgetController) (now : Z) : Z * BudgetController :=
  let b1 := _prune b now in
  let dayAgo := now - 86400000 in
  (spent_since dayAgo (_payments b1), b1).

(** ** Histories

    A controller is driven by a sequence of calls, each at the time the
    clock shows when it is made.  [recorded] keeps every payment that
    [recordPayment] was given, also those [_prune] has dropped since. *)

Inductive call : Type :=
| CallCheck (amountSats : Z) (domain : option string)
| CallRecordPayment (amountSats : Z)
| CallSpentLastHour
| CallSpentLastDay.

Definition step (b : BudgetController) (now : Z) (c : call) : BudgetController :=
  match c with
  | CallCheck a d => snd (check b now a d)
  | CallRecordPayment a => recordPayment b now a
  | CallSpentLastHour => snd (spentLastHour b now)
  | CallSpentLastDay => snd (spentLastDay b now)
  end.

Fixpoint run (b : BudgetController) (calls : list (Z * call)) : BudgetController :=
  match calls with
  | [] => b
  | (now, c) :: calls' => run (step b now c) calls'
  end.

Fixpoint recorded (calls : list (Z * call)) : list payment :=
  match calls with
  | [] => []
  | (now, CallRecordPayment a) :: calls' =>
      {| timestamp := now; amount := a |} :: recorded calls'
  | _ :: calls' => recorded calls'
  end.

(** Every call was made when the clock showed at most [t]. *)
Definition all_before (t : Z) (calls : list (Z * call)) : Prop :=
  Forall (fun c => fst c <= t) calls.

(** The sum of the amounts recorded at a time in the closed interval
    [[lo, hi]], and in the half-open interval [(lo, hi]]. *)
Definition sum_amounts (ps : list payment) : Z :=
  fold_right (fun p sum => amount p + sum) 0 ps.

Definition sum_closed (lo hi : Z) (ps : list payment) : Z :=
  sum_amounts (filter (fun p => (lo <=? timestamp p) && (timestamp p <=? hi))%bool ps).

Definition sum_half_open (lo hi : Z) (ps : list payment) : Z :=
  sum_amounts (filter (fun p => (lo <? timestamp p) && (timestamp p <=? hi))%bool ps).

(** The payments summed for a trailing window of [window] milliseconds:
    those recorded at [now - window] or later. *)
Definition trailing (window now : Z) (ps : list payment) : list payment :=
  filter (fun p => now - window <=? timestamp p) ps.

Definition trailing_sum (window now : Z) (ps : list payment) : Z :=
  sum_amounts (trailing window now ps).

Definition HOUR : Z := 3600000.
Definition DAY : Z := 86400000.

(** ** Payments under the budget

    The way [L402Client.fetch] uses a controller: [check] when the
    challenge arrives and, if the check passes and the wallet pays,
    [recordPayment] when the payment is through. *)
Record attempt : Type := {
  checkedAt : Z;
  paidAt : Z;
  sats : Z;
  host : option string;
  walletPaid : bool
}.

Definition guarded_payment (b : BudgetController) (a : attempt) : BudgetController :=
  match check b (checkedAt a) (sats a) (host a) with
  | (Ok _, b1) => if walletPaid a then recordPayment b1 (paidAt a) (sats a) else b1
  | (Throw _, b1) => b1
  end.

(** The attempts follow one another on a clock that does not go back,
    between [from] and [upto]. *)
Fixpoint in_order (from : Z) (attempts : list attempt) (upto : Z) : Prop :=
  match attempts with
  | [] => from <= upto
  | a :: rest =>
      from <= checkedAt a /\ checkedAt a <= paidAt a /\ in_order (paidAt a) rest upto
  end.

(** The invariant of a controller used by [guarded_payment]s: from [t]
    on, the windows are within the limits. *)
Definition within_limits (b0 b : BudgetController) (t : Z) : Prop :=
  maxSatsPerRequest b = maxSatsPerRequest b0
  /\ maxSatsPerHour b = maxSatsPerHour b0
  /\ maxSatsPerDay b = maxSatsPerDay b0
  /\ Forall (fun p => 0 <= amount p <= maxSatsPerRequest b0) (_payments b)
  /\ forall t', t <= t' ->
       trailing_sum HOUR t' (_payments b) <= maxSatsPerHour b0
       /\ trailing_sum DAY t' (_payments b) <= maxSatsPerDay b0.

End Budget.

(* ================================================================== *)
(** * src/credential-cache.ts *)
(* ================================================================== *)

Module Cache.
Import JS.

Record CacheOptions : Type := {
  opt_maxSize : option Z;
  opt_defaultTtlMs : option Z
}.

Record L402Credential : Type := {
  macaroon : string;
  preimage : string;
  createdAt : Z;
  expiresAt : option Z
}.

(** [path.split("/")] *)
Fixpoint split_slash (s : string) : list string :=
  match s with
  | EmptyString => [EmptyString]
  | String c s' =>
      if Ascii.eqb c "/" then EmptyString :: split_slash s'
      else
        match split_slash s' with
        | piece :: rest => String c piece :: rest
        | [] => [String c EmptyString]
        end
  end.

(** [path.split("/").filter(Boolean)]: the non-empty segments of a path. *)
Definition segments (path : string) : list string :=
  filter truthy (split_slash path).

(** [parts.join("/")] *)
Definition join_slash (parts : list string) : string := String.concat "/" parts.

Definition cacheKey (domain path : string) : string :=
  let domain := trim (toLowerCase domain) in
  let parts := segments path in
  let prefix :=
    if (2 <=? List.length parts)%nat
    then ("/" ++ join_slash (firstn 2 parts))%string
    else ("/" ++ join_slash parts)%string in
  (domain ++ "::" ++ prefix)%string.

(** A [Map<string, L402Credential>]: its entries in insertion order, no
    key twice. *)
Definition Map : Type := list (string * L402Credential).

Fixpoint Map_get (m : Map) (key : string) : option L402Credential :=
  match m with
  | [] => None
  | (k, v) :: m' => if String.eqb k key then Some v else Map_get m' key
  end.

Definition Map_delete (m : Map) (key : string) : Map :=
  filter (fun e => negb (String.eqb (fst e) key)) m.

(** [map.set(key, v)]: an existing key keeps its place, a new one goes to
    the end. *)
Fixpoint Map_set (m : Map) (key : string) (v : L402Credential) : Map :=
  match m with
  | [] => [(key, v)]
  | (k, v') :: m' =>
      if String.eqb k key then (k, v) :: m' else (k, v') :: Map_set m' key v
  end.

Definition Map_size (m : Map) : Z := Z.of_nat (List.length m).

Definition keys (m : Map) : list string := map fst m.

Record CredentialCache : Type := {
  _maxSize : Z;
  _defaultTtlMs : option Z;
  _cache : Map
}.

Definition constructor (options : CacheOptions) : CredentialCache :=
  {| _maxSize := Budget.nullish (opt_maxSize options) 256;
     _defaultTtlMs := Some (Budget.nullish (opt_defaultTtlMs options) 3600000);
     _cache := [] |}.

Definition with_cache (c : CredentialCache) (m : Map) : CredentialCache :=
  {| _maxSize := _maxSize c; _defaultTtlMs := _defaultTtlMs c; _cache := m |}.

Definition expired (cred : L402Credential) (now : Z) : bool :=
  match expiresAt cred with
  | Some e => now >=? e
  | None => false
  end.

Definition get (c : CredentialCache) (now : Z) (domain path : string)
  : option L402Credential * CredentialCache :=
  let key := cacheKey domain path in
  match Map_get (_cache c) key with
  | None => (None, c)
  | Some cred =>
      if expired cred now then
        (None, with_cache c (Map_delete (_cache c) key))
      else
        (* Move to end (most recently used) *)
        (Some cred, with_cache c (Map_set (Map_delete (_cache c) key) key cred))
  end.

(** The eviction loop of [put],
    [while (size > maxSize) delete(keys().next().value)]: the first key of
    a map is that of its first entry.  On an empty map the key is
    [undefined], nothing is deleted and the condition never changes: the
    loop does not end, which is [None] here. *)
Fixpoint evict (maxSize : Z) (m : Map) : option Map :=
  if Map_size m >? maxSize then
    match m with
    | [] => None
    | _oldest :: m' => evict maxSize m'
    end
  else Some m.

(** [put]; the argument [expiresAt] is [None] when omitted, [Some None]
    when [null].  [None] as result: the call does not return. *)
Definition put (c : CredentialCache) (now : Z)
  (domain path macaroon preimage : string) (expiresAt : option (option Z))
  : option (L402Credential * CredentialCache) :=
  let key := cacheKey domain path in
  let resolvedExpiresAt :=
    match expiresAt with
    | Some e => e
    | None =>
        match _defaultTtlMs c with
        | Some ttl => Some (now + ttl)
        | None => None
        end
    end in
  let cred :=
    {| macaroon := macaroon; preimage := preimage;
       createdAt := now; expiresAt := resolvedExpiresAt |} in
  let m := Map_set (Map_delete (_cache c) key) key cred in
  match evict (_maxSize c) m with
  | Some m' => Some (cred, with_cache c m')
  | None => None
  end.

Definition authorizationHeader (cred : L402Credential) : string :=
  ("L402 " ++ macaroon cred ++ ":" ++ preimage cred)%string.

Definition clear (c : CredentialCache) : CredentialCache := with_cache c [].

Definition size (c : CredentialCache) : Z := Map_size (_cache c).

(** ** Histories

    A cache is driven by a sequence of calls.  A call accesses a key when it
    is a [put] under that key, or a [get] that returns its credential. *)

Inductive call : Type :=
| CallGet (domain path : string)
| CallPut (domain path macaroon preimage : string) (expiresAt : option (option Z))
| CallClear.

(** The key a call accesses, and the cache it leaves; [None] when the call
    does not return. *)
Definition step (c : CredentialCache) (now : Z) (o : call)
  : option (option string * CredentialCache) :=
  match o with
  | CallGet d p =>
      match get c now d p with
      | (Some _, c') => Some (Some (cacheKey d p), c')
      | (None, c') => Some (None, c')
      end
  | CallPut d p mac pre e =>
      match put c now d p mac pre e with
      | Some (_, c') => Some (Some (cacheKey d p), c')
      | None => None
      end
  | CallClear => Some (None, clear c)
  end.

(** Runs the calls in order; yields the accesses made, oldest first, and
    the final cache. *)
Fixpoint run (c : CredentialCache) (calls : list (Z * call))
  : option (list (option string) * CredentialCache) :=
  match calls with
  | [] => Some ([], c)
  | (now, o) :: calls' =>
      match step c now o with
      | None => None
      | Some (a, c') =>
          match run c' calls' with
          | None => None
          | Some (accs, c'') => Some (a :: accs, c'')
          end
      end
  end.

Definition is_access (a : option string) (key : string) : bool :=
  match a with Some k => String.eqb k key | None => false end.

(** The position of the most recent access to [key]. *)
Fixpoint last_access (key : string) (accs : list (option string)) : option nat :=
  match accs with
  | [] => None
  | a :: accs' =>
      match last_access key accs' with
      | Some n => Some (S n)
      | None => if is_access a key then Some O else None
      end
  end.

(** [k1] was last accessed before [k2] was. *)
Definition accessed_before (accs : list (option string)) (k1 k2 : string) : Prop :=
  exists n1 n2,
    last_access k1 accs = Some n1 /\ last_access k2 accs = Some n2 /\ (n1 < n2)%nat.

(** The keys are in the order of their last access, oldest first. *)
Fixpoint recency_sorted (accs : list (option string)) (ks : list string) : Prop :=
  match ks with
  | [] => True
  | k :: ks' =>
      (exists n, last_access k accs = Some n)
      /\ Forall (accessed_before accs k) ks'
      /\ recency_sorted accs ks'
  end.

(** Two paths share their first two segments. *)
Definition same_group (p1 p2 : string) : Prop :=
  firstn 2 (segments p1) = firstn 2 (segments p2).

End Cache.

(* ================================================================== *)
(** * src/spending-log.ts *)
(* ================================================================== *)

Module SpendingLog.

Record PaymentRecord : Type := {
  domain : string;
  path : string;
  amountSats : Z;
  preimage : string;
  timestamp : Z;
  success : bool
}.

Record SpendingLog : Type := { _records : list PaymentRecord }.

Definition constructor : SpendingLog := {| _records := [] |}.

Definition record (l : SpendingLog) (now : Z) (domain path : string)
  (amountSats : Z) (preimage : string) (success : bool)
  : PaymentRecord * SpendingLog :=
  let entry :=
    {| domain := domain; path := path; amountSats := amountSats;
       preimage := preimage; timestamp := now; success := success |} in
  (entry, {| _records := _records l ++ [entry] |}).

Definition records (l : SpendingLog) : list PaymentRecord := _records l.

Definition sum (rs : list PaymentRecord) : Z :=
  fold_left (fun sum r => sum + amountSats r) rs 0.

Definition totalSpent (l : SpendingLog) : Z :=
  sum (filter success (_records l)).

Definition spentLastHour (l : SpendingLog) (now : Z) : Z :=
  let cutoff := now - 3600000 in
  sum (filter (fun r => success r && (timestamp r >=? cutoff))%bool (_records l)).

Definition spentToday (l : SpendingLog) (now : Z) : Z :=
  let cutoff := now - 86400000 in
  sum (filter (fun r => success r && (timestamp r >=? cutoff))%bool (_records l)).

Definition length (l : SpendingLog) : Z := Z.of_nat (List.length (_records l)).

(** ** [byDomain()]

    The totals are a plain object.  A member inherited from
    [Object.prototype] is not nullish: a domain of such a name is added to
    a function, which yields text, and text stays text.  The setter of
    [__proto__] discards what is not an object, so that name never becomes
    a property.  Neither the text nor the enumeration order of the object
    is modelled: the object is read by its properties. *)

Inductive total : Type :=
| Sats (n : Z)
| Text.

Definition Object_prototype_members : list string :=
  ["constructor"; "__defineGetter__"; "__defineSetter__"; "hasOwnProperty";
   "__lookupGetter__"; "__lookupSetter__"; "isPrototypeOf";
   "propertyIsEnumerable"; "toString"; "valueOf"; "__proto__";
   "toLocaleString"].

Definition inherited (key : string) : bool :=
  existsb (String.eqb key) Object_prototype_members.

Definition totals : Type := list (string * total).

Fixpoint own (o : totals) (key : string) : option total :=
  match o with
  | [] => None
  | (k, v) :: o' => if String.eqb k key then Some v else own o' key
  end.

Fixpoint assign (o : totals) (key : string) (v : total) : totals :=
  match o with
  | [] => [(key, v)]
  | (k, v') :: o' =>
      if String.eqb k key then (k, v) :: o' else (k, v') :: assign o' key v
  end.

(** [totals[key]] *)
Definition read (o : totals) (key : string) : option total :=
  match own o key with
  | Some v => Some v
  | None => if inherited key then Some Text else None
  end.

(** [totals[r.domain] = (totals[r.domain] ?? 0) + r.amountSats] *)
Definition add (o : totals) (key : string) (amountSats : Z) : totals :=
  let sum :=
    match read o key with
    | None => Sats (0 + amountSats)
    | Some (Sats v) => Sats (v + amountSats)
    | Some Text => Text
    end in
  if String.eqb key "__proto__" then o else assign o key sum.

Definition byDomain (l : SpendingLog) : totals :=
  fold_left (fun o r => if success r then add o (domain r) (amountSats r) else o)
            (_records l) [].

(** The sum of the successful payments to a domain. *)
Definition spent_on (d : string) (rs : list PaymentRecord) : Z :=
  fold_right (fun r acc =>
                if (success r && String.eqb (domain r) d)%bool
                then amountSats r + acc else acc) 0 rs.

Definition paid_to (d : string) (rs : list PaymentRecord) : bool :=
  existsb (fun r => success r && String.eqb (domain r) d)%bool rs.

End SpendingLog.

(* ================================================================== *)
(** * src/client.ts *)
(* ================================================================== *)

Module Client.
Import JS.

(** ** Requests and responses *)

(** The bodies [bufferBody] tells apart; bytes are kept as a string.  A
    stream is the chunks it delivers and, possibly, the error that ends
    it. *)
Inductive Body : Type :=
| BString (s : string)
| BArrayBuffer (bytes : string)
| BUint8Array (bytes : string)
| BBlob (bytes : string)
| BReadableStream (chunks : list string) (failure : option error)
| BURLSearchParams (encoded : string)
| BFormData (fields : list (string * string)).

(** The fields of a [RequestInit] the client looks at, and the rest. *)
Record RequestInit : Type := {
  method : option string;
  headers : option Challenge.Headers;
  body : option Body;
  others : list (string * string)
}.

Definition no_init : RequestInit :=
  {| method := None; headers := None; body := None; others := [] |}.

Definition or_else {A : Type} (a b : option A) : option A :=
  match a with Some x => Some x | None => b end.

(** [{ ...defaults, ...init }] *)
Definition spread (defaults init : RequestInit) : RequestInit :=
  {| method := or_else (method init) (method defaults);
     headers := or_else (headers init) (headers defaults);
     body := or_else (body init) (body defaults);
     others :=
       fold_left (fun o e => Challenge.object_set o (fst e) (snd e))
                 (others init) (others defaults) |}.

(** What [globalThis.fetch] is called with. *)
Record Request : Type := {
  req_url : string;
  req_init : RequestInit;
  req_headers : Challenge.Headers;
  req_body : option Body
}.

Record Response : Type := {
  status : Z;
  resp_headers : Challenge.Headers;
  resp_body : string
}.

Definition bufferBody (b : Body) : result Body :=
  match b with
  | BString _ | BArrayBuffer _ | BUint8Array _ => Ok b
  | BBlob bytes => Ok (BArrayBuffer bytes)
  | BReadableStream chunks failure =>
      match failure with
      | Some e => Throw e
      | None => Ok (BUint8Array (String.concat "" chunks))
      end
  | BURLSearchParams encoded => Ok (BString encoded)
  | BFormData _ => Ok b
  end.

(** ** The world around a client

    Everything the client awaits is answered by the environment, which may
    look at all that happened before. *)

Inductive event : Type :=
| EvFetch (r : Request)                       (* globalThis.fetch *)
| EvAutoDetect                                (* autoDetectWallet *)
| EvPayInvoice (bolt11 : string)              (* wallet.payInvoice *)
| EvBudgetCheck (amountSats : Z) (domain : string) (verdict : result unit).

Definition trace : Type := list event.

Record Wallet : Type := { payInvoice : trace -> string -> result string }.

Record World : Type := {
  parseURL : string -> option (string * string);   (* hostname, pathname *)
  now : trace -> Z;                                (* Date.now() *)
  http : trace -> Request -> result Response;
  autoDetectWallet : trace -> result Wallet
}.

(** ** The client *)

Record L402Options : Type := {
  opt_wallet : option Wallet;
  opt_budget : option (option Budget.BudgetController); (* undefined / null / given *)
  opt_credentialCache : option Cache.CredentialCache;
  opt_fetchOptions : option RequestInit
}.

Record L402Client : Type := {
  _wallet : option Wallet;
  _budget : option Budget.BudgetController;
  _cache : Cache.CredentialCache;
  _fetchOptions : RequestInit;
  spendingLog : SpendingLog.SpendingLog
}.

Definition constructor (options : L402Options) : L402Client :=
  {| _wallet := opt_wallet options;
     _budget :=
       match opt_budget options with
       | None => Some (Budget.constructor Budget.no_options)
       | Some b => b
       end;
     _cache :=
       Budget.nullish (opt_credentialCache options)
         (Cache.constructor
            {| Cache.opt_maxSize := None; Cache.opt_defaultTtlMs := None |});
     _fetchOptions := Budget.nullish (opt_fetchOptions options) no_init;
     spendingLog := SpendingLog.constructor |}.

(** ** Computations of the client

    A computation reads and updates the client and extends the trace; it
    returns, throws, or does not end. *)

Inductive outcome (A : Type) : Type :=
| Returned (a : A)
| Raised (e : error)
| Diverged.
Arguments Returned {A} a.
Arguments Raised {A} e.
Arguments Diverged {A}.

Record state : Type := { client : L402Client; log : trace }.

Definition M (A : Type) : Type := state -> outcome A * state.

Definition ret {A : Type} (a : A) : M A := fun s => (Returned a, s).

Definition raise {A : Type} (e : error) : M A := fun s => (Raised e, s).

Definition diverge {A : Type} : M A := fun s => (Diverged, s).

Definition bind {A B : Type} (m : M A) (f : A -> M B) : M B :=
  fun s =>
    match m s with
    | (Returned a, s') => f a s'
    | (Raised e, s') => (Raised e, s')
    | (Diverged, s') => (Diverged, s')
    end.

Notation "x <- m ;; k" := (bind m (fun x => k))
  (at level 61, m at next level, right associativity).
Notation "m ;;; k" := (bind m (fun _ => k))
  (at level 61, right associativity).

Definition lift {A : Type} (r : result A) : M A :=
  match r with Ok a => ret a | Throw e => raise e end.

(** [try m catch (e) { h e }] *)
Definition try_catch {A : Type} (m : M A) (h : error -> M A) : M A :=
  fun s =>
    match m s with
    | (Raised e, s') => h e s'
    | other => other
    end.

Definition get_client : M L402Client := fun s => (Returned (client s), s).

Definition get_trace : M trace := fun s => (Returned (log s), s).

Definition emit (e : event) : M unit :=
  fun s => (Returned tt, {| client := client s; log := (log s ++ [e])%list |}).

Definition update (f : L402Client -> L402Client) : M unit :=
  fun s => (Returned tt, {| client := f (client s); log := log s |}).

Definition set_wallet (w : Wallet) (c : L402Client) : L402Client :=
  {| _wallet := Some w; _budget := _budget c; _cache := _cache c;
     _fetchOptions := _fetchOptions c; spendingLog := spendingLog c |}.

Definition set_budget (b : Budget.BudgetController) (c : L402Client) : L402Client :=
  {| _wallet := _wallet c; _budget := Some b; _cache := _cache c;
     _fetchOptions := _fetchOptions c; spendingLog := spendingLog c |}.

Definition set_cache (k : Cache.CredentialCache) (c : L402Client) : L402Client :=
  {| _wallet := _wallet c; _budget := _budget c; _cache := k;
     _fetchOptions := _fetchOptions c; spendingLog := spendingLog c |}.

Definition set_spendingLog (l : SpendingLog.SpendingLog) (c : L402Client) : L402Client :=
  {| _wallet := _wallet c; _budget := _budget c; _cache := _cache c;
     _fetchOptions := _fetchOptions c; spendingLog := l |}.

Section WithWorld.
Variable w : World.

Definition Date_now : M Z := t <- get_trace ;; ret (now w t).

(** [await globalThis.fetch(url, init)] *)
Definition global_fetch (r : Request) : M Response :=
  t <- get_trace ;;
  emit (EvFetch r) ;;;
  lift (http w t r).

Definition _getWallet : M Wallet :=
  c <- get_client ;;
  match _wallet c with
  | Some wallet => ret wallet
  | None =>
      t <- get_trace ;;
      emit EvAutoDetect ;;;
      wallet <- lift (autoDetectWallet w t) ;;
      update (set_wallet wallet) ;;;
      ret wallet
  end.

Definition wallet_payInvoice (wallet : Wallet) (bolt11 : string) : M string :=
  t <- get_trace ;;
  emit (EvPayInvoice bolt11) ;;;
  lift (payInvoice wallet t bolt11).

Definition cache_get (domain path : string) : M (option Cache.L402Credential) :=
  c <- get_client ;;
  t <- Date_now ;;
  let '(cred, k) := Cache.get (_cache c) t domain path in
  update (set_cache k) ;;;
  ret cred.

Definition cache_put (domain path macaroon preimage : string) : M Cache.L402Credential :=
  c <- get_client ;;
  t <- Date_now ;;
  match Cache.put (_cache c) t domain path macaroon preimage None with
  | Some (cred, k) => update (set_cache k) ;;; ret cred
  | None => diverge
  end.

Definition budget_check (b : Budget.BudgetController) (amountSats : Z)
  (domain : string) : M unit :=
  t <- Date_now ;;
  let '(verdict, b') := Budget.check b t amountSats (Some domain) in
  update (set_budget b') ;;;
  emit (EvBudgetCheck amountSats domain verdict) ;;;
  lift verdict.

Definition budget_recordPayment (b : Budget.BudgetController) (amountSats : Z) : M unit :=
  t <- Date_now ;;
  update (set_budget (Budget.recordPayment b t amountSats)).

Definition spendingLog_record (domain path : string) (amountSats : Z)
  (preimage : string) (success : bool) : M unit :=
  c <- get_client ;;
  t <- Date_now ;;
  update (set_spendingLog
            (snd (SpendingLog.record (spendingLog c) t domain path
                    amountSats preimage success))).

(** [String(e instanceof Error ? e.message : e)] *)
Definition error_text (e : error) : string :=
  match e with
  | HostError _ message => message
  | ThrownValue rendering => rendering
  | _ => ""
  end.

Definition when {A : Type} (o : option A) (f : A -> M unit) : M unit :=
  match o with Some a => f a | None => ret tt end.

Definition fetch (url : string) (init : option RequestInit) : M Response :=
  let urlStr := url in
  match parseURL w urlStr with
  | None => raise (HostError "TypeError" "Invalid URL")
  | Some (domain, pathname) =>
      c <- get_client ;;
      (* Merge default fetch options with per-request options *)
      let mergedInit := spread (_fetchOptions c) (Budget.nullish init no_init) in
      let headers := Budget.nullish (headers mergedInit) [] in
      (* Buffer the body for potential retry *)
      bodyBuffer <-
        match body mergedInit with
        | Some b => b' <- lift (bufferBody b) ;; ret (Some b')
        | None => ret None
        end ;;
      (* Try cached credential first *)
      cachedCred <- cache_get domain pathname ;;
      let headers :=
        match cachedCred with
        | Some cred =>
            Challenge.Headers_set headers "Authorization"
              (Cache.authorizationHeader cred)
        | None => headers
        end in
      response <-
        global_fetch {| req_url := urlStr; req_init := mergedInit;
                        req_headers := headers; req_body := bodyBuffer |} ;;
      if negb (status response =? 402) then ret response
      else
        (* Parse L402 challenge *)
        match Challenge.findL402Challenge
                (Challenge.HeadersObject (resp_headers response)) with
        | None => ret response   (* 402 but not L402: return as-is *)
        | Some challenge =>
            (* Extract amount and check budget *)
            amountSats <- lift (Bolt11.extractAmountSats (Challenge.invoice challenge)) ;;
            c <- get_client ;;
            match _budget c, amountSats with
            | Some b, Some a => budget_check b a domain
            | _, _ => ret tt
            end ;;;
            (* Pay the invoice *)
            wallet <- _getWallet ;;
            preimage <-
              try_catch
                (wallet_payInvoice wallet (Challenge.invoice challenge))
                (fun e =>
                   when amountSats (fun a =>
                     spendingLog_record domain pathname a "" false) ;;;
                   if instanceof_L402Error e then raise e
                   else raise (PaymentFailedError (error_text e)
                                 (Some (Challenge.invoice challenge)))) ;;
            (* Record successful payment *)
            when amountSats (fun a =>
              c <- get_client ;;
              when (_budget c) (fun b => budget_recordPayment b a) ;;;
              spendingLog_record domain pathname a preimage true) ;;;
            (* Cache the credential *)
            cache_put domain pathname (Challenge.macaroon challenge) preimage ;;;
            (* Retry with L402 authorization *)
            let retryHeaders :=
              Challenge.Headers_set (Budget.nullish (Client.headers mergedInit) [])
                "Authorization"
                ("L402 " ++ Challenge.macaroon challenge ++ ":" ++ preimage)%string in
            retryResponse <-
              global_fetch {| req_url := urlStr; req_init := mergedInit;
                              req_headers := retryHeaders; req_body := bodyBuffer |} ;;
            ret retryResponse
        end
  end.

Definition with_method (m : string) (init : option RequestInit) : option RequestInit :=
  let i := Budget.nullish init no_init in
  Some {| method := Some m; headers := headers i; body := body i;
          others := others i |}.

Definition get (url : string) (init : option RequestInit) : M Response :=
  fetch url (with_method "GET" init).

Definition post (url : string) (init : option RequestInit) : M Response :=
  fetch url (with_method "POST" init).

Definition put (url : string) (init : option RequestInit) : M Response :=
  fetch url (with_method "PUT" init).

Definition delete (url : string) (init : option RequestInit) : M Response :=
  fetch url (with_method "DELETE" init).

Definition patch (url : string) (init : option RequestInit) : M Response :=
  fetch url (with_method "PATCH" init).

Definition head (url : string) (init : option RequestInit) : M Response :=
  fetch url (with_method "HEAD" init).

End WithWorld.

(** Runs a computation on a client, from an empty trace. *)
Definition exec {A : Type} (m : M A) (c : L402Client) : outcome A * state :=
  m {| client := c; log := [] |}.

(** ** What a trace holds *)

Definition fetched (t : trace) : list Request :=
  flat_map (fun e => match e with EvFetch r => [r] | _ => [] end) t.

Definition paid (t : trace) : list string :=
  flat_map (fun e => match e with EvPayInvoice i => [i] | _ => [] end) t.

Definition checked (t : trace) : list (Z * string * result unit) :=
  flat_map (fun e => match e with
                     | EvBudgetCheck a d v => [(a, d, v)]
                     | _ => []
                     end) t.

Definition detections (t : trace) : nat :=
  List.length (filter (fun e => match e with EvAutoDetect => true | _ => false end) t).

(** The verb methods of the client, by the HTTP method each one sets. *)
Definition verbs
  : list (string * (World -> string -> option RequestInit -> M Response)) :=
  [("GET", get); ("POST", post); ("PUT", put); ("DELETE", delete);
   ("PATCH", patch); ("HEAD", head)].

(** The settings two budget controllers share. *)
Definition same_limits (b b' : Budget.BudgetController) : Prop :=
  Budget.maxSatsPerRequest b' = Budget.maxSatsPerRequest b
  /\ Budget.maxSatsPerHour b' = Budget.maxSatsPerHour b
  /\ Budget.maxSatsPerDay b' = Budget.maxSatsPerDay b
  /\ Budget.allowedDomains b' = Budget.allowedDomains b.

(** The outcome of an awaited call. *)
Definition awaited {A : Type} (r : result A) : outcome A :=
  match r with Ok a => Returned a | Throw e => Raised e end.

(** ** A world for examples

    [api.example.com] answers every request without credentials with 402
    and a challenge for 1000 satoshis; the wallet pays. *)

Definition example_challenge : string :=
  ("L402 macaroon=" ++ String Challenge.dquote "mac1" ++ String Challenge.dquote ", invoice="
     ++ String Challenge.dquote "lnbc10u1ptest" ++ String Challenge.dquote "")%string.

Definition example_wallet : Wallet :=
  {| payInvoice := fun _ _ => Ok "p1" |}.

Definition failing_wallet : Wallet :=
  {| payInvoice := fun _ _ => Throw (HostError "Error" "payment failed") |}.

Definition example_world (www_authenticate : list (string * string)) : World :=
  {| parseURL := fun _ => Some ("api.example.com", "/api/v1/data");
     now := fun t => 1000 * Z.of_nat (List.length t);
     http := fun _ r =>
       match Challenge.Headers_get (req_headers r) "authorization" with
       | Some _ => Ok {| status := 200; resp_headers := []; resp_body := "ok" |}
       | None =>
           Ok {| status := 402; resp_headers := www_authenticate;
                 resp_body := "Payment Required" |}
       end;
     autoDetectWallet := fun _ => Throw NoWalletError |}.

Definition example_client_with (wallet : Wallet) (maxSatsPerRequest : Z)
  : L402Client :=
  constructor
    {| opt_wallet := Some wallet;
       opt_budget :=
         Some (Some (Budget.constructor
                       {| Budget.opt_maxSatsPerRequest := Some maxSatsPerRequest;
                          Budget.opt_maxSatsPerHour := None;
                          Budget.opt_maxSatsPerDay := None;
                          Budget.opt_allowedDomains := None |}));
       opt_credentialCache := None;
       opt_fetchOptions := None |}.

Definition example_client : Z -> L402Client := example_client_with example_wallet.

Definition example_url : string := "https://api.example.com/api/v1/data".

(** The paywall of the examples, the request a call without options
    sends to it, and the retry after the payment. *)
Definition example_paywall : World :=
  example_world [("WWW-Authenticate", example_challenge)].

Definition example_request : Request :=
  {| req_url := example_url; req_init := no_init;
     req_headers := []; req_body := None |}.

Definition example_retry : Request :=
  {| req_url := example_url; req_init := no_init;
     req_headers := [("authorization", "L402 mac1:p1")]; req_body := None |}.

(** A challenge whose invoice states no amount. *)
Definition amountless_challenge : string :=
  ("L402 macaroon=" ++ String Challenge.dquote "mac1" ++ String Challenge.dquote ", invoice="
     ++ String Challenge.dquote "lnbc1ptest" ++ String Challenge.dquote "")%string.

End Client.

(* ================================================================== *)
(** * src/wallets/nwc.ts: the hexadecimal helpers *)
(* ================================================================== *)

Module Nwc.
Import JS.

(** A [Uint8Array]: its elements, each a byte. *)
Definition Uint8Array : Type := list Byte.byte.

(** The value of a digit in radix 16. *)
Definition hex_value (c : ascii) : option Z :=
  if is_digit c then Some (Z.of_N (code c) - 48)
  else if in_range 97 102 c then Some (Z.of_N (code c) - 87)
  else if in_range 65 70 c then Some (Z.of_N (code c) - 55)
  else None.

(** The digits [parseInt] reads: the longest run of radix-16 digits at
    the start, with its value; [None] when there is no digit. *)
Fixpoint hex_run (s : string) (acc : option Z) : option Z :=
  match s with
  | EmptyString => acc
  | String c s' =>
      match hex_value c with
      | Some v =>
          hex_run s' (Some (16 * match acc with Some a => a | None => 0 end + v))
      | None => acc
      end
  end.

(** [parseInt(s, 16)]; [None] is [NaN].  Leading white space is skipped,
    a sign is read, and a prefix [0x] or [0X] is dropped. *)
Definition parseInt_16 (s : string) : option Z :=
  let s := trimStart s in
  let '(sign, s) :=
    match s with
    | String c s' =>
        if Ascii.eqb c "-" then (-1, s')
        else if Ascii.eqb c "+" then (1, s')
        else (1, s)
    | EmptyString => (1, s)
    end in
  let s :=
    match s with
    | String c (String x s') =>
        if (Ascii.eqb c "0" && (Ascii.eqb x "x" || Ascii.eqb x "X"))%bool
        then s' else s
    | _ => s
    end in
  match hex_run s None with
  | Some v => Some (sign * v)
  | None => None
  end.

(** What a [Uint8Array] stores when given a number: [NaN] is 0, an
    integer is taken modulo 256. *)
Definition ToUint8 (v : option Z) : Byte.byte :=
  match v with
  | Some z =>
      match Byte.of_N (Z.to_N (z mod 256)) with
      | Some b => b
      | None => Byte.x00
      end
  | None => Byte.x00
  end.

(** [hexToBytes]: the array has [hex.length / 2] elements, rounded down,
    and the loop stores [parseInt(hex.slice(i, i + 2), 16)] at [i / 2]
    for [i = 0, 2, 4, ...]; with an odd length the last store is past the
    end of the array and has no effect. *)
Fixpoint hexToBytes_from (hex : string) : Uint8Array :=
  match hex with
  | String c1 (String c2 rest) =>
      ToUint8 (parseInt_16 (String c1 (String c2 EmptyString)))
        :: hexToBytes_from rest
  | _ => []
  end.

Definition hexToBytes (hex : string) : Uint8Array := hexToBytes_from hex.

(** A digit of [n.toString(16)]. *)
Definition hex_digit (n : N) : ascii :=
  if N.ltb n 10 then ascii_of_N (48 + n) else ascii_of_N (87 + n).

(** [b.toString(16)] for a byte. *)
Definition toString_16 (b : Byte.byte) : string :=
  let n := Byte.to_N b in
  if N.ltb n 16 then String (hex_digit n) EmptyString
  else String (hex_digit (N.div n 16))
         (String (hex_digit (N.modulo n 16)) EmptyString).

(** [s.padStart(2, "0")] *)
Definition padStart_2 (s : string) : string :=
  match s with
  | EmptyString => "00"
  | String c EmptyString => String "0" s
  | _ => s
  end.

Definition bytesToHex (bytes : Uint8Array) : string :=
  String.concat "" (map (fun b => padStart_2 (toString_16 b)) bytes).

End Nwc.

(* ================================================================== *)
(** * Facts about the matcher *)
(* ================================================================== *)
Section RegexFacts.
Import JS.

Lemma list_ascii_of_string_app (a b : string) :
  list_ascii_of_string (a ++ b)
  = (list_ascii_of_string a ++ list_ascii_of_string b)%list.
Proof. induction a as [| c a IH]; simpl; [reflexivity | now rewrite IH]. Qed.

Lemma consumed_app (pre t : list ascii) :
  consumed (pre ++ t) t = string_of_list_ascii pre.
Proof.
  unfold consumed. rewrite length_app.
  replace (List.length pre + List.length t - List.length t)%nat
    with (List.length pre + 0)%nat by lia.
  rewrite firstn_app_2. simpl. now rewrite app_nil_r.
Qed.

Lemma consumed_cons (c : ascii) (t : list ascii) :
  consumed (c :: t) t = String c EmptyString.
Proof. exact (consumed_app [c] t). Qed.

Section QuantifierFacts.
Variables (p : cls) (caps : captures) (k : cont).

(** Greedy: whatever matches after the longer run [pre] is preferred. *)
Lemma star_greedy_prefix (pre t : list ascii) (r : captures) :
  forallb p pre = true ->
  star_greedy p caps k t = Some r ->
  star_greedy p caps k (pre ++ t) = Some r.
Proof.
  intros Hp Ht. induction pre as [| c pre IH]; simpl in *.
  - assumption.
  - apply andb_prop in Hp as [Hc Hp]. now rewrite Hc, (IH Hp).
Qed.

Lemma star_greedy_stop (t : list ascii) :
  match t with [] => True | c :: _ => p c = false end ->
  star_greedy p caps k t = k caps t.
Proof. destruct t as [| c t]; simpl; [reflexivity | now intros ->]. Qed.

Lemma star_greedy_none (good : list ascii -> Prop) :
  (forall c t, good (c :: t) -> good t) ->
  (forall t, good t -> k caps t = None) ->
  forall t, good t -> star_greedy p caps k t = None.
Proof.
  intros Hstep Hk t. induction t as [| c t IH]; intro Hg; simpl.
  - now apply Hk.
  - destruct (p c).
    + rewrite (IH (Hstep _ _ Hg)). now apply Hk.
    + now apply Hk.
Qed.

(** A lazy run goes on while the continuation fails. *)
Lemma star_lazy_skip (pre rest : list ascii) :
  forallb p pre = true ->
  (forall pre1 c pre2,
      pre = (pre1 ++ c :: pre2)%list -> k caps (c :: pre2 ++ rest) = None) ->
  star_lazy p caps k (pre ++ rest) = star_lazy p caps k rest.
Proof.
  induction pre as [| c pre IH]; intros Hp Hk; [reflexivity |].
  cbn [app forallb star_lazy] in *. apply andb_prop in Hp as [Hc Hp].
  rewrite (Hk [] c pre eq_refl), Hc.
  apply IH; [assumption |]. intros pre1 c' pre2 E.
  apply (Hk (c :: pre1) c' pre2). now rewrite E.
Qed.

Lemma star_lazy_stop (t : list ascii) (r : captures) :
  k caps t = Some r -> star_lazy p caps k t = Some r.
Proof. intro H. destruct t; simpl; now rewrite H. Qed.
Lemma star_lazy_reaches (pre rest : list ascii) (r0 : captures) :
  forallb p pre = true -> k caps rest = Some r0 ->
  exists r, star_lazy p caps k (pre ++ rest) = Some r.
Proof.
  intros Hp Hk. induction pre as [| c pre IH].
  - exists r0. now apply star_lazy_stop.
  - cbn [app forallb star_lazy] in *. apply andb_prop in Hp as [Hc Hp].
    destruct (k caps (c :: pre ++ rest)); [eauto |].
    rewrite Hc. now apply IH.
Qed.

(** What holds of every match of the continuation holds of the run. *)
Lemma star_lazy_invariant (good : list ascii -> Prop) (P : captures -> Prop) :
  (forall c t, good (c :: t) -> good t) ->
  (forall t r, good t -> k caps t = Some r -> P r) ->
  forall s r, good s -> star_lazy p caps k s = Some r -> P r.
Proof.
  intros Hstep Hk s. induction s as [| c s IH]; intros r Hg; cbn [star_lazy].
  - destruct (k caps []) eqn:E; [| discriminate].
    intros [= <-]. now apply (Hk [] _ Hg).
  - destruct (k caps (c :: s)) eqn:E.
    + intros [= <-]. now apply (Hk _ _ Hg).
    + destruct (p c); [| discriminate]. apply IH. now apply (Hstep c).
Qed.

End QuantifierFacts.

End RegexFacts.


(* ================================================================== *)
(** * bolt11.ts: amount extraction *)
(* ================================================================== *)

Section Bolt11Facts.
Import JS Bolt11.

Lemma lower_not_digit (c : ascii) :
  is_lower c = true -> is_digit c = false /\ chr_i "1" c = false.
Proof.
  destruct c as [[] [] [] [] [] [] [] []]; vm_compute; intro H;
    first [split; reflexivity | discriminate H].
Qed.

Lemma lower_is_alpha (c : ascii) : is_lower c = true -> is_alpha_i c = true.
Proof. unfold is_alpha_i. now intros ->. Qed.

Lemma no_one_tail c t : no_one (c :: t) -> no_one t.
Proof. unfold no_one; simpl. intro H. now apply andb_prop in H. Qed.

Lemma mult_sep_fails caps t : no_one t -> rmatch MULT_SEP caps t accept = None.
Proof.
  unfold no_one. destruct t as [| c t]; simpl; [reflexivity |].
  intro H. apply andb_prop in H as [Hc Ht]. apply negb_true_iff in Hc.
  rewrite Hc. destruct (is_multiplier_i c); [| reflexivity].
  destruct t as [| c' t]; [reflexivity |]. simpl in Ht.
  apply andb_prop in Ht as [Hc' _]. apply negb_true_iff in Hc'. now rewrite Hc'.
Qed.

Lemma mult_sep_no_multiplier caps data :
  rmatch MULT_SEP caps ("1"%char :: data) accept = Some caps.
Proof. reflexivity. Qed.

Lemma mult_sep_multiplier caps (m : multiplier) data :
  rmatch MULT_SEP caps
    (list_ascii_of_string (multiplier_letter m) ++ "1"%char :: data)%list accept
  = Some (("multiplier", multiplier_letter m) :: caps).
Proof.
  destruct m; cbn -[consumed]; now rewrite consumed_cons.
Qed.

(** No parse starts at a letter, unless the letter is a multiplier and
    [1] follows. *)
Lemma amount_mult_sep_fails_on_letter caps c t :
  is_lower c = true ->
  is_multiplier_i c && match t with x :: _ => chr_i "1" x | [] => false end = false ->
  rmatch AMOUNT_MULT_SEP caps (c :: t) accept = None.
Proof.
  intros Hl Hm. destruct (lower_not_digit c Hl) as [Hd H1].
  cbn -[consumed]. rewrite Hd, H1.
  destruct (is_multiplier_i c); [| reflexivity].
  destruct t as [| x t]; [reflexivity |]. simpl in Hm. now rewrite Hm.
Qed.

Lemma amount_mult_sep_fails caps t :
  no_one t -> rmatch AMOUNT_MULT_SEP caps t accept = None.
Proof.
  intro Ht. cbn -[consumed MULT_SEP].
  destruct t as [| c t].
  - reflexivity.
  - destruct (is_digit c).
    + rewrite (star_greedy_none is_digit caps _ no_one no_one_tail).
      * now apply mult_sep_fails.
      * intros t' Ht'. now apply mult_sep_fails.
      * now apply no_one_tail in Ht.
    + now apply mult_sep_fails.
Qed.

Lemma digits_cons ds :
  digits_ok ds = true ->
  exists d ds', list_ascii_of_string ds = d :: ds'
                /\ is_digit d = true /\ forallb is_digit ds' = true.
Proof.
  unfold digits_ok, all_chars. destruct ds as [| d ds']; simpl; [discriminate |].
  intro H. apply andb_prop in H as [Hd Hds]. eauto.
Qed.

(** Digits and a multiplier letter: the greedy amount takes all digits. *)
Lemma amount_with_multiplier caps ds (m : multiplier) data :
  digits_ok ds = true ->
  rmatch AMOUNT_MULT_SEP caps
    (list_ascii_of_string ds
       ++ list_ascii_of_string (multiplier_letter m) ++ "1"%char :: data)%list
    accept
  = Some (("multiplier", multiplier_letter m) :: ("amount", ds) :: caps).
Proof.
  intro Hds. pose proof Hds as Hall.
  unfold digits_ok in Hall. apply andb_prop in Hall as [_ Hall].
  destruct (digits_cons ds Hds) as (d & ds' & E & Hd & Hds').
  set (rest := (list_ascii_of_string (multiplier_letter m) ++ "1"%char :: data)%list).
  cbn -[consumed MULT_SEP]. rewrite E. cbn -[consumed MULT_SEP]. rewrite Hd.
  rewrite (star_greedy_prefix is_digit caps _ ds' rest
             (("multiplier", multiplier_letter m)
                :: ("amount", ds) :: caps) Hds').
  - reflexivity.
  - rewrite star_greedy_stop by (destruct m; reflexivity).
    change (d :: ds' ++ rest)%list with ((d :: ds') ++ rest)%list.
    rewrite <- E, consumed_app, string_of_list_ascii_of_string.
    apply mult_sep_multiplier.
Qed.

(** Digits and no multiplier: the greedy amount runs over the separator
    and into the data, and backs up to the separator. *)
Lemma amount_without_multiplier caps ds data :
  digits_ok ds = true -> no_one data ->
  rmatch AMOUNT_MULT_SEP caps
    (list_ascii_of_string ds ++ "1"%char :: data)%list accept
  = Some (("amount", ds) :: caps).
Proof.
  intros Hds Hdata.
  destruct (digits_cons ds Hds) as (d & ds' & E & Hd & Hds').
  cbn -[consumed MULT_SEP]. rewrite E. cbn -[consumed MULT_SEP]. rewrite Hd.
  rewrite (star_greedy_prefix is_digit caps _ ds' ("1"%char :: data)
             (("amount", ds) :: caps) Hds').
  - reflexivity.
  - cbn -[consumed MULT_SEP].
    rewrite (star_greedy_none is_digit caps _ no_one no_one_tail); [| | assumption].
    + change (d :: ds' ++ "1"%char :: data)%list
        with ((d :: ds') ++ "1"%char :: data)%list.
      rewrite <- E, consumed_app, string_of_list_ascii_of_string.
      apply mult_sep_no_multiplier.
    + intros t Ht. now apply mult_sep_fails.
Qed.

(** No digits: the amount group is tried on the separator and the data,
    fails, and is skipped. *)
Lemma amount_absent caps data :
  no_one data ->
  rmatch AMOUNT_MULT_SEP caps ("1"%char :: data) accept = Some caps.
Proof.
  intro Hdata. cbn -[consumed MULT_SEP].
  rewrite (star_greedy_none is_digit caps _ no_one no_one_tail); [| | assumption].
  - apply mult_sep_no_multiplier.
  - intros t Ht. now apply mult_sep_fails.
Qed.

Lemma ends_with_multiplier_suffix (pre1 pre2 : list ascii) :
  pre2 <> [] ->
  ends_with_multiplier (pre1 ++ pre2) = ends_with_multiplier pre2.
Proof.
  intro H. induction pre1 as [| c pre1 IH]; [reflexivity |].
  cbn [app ends_with_multiplier]. rewrite IH.
  destruct (pre1 ++ pre2)%list eqn:E; [| reflexivity].
  apply app_eq_nil in E as [_ E]. contradiction.
Qed.

Lemma letters_cons net :
  letters_ok net = true ->
  exists c net', net = String c net' /\ is_lower c = true
                 /\ forallb is_lower (list_ascii_of_string net') = true.
Proof.
  unfold letters_ok, all_chars. destruct net as [| c net']; [discriminate |].
  simpl. intro H. apply andb_prop in H as [Hc Hall]. eauto.
Qed.

Lemma forallb_lower_alpha l :
  forallb is_lower l = true -> forallb is_alpha_i l = true.
Proof.
  rewrite !forallb_forall. intros H x Hx. now apply lower_is_alpha, H.
Qed.

(** The lazy network group stops at the end of the prefix. *)
Lemma bolt11_network net amount rest (r : captures) :
  network_ok net amount = true ->
  match rest with x :: _ => chr_i "1" x | [] => false end = starts_with_one amount ->
  rmatch AMOUNT_MULT_SEP [("network", net)] rest accept = Some r ->
  exec_anchored BOLT11_RE ("ln" ++ net ++ string_of_list_ascii rest) = Some r.
Proof.
  unfold network_ok. intros Hnet Hone Hrest.
  apply andb_prop in Hnet as [Hletters Hend]. apply negb_true_iff in Hend.
  destruct (letters_cons net Hletters) as (c & net' & -> & Hc & Hall).
  unfold exec_anchored. cbn -[consumed AMOUNT_MULT_SEP star_lazy].
  rewrite list_ascii_of_string_app, list_ascii_of_string_of_list_ascii.
  rewrite (lower_is_alpha c Hc).
  rewrite star_lazy_skip.
  - apply star_lazy_stop.
    change (c :: list_ascii_of_string net' ++ rest)%list
      with (list_ascii_of_string (String c net') ++ rest)%list.
    rewrite consumed_app, string_of_list_ascii_of_string. exact Hrest.
  - now apply forallb_lower_alpha.
  - intros pre1 x pre2 E.
    assert (Hx : is_lower x = true).
    { rewrite forallb_forall in Hall. apply Hall. rewrite E.
      apply in_elt. }
    apply amount_mult_sep_fails_on_letter; [exact Hx |].
    destruct pre2 as [| y pre2]; cbn [app].
    + rewrite Hone. cbn [list_ascii_of_string] in Hend.
      change (c :: list_ascii_of_string net')
        with ([c] ++ list_ascii_of_string net')%list in Hend.
      rewrite E, app_assoc, ends_with_multiplier_suffix in Hend by discriminate.
      exact Hend.
    + assert (Hy : is_lower y = true).
      { rewrite forallb_forall in Hall. apply Hall. rewrite E.
        apply in_or_app. right. right. now left. }
      destruct (lower_not_digit y Hy) as [_ ->]. apply andb_false_r.
Qed.

(** An invoice without amount digits: whatever the match, the amount
    group takes no part in it. *)
Lemma before_separator_tail c t : before_separator (c :: t) -> before_separator t.
Proof.
  intros [(letters & data & E & Hl & Hd) | H].
  - destruct letters as [| x letters]; cbn [app] in E; injection E as -> ->.
    + now right.
    + left. exists letters, data. simpl in Hl. apply andb_prop in Hl as [_ Hl].
      now repeat split.
  - right. now apply no_one_tail in H.
Qed.

Lemma amount_group_unset caps t r :
  before_separator t ->
  rmatch AMOUNT_MULT_SEP caps t accept = Some r ->
  group r "amount" = group caps "amount".
Proof.
  intros [(letters & data & -> & Hl & Hd) | H].
  - destruct letters as [| c letters]; cbn [app].
    + rewrite amount_absent by assumption. now intros [= <-].
    + simpl in Hl. apply andb_prop in Hl as [Hc _].
      destruct (lower_not_digit c Hc) as [Hd' H1].
      cbn -[consumed]. rewrite Hd', H1.
      destruct (is_multiplier_i c); [| discriminate].
      destruct (letters ++ "1"%char :: data)%list as [| x t']; [discriminate |].
      destruct (chr_i "1" x); [| discriminate].
      now intros [= <-].
  - now rewrite amount_mult_sep_fails.
Qed.

Lemma Number_of_BigInt_exact (z : Z) :
  - 2 ^ 53 <= z <= 2 ^ 53 -> Number_of_BigInt z = z.
Proof.
  intro Hz. unfold Number_of_BigInt.
  destruct (Z.eq_dec (Z.abs z) (2 ^ 53)) as [E | NE].
  - destruct (Z.abs_eq_or_opp z) as [A | A]; rewrite A in E.
    + subst z. reflexivity.
    + assert (z = - 2 ^ 53) as -> by lia. reflexivity.
  - assert (Hlt : Z.abs z < 2 ^ 53) by lia.
    assert (Hlog : Z.log2 (Z.abs z) < 53).
    { destruct (Z.eq_dec (Z.abs z) 0) as [E0 | N0].
      - rewrite E0. reflexivity.
      - apply Z.log2_lt_pow2; lia. }
    cbv zeta.
    destruct (Z.leb_spec (Z.log2 (Z.abs z) - 52) 0); [reflexivity | lia].
Qed.

Lemma BigInt_of_digits_nonneg ds :
  all_chars is_digit ds = true -> 0 <= BigInt_of_digits ds.
Proof.
  unfold all_chars, BigInt_of_digits.
  assert (G : forall l acc, forallb is_digit l = true -> 0 <= acc ->
            0 <= fold_left (fun a c => 10 * a + digit_value c) l acc).
  { induction l as [| c l IH]; cbn [fold_left forallb]; intros acc Hl Hacc;
      [assumption |].
    apply andb_prop in Hl as [Hc Hl]. apply IH; [assumption |].
    unfold is_digit, in_range in Hc. apply andb_prop in Hc as [H1 H2].
    apply N.leb_le in H1, H2. unfold digit_value, code in *. lia. }
  intro H. now apply G.
Qed.

Lemma exact_sats_nonneg ds m :
  digits_ok ds = true -> 0 <= exact_sats ds m.
Proof.
  unfold digits_ok. intro H. apply andb_prop in H as [_ H].
  pose proof (BigInt_of_digits_nonneg ds H) as Hn.
  destruct m as [m |]; simpl; [| lia].
  apply Z.quot_pos; [| destruct m; simpl; lia].
  unfold scale_numerator. lia.
Qed.

Lemma truthy_of_lowered bolt11 t :
  toLowerCase (trim bolt11) = ("ln" ++ t)%string -> truthy bolt11 = true.
Proof. destruct bolt11; [discriminate | reflexivity]. Qed.

Lemma data_ok_no_one data : data_ok data = true -> no_one (list_ascii_of_string data).
Proof. exact (fun H => H). Qed.

(** On a well-formed invoice the function returns the exact amount,
    converted to a [number]. *)
Lemma extractAmountSats_formula bolt11 net ds m data :
  network_ok net ds = true -> digits_ok ds = true ->
  (m = None -> data_ok data = true) ->
  toLowerCase (trim bolt11) = invoice_text net ds m data ->
  extractAmountSats bolt11 = Ok (Some (Number_of_BigInt (exact_sats ds m))).
Proof.
  intros Hnet Hds Hdata E. unfold extractAmountSats.
  rewrite (truthy_of_lowered bolt11 _ E). cbn [negb]. rewrite E.
  assert (Hone : forall t,
             match (list_ascii_of_string ds ++ t)%list with
             | x :: _ => chr_i "1" x
             | [] => false
             end = starts_with_one ds).
  { intro t. destruct (digits_cons ds Hds) as (d & ds' & Eds & _).
    rewrite Eds. destruct ds; [discriminate |]. now injection Eds as -> _. }
  unfold invoice_text. destruct m as [m |].
  - replace (net ++ ds ++ multiplier_letter m ++ "1" ++ data)%string
      with (net ++ string_of_list_ascii
                     (list_ascii_of_string ds
                        ++ list_ascii_of_string (multiplier_letter m)
                        ++ "1"%char :: list_ascii_of_string data))%string.
    + rewrite (bolt11_network net ds _ _ Hnet (Hone _)
                 (amount_with_multiplier _ ds m _ Hds)).
      destruct m; reflexivity.
    + f_equal. rewrite <- (string_of_list_ascii_of_string (ds ++ _)).
      f_equal. rewrite !list_ascii_of_string_app. reflexivity.
  - replace (net ++ ds ++ "" ++ "1" ++ data)%string
      with (net ++ string_of_list_ascii
                     (list_ascii_of_string ds
                        ++ "1"%char :: list_ascii_of_string data))%string.
    + rewrite (bolt11_network net ds _ _ Hnet (Hone _)
                 (amount_without_multiplier _ ds _ Hds
                    (data_ok_no_one _ (Hdata eq_refl)))).
      reflexivity.
    + f_equal. rewrite <- (string_of_list_ascii_of_string (ds ++ _)).
      f_equal. rewrite !list_ascii_of_string_app. reflexivity.
Qed.

(** An invoice without amount digits. *)
Lemma extractAmountSats_any_amount bolt11 net data :
  letters_ok net = true -> data_ok data = true ->
  toLowerCase (trim bolt11) = ("ln" ++ net ++ "1" ++ data)%string ->
  extractAmountSats bolt11 = Ok None.
Proof.
  intros Hnet Hdata E. unfold extractAmountSats.
  rewrite (truthy_of_lowered bolt11 _ E). cbn [negb]. rewrite E.
  destruct (letters_cons net Hnet) as (c & net' & -> & Hc & Hall).
  apply data_ok_no_one in Hdata.
  unfold exec_anchored. cbn -[consumed AMOUNT_MULT_SEP star_lazy group].
  rewrite (lower_is_alpha c Hc).
  rewrite list_ascii_of_string_app. cbn [list_ascii_of_string append].
  match goal with
  | |- context [star_lazy ?p ?caps ?k ?s] =>
      destruct (star_lazy_reaches p caps k (list_ascii_of_string net')
                  ("1"%char :: list_ascii_of_string data) [("network", String c net')])
        as [r Hr];
      [ now apply forallb_lower_alpha
      | change (c :: list_ascii_of_string net'
                  ++ "1"%char :: list_ascii_of_string data)%list
          with (list_ascii_of_string (String c net')
                  ++ "1"%char :: list_ascii_of_string data)%list;
        rewrite consumed_app, string_of_list_ascii_of_string;
        now apply amount_absent
      | rewrite Hr;
        assert (HK : forall t r', before_separator t -> k caps t = Some r' ->
                                  group r' "amount" = None)
          by (intros t r' Ht Hk; now rewrite (amount_group_unset _ t r' Ht Hk));
        assert (HG : before_separator s)
          by (left; exists (list_ascii_of_string net'), (list_ascii_of_string data);
              now repeat split);
        now rewrite (star_lazy_invariant p caps k before_separator
                       (fun r => group r "amount" = None)
                       before_separator_tail HK s r HG Hr) ]
  end.
Qed.

(** C2, as the code has it.  For every well-formed invoice (network
    prefix, amount digits, optional multiplier, separator, data) the
    function returns the amount computed with exact integer arithmetic,
    digits x 100,000,000 x numerator, divided by the denominator with
    truncation, whenever that amount is at most 2^53; an invoice without
    amount digits yields null; and the four canonical cases evaluate to
    1000, 100000, 100 and 100,000,000. *)
Theorem extractAmountSats_exact_below_2_53 :
  (forall bolt11 net ds m data,
      network_ok net ds = true -> digits_ok ds = true ->
      (m = None -> data_ok data = true) ->
      toLowerCase (trim bolt11) = invoice_text net ds m data ->
      exact_sats ds m <= 2 ^ 53 ->
      extractAmountSats bolt11 = Ok (Some (exact_sats ds m)))
  /\ (forall bolt11 net data,
         letters_ok net = true -> data_ok data = true ->
         toLowerCase (trim bolt11) = ("ln" ++ net ++ "1" ++ data)%string ->
         extractAmountSats bolt11 = Ok None)
  /\ extractAmountSats "lnbc10u1pxxxxxx" = Ok (Some 1000)
  /\ extractAmountSats "lnbc1m1pxxxxxx" = Ok (Some 100000)
  /\ extractAmountSats "lnbc1000n1pxxxxxx" = Ok (Some 100)
  /\ extractAmountSats "lnbc11pxxxxxx" = Ok (Some 100000000)
  /\ extractAmountSats "lnbc1pxxxxxx" = Ok None.
Proof.
  split; [| split; [| repeat split; reflexivity]].
  - intros bolt11 net ds m data Hnet Hds Hdata E Hle.
    rewrite (extractAmountSats_formula bolt11 net ds m data Hnet Hds Hdata E).
    rewrite Number_of_BigInt_exact; [reflexivity |].
    pose proof (exact_sats_nonneg ds m Hds). lia.
  - exact extractAmountSats_any_amount.
Qed.

(** The theorem at the invoice [LNBC25U1PXXXXXX ], 2500 satoshis. *)
Lemma extractAmountSats_exact_below_2_53_witness :
  extractAmountSats " LNBC25U1PXXXXXX " = Ok (Some 2500).
Proof.
  apply (proj1 extractAmountSats_exact_below_2_53
           " LNBC25U1PXXXXXX " "bc" "25" (Some Micro) "pxxxxxx").
  - reflexivity.
  - reflexivity.
  - discriminate.
  - reflexivity.
  - vm_compute. discriminate.
Defined.

(** C2 as stated fails above 2^53: the amount of this invoice is
    9007199254740993 satoshis, and the function returns 9007199254740992,
    the nearest [number]. *)
Lemma extractAmountSats_rounds_above_2_53 :
  let bolt11 := "lnbc90071992547409930n1pxxxxxx" in
  toLowerCase (trim bolt11)
    = invoice_text "bc" "90071992547409930" (Some Nano) "pxxxxxx"
  /\ exact_sats "90071992547409930" (Some Nano) = 9007199254740993
  /\ extractAmountSats bolt11 = Ok (Some 9007199254740992)
  /\ extractAmountSats bolt11
     <> Ok (Some (exact_sats "90071992547409930" (Some Nano))).
Proof. repeat split; try reflexivity. vm_compute. discriminate. Qed.

End Bolt11Facts.

(* ================================================================== *)
(** * budget.ts: limits and rolling windows *)
(* ================================================================== *)

Section BudgetFacts.
Import Budget.

Lemma fold_left_sum (ps : list payment) (a : Z) :
  fold_left (fun sum p => sum + amount p) ps a = a + sum_amounts ps.
Proof.
  revert a. induction ps as [| p ps IH]; intro a; simpl.
  - unfold sum_amounts. simpl. lia.
  - rewrite IH. unfold sum_amounts. simpl. lia.
Qed.

Lemma spent_since_trailing (window now : Z) (ps : list payment) :
  spent_since (now - window) ps = trailing_sum window now ps.
Proof.
  unfold spent_since, trailing_sum, trailing. rewrite fold_left_sum.
  rewrite (filter_ext (fun p => timestamp p >=? now - window)
                      (fun p => now - window <=? timestamp p)).
  - lia.
  - intro p. now rewrite Z.geb_leb.
Qed.

(** [_prune] drops a prefix of entries older than the cutoff. *)
Lemma shift_while_older_split (cutoff : Z) (ps : list payment) :
  exists dropped,
    ps = (dropped ++ shift_while_older cutoff ps)%list
    /\ Forall (fun p => timestamp p < cutoff) dropped.
Proof.
  induction ps as [| p ps IH]; simpl.
  - exists []. now split.
  - destruct (Z.ltb_spec (timestamp p) cutoff) as [Hlt | Hge].
    + destruct IH as (dropped & E & Hd). exists (p :: dropped). split.
      * simpl. now rewrite <- E.
      * now constructor.
    + exists []. now split.
Qed.

Lemma trailing_app (window now : Z) (ps qs : list payment) :
  trailing window now (ps ++ qs)
  = (trailing window now ps ++ trailing window now qs)%list.
Proof. apply filter_app. Qed.

Lemma trailing_old (window now cutoff : Z) (dropped : list payment) :
  cutoff <= now - window ->
  Forall (fun p => timestamp p < cutoff) dropped ->
  trailing window now dropped = [].
Proof.
  intros Hc Hd. induction Hd as [| p l Hp _ IH]; simpl; [reflexivity |].
  destruct (Z.leb_spec (now - window) (timestamp p)); [lia | exact IH].
Qed.

(** Pruning does not change what a window of at most 24 hours sums. *)
Lemma trailing_prune (window now : Z) (ps : list payment) :
  window <= DAY ->
  trailing window now (shift_while_older (now - 86400000) ps)
  = trailing window now ps.
Proof.
  intro Hw. destruct (shift_while_older_split (now - 86400000) ps)
    as (dropped & E & Hd).
  rewrite E at 2. rewrite trailing_app.
  rewrite (trailing_old window now (now - 86400000) dropped); [reflexivity | | assumption].
  unfold DAY in Hw. lia.
Qed.

Lemma spentLastHour_value (b : BudgetController) (now : Z) :
  fst (spentLastHour b now) = trailing_sum HOUR now (_payments b).
Proof.
  unfold spentLastHour. simpl. change 3600000 with HOUR.
  rewrite spent_since_trailing. unfold trailing_sum.
  now rewrite trailing_prune by (unfold HOUR, DAY; lia).
Qed.

Lemma spentLastDay_value (b : BudgetController) (now : Z) :
  fst (spentLastDay b now) = trailing_sum DAY now (_payments b).
Proof.
  unfold spentLastDay. simpl. change 86400000 with DAY at 1.
  rewrite spent_since_trailing. unfold trailing_sum.
  now rewrite trailing_prune by (unfold DAY; lia).
Qed.

(** The verdict of [check], limit by limit, in terms of the payments held
    before the call. *)
Lemma check_verdict (b : BudgetController) (now amountSats : Z)
  (domain : option string) :
  let hour := trailing_sum HOUR now (_payments b) in
  let day := trailing_sum DAY now (_payments b) in
  fst (check b now amountSats domain) =
    match domain_rejected b domain with
    | Some d => Throw (DomainNotAllowedError d)
    | None =>
        if amountSats >? maxSatsPerRequest b then
          Throw (BudgetExceededError "per_request" (maxSatsPerRequest b) 0 amountSats)
        else if hour + amountSats >? maxSatsPerHour b then
          Throw (BudgetExceededError "per_hour" (maxSatsPerHour b) hour amountSats)
        else if day + amountSats >? maxSatsPerDay b then
          Throw (BudgetExceededError "per_day" (maxSatsPerDay b) day amountSats)
        else Ok tt
    end.
Proof.
  intros hour day.
  assert (Eh : spent_since (now - 3600000)
                 (shift_while_older (now - 86400000) (_payments b)) = hour).
  { change 3600000 with HOUR. rewrite spent_since_trailing. unfold trailing_sum.
    now rewrite trailing_prune by (unfold HOUR, DAY; lia). }
  assert (Ed : spent_since (now - 86400000)
                 (shift_while_older (now - 86400000) (_payments b)) = day).
  { change (now - 86400000) with (now - DAY) at 1.
    rewrite spent_since_trailing. unfold trailing_sum.
    now rewrite trailing_prune by (unfold DAY; lia). }
  unfold check.
  destruct (domain_rejected b domain); [reflexivity |].
  destruct (amountSats >? maxSatsPerRequest b); [reflexivity |].
  cbn [_prune with_payments _payments maxSatsPerHour maxSatsPerDay].
  rewrite Eh, Ed.
  destruct (hour + amountSats >? maxSatsPerHour b); [reflexivity |].
  destruct (day + amountSats >? maxSatsPerDay b); reflexivity.
Qed.

(** The controller [check] leaves behind. *)
Lemma check_state (b : BudgetController) (now amountSats : Z)
  (domain : option string) :
  snd (check b now amountSats domain) = b
  \/ snd (check b now amountSats domain) = _prune b now.
Proof.
  unfold check. destruct (domain_rejected b domain); [now left |].
  destruct (amountSats >? maxSatsPerRequest b); [now left |].
  cbv zeta.
  destruct (_ >? maxSatsPerHour _); [now right |].
  destruct (_ >? maxSatsPerDay _); now right.
Qed.

Lemma prune_split (b : BudgetController) (now : Z) :
  exists dropped,
    _payments b = (dropped ++ _payments (_prune b now))%list
    /\ Forall (fun p => timestamp p < now - DAY) dropped.
Proof. exact (shift_while_older_split (now - 86400000) (_payments b)). Qed.

Lemma check_keeps_limits (b : BudgetController) (now amountSats : Z)
  (domain : option string) :
  let b' := snd (check b now amountSats domain) in
  maxSatsPerRequest b' = maxSatsPerRequest b
  /\ maxSatsPerHour b' = maxSatsPerHour b
  /\ maxSatsPerDay b' = maxSatsPerDay b
  /\ allowedDomains b' = allowedDomains b.
Proof.
  cbv zeta. destruct (check_state b now amountSats domain) as [-> | ->];
    repeat split; reflexivity.
Qed.

Lemma check_split (b : BudgetController) (now amountSats : Z)
  (domain : option string) :
  exists dropped,
    _payments b = (dropped ++ _payments (snd (check b now amountSats domain)))%list
    /\ Forall (fun p => timestamp p < now - DAY) dropped.
Proof.
  destruct (check_state b now amountSats domain) as [-> | ->].
  - exists []. now split.
  - apply prune_split.
Qed.

(** C3, as the code has it.  The limits are tested in the order
    allow-list, per-request, per-hour, per-day and the first violated one
    decides the error.  A call never records a payment and never touches
    the limits; a call rejected by the allow-list or the per-request limit
    leaves the controller as it was; any other call may only drop leading
    entries older than 24 hours, which changes neither [spentLastHour] nor
    [spentLastDay]. *)
Theorem check_order_and_frame (b : BudgetController) (now amountSats : Z)
  (domain : option string) :
  let verdict := fst (check b now amountSats domain) in
  let b' := snd (check b now amountSats domain) in
  let hour := trailing_sum HOUR now (_payments b) in
  let day := trailing_sum DAY now (_payments b) in
  (forall d, domain_rejected b domain = Some d ->
             verdict = Throw (DomainNotAllowedError d) /\ b' = b)
  /\ (domain_rejected b domain = None ->
       amountSats > maxSatsPerRequest b ->
       verdict = Throw (BudgetExceededError "per_request"
                          (maxSatsPerRequest b) 0 amountSats)
       /\ b' = b)
  /\ (domain_rejected b domain = None ->
       amountSats <= maxSatsPerRequest b ->
       hour + amountSats > maxSatsPerHour b ->
       verdict = Throw (BudgetExceededError "per_hour"
                          (maxSatsPerHour b) hour amountSats))
  /\ (domain_rejected b domain = None ->
       amountSats <= maxSatsPerRequest b ->
       hour + amountSats <= maxSatsPerHour b ->
       day + amountSats > maxSatsPerDay b ->
       verdict = Throw (BudgetExceededError "per_day"
                          (maxSatsPerDay b) day amountSats))
  /\ (domain_rejected b domain = None ->
       amountSats <= maxSatsPerRequest b ->
       hour + amountSats <= maxSatsPerHour b ->
       day + amountSats <= maxSatsPerDay b ->
       verdict = Ok tt)
  /\ (maxSatsPerRequest b' = maxSatsPerRequest b
       /\ maxSatsPerHour b' = maxSatsPerHour b
       /\ maxSatsPerDay b' = maxSatsPerDay b
       /\ allowedDomains b' = allowedDomains b)
  /\ (exists dropped,
         _payments b = (dropped ++ _payments b')%list
         /\ Forall (fun p => timestamp p < now - DAY) dropped)
  /\ fst (spentLastHour b' now) = fst (spentLastHour b now)
  /\ fst (spentLastDay b' now) = fst (spentLastDay b now).
Proof.
  intros verdict b' hour day.
  pose proof (check_verdict b now amountSats domain) as V.
  cbv zeta in V. fold verdict hour day in V.
  assert (Hb : domain_rejected b domain <> None
               \/ amountSats > maxSatsPerRequest b -> b' = b).
  { unfold b', check. destruct (domain_rejected b domain); [reflexivity |].
    intros [H | H]; [congruence |].
    destruct (Z.gtb_spec amountSats (maxSatsPerRequest b)); [reflexivity | lia]. }
  repeat apply conj.
  - intros d Hd. rewrite Hd in V. split; [exact V |].
    apply Hb. left. congruence.
  - intros Hd Hr. rewrite Hd in V.
    destruct (Z.gtb_spec amountSats (maxSatsPerRequest b)); [| lia].
    split; [exact V | apply Hb; now right].
  - intros Hd Hr Hh. rewrite Hd in V.
    destruct (Z.gtb_spec amountSats (maxSatsPerRequest b)); [lia |].
    destruct (Z.gtb_spec (hour + amountSats) (maxSatsPerHour b)); [exact V | lia].
  - intros Hd Hr Hh Hy. rewrite Hd in V.
    destruct (Z.gtb_spec amountSats (maxSatsPerRequest b)); [lia |].
    destruct (Z.gtb_spec (hour + amountSats) (maxSatsPerHour b)); [lia |].
    destruct (Z.gtb_spec (day + amountSats) (maxSatsPerDay b)); [exact V | lia].
  - intros Hd Hr Hh Hy. rewrite Hd in V.
    destruct (Z.gtb_spec amountSats (maxSatsPerRequest b)); [lia |].
    destruct (Z.gtb_spec (hour + amountSats) (maxSatsPerHour b)); [lia |].
    destruct (Z.gtb_spec (day + amountSats) (maxSatsPerDay b)); [lia | exact V].
  - apply (check_keeps_limits b now amountSats domain).
  - apply (check_keeps_limits b now amountSats domain).
  - apply (check_keeps_limits b now amountSats domain).
  - apply (check_keeps_limits b now amountSats domain).
  - apply check_split.
  - rewrite !spentLastHour_value. unfold b'.
    destruct (check_state b now amountSats domain) as [-> | ->]; [reflexivity |].
    unfold trailing_sum, _prune. cbn [_payments with_payments].
    now rewrite trailing_prune by (unfold HOUR, DAY; lia).
  - rewrite !spentLastDay_value. unfold b'.
    destruct (check_state b now amountSats domain) as [-> | ->]; [reflexivity |].
    unfold trailing_sum, _prune. cbn [_payments with_payments].
    now rewrite trailing_prune by (unfold DAY; lia).
Qed.

(** The theorem at a controller with the default limits and one payment of
    9500 made half an hour ago: a request of 600 fails on the hourly
    limit. *)
Lemma check_order_and_frame_witness :
  let b := recordPayment (constructor no_options) 1000 9500 in
  fst (check b 1801000 600 (Some "api.example.com"))
  = Throw (BudgetExceededError "per_hour" 10000 9500 600).
Proof.
  intro b.
  apply (proj1 (proj2 (proj2
           (check_order_and_frame b 1801000 600 (Some "api.example.com"))))).
  - reflexivity.
  - vm_compute. discriminate.
  - vm_compute. reflexivity.
Defined.

(** C3 as stated fails: a check made more than 24 hours after a payment
    removes that payment from the controller, whether it passes (first
    call) or throws (second call). *)
Lemma check_drops_old_payments :
  let b := recordPayment (constructor no_options) 0 5 in
  _payments b = [{| timestamp := 0; amount := 5 |}]
  /\ check b 86400001 1 None = (Ok tt, with_payments b [])
  /\ check b 86400001 1000 (Some "api.example.com")
     = (Ok tt, with_payments b [])
  /\ (let strict :=
        recordPayment
          (constructor {| opt_maxSatsPerRequest := Some 20000;
                          opt_maxSatsPerHour := None;
                          opt_maxSatsPerDay := None;
                          opt_allowedDomains := None |}) 0 5 in
      check strict 86400001 20000 None
      = (Throw (BudgetExceededError "per_hour" 10000 0 20000),
         with_payments strict []))
  /\ _payments (snd (check b 86400001 1 None)) <> _payments b.
Proof. repeat split; try reflexivity. vm_compute. discriminate. Qed.

(** ** Histories *)

Lemma step_split (b : BudgetController) (now : Z) (c : call) :
  exists dropped,
    (_payments b ++ recorded [(now, c)])%list
    = (dropped ++ _payments (step b now c))%list
    /\ Forall (fun p => timestamp p < now - DAY) dropped.
Proof.
  destruct c as [a d | a | |]; simpl.
  - destruct (check_split b now a d) as (dropped & E & Hd).
    exists dropped. split; [now rewrite app_nil_r | assumption].
  - exists []. now split.
  - destruct (prune_split b now) as (dropped & E & Hd).
    exists dropped. split; [now rewrite app_nil_r | assumption].
  - destruct (prune_split b now) as (dropped & E & Hd).
    exists dropped. split; [now rewrite app_nil_r | assumption].
Qed.

Lemma recorded_cons (c : Z * call) (calls : list (Z * call)) :
  recorded (c :: calls) = (recorded [c] ++ recorded calls)%list.
Proof. destruct c as [now [a d | a | |]]; reflexivity. Qed.

Lemma recorded_app (pre post : list (Z * call)) :
  recorded (pre ++ post) = (recorded pre ++ recorded post)%list.
Proof.
  induction pre as [| c pre IH]; [reflexivity |].
  rewrite <- app_comm_cons, recorded_cons, IH, (recorded_cons c pre).
  now rewrite app_assoc.
Qed.

(** What a controller holds is what was recorded, without a prefix of
    entries that are older than 24 hours at any later time. *)
Lemma run_split (t : Z) (calls : list (Z * call)) :
  all_before t calls ->
  forall (b : BudgetController) (before : list payment),
    (exists dropped,
        before = (dropped ++ _payments b)%list
        /\ Forall (fun p => timestamp p < t - DAY) dropped) ->
    exists dropped,
      (before ++ recorded calls)%list = (dropped ++ _payments (run b calls))%list
      /\ Forall (fun p => timestamp p < t - DAY) dropped.
Proof.
  unfold all_before. induction 1 as [| [now c] calls Hnow _ IH];
    intros b before (dropped & E & Hd).
  - exists dropped. simpl. now rewrite app_nil_r.
  - simpl in Hnow. cbn [run]. rewrite recorded_cons, app_assoc.
    apply IH. destruct (step_split b now c) as (dropped' & E' & Hd').
    exists (dropped ++ dropped')%list. split.
    + rewrite E, <- !app_assoc. now rewrite E'.
    + apply Forall_app. split; [assumption |].
      eapply Forall_impl; [| exact Hd']. simpl. intros p Hp. lia.
Qed.

Lemma recorded_before (t : Z) (calls : list (Z * call)) :
  all_before t calls -> Forall (fun p => timestamp p <= t) (recorded calls).
Proof.
  unfold all_before. induction 1 as [| [now c] calls Hnow _ IH]; [constructor |].
  destruct c; simpl; try assumption. constructor; assumption.
Qed.

Lemma trailing_sum_closed (window t : Z) (ps : list payment) :
  Forall (fun p => timestamp p <= t) ps ->
  trailing_sum window t ps = sum_closed (t - window) t ps.
Proof.
  unfold trailing_sum, trailing, sum_closed. intro H. f_equal.
  induction H as [| p ps Hp _ IH]; simpl; [reflexivity |].
  rewrite IH. destruct (Z.leb_spec (timestamp p) t); [| lia].
  now rewrite andb_true_r.
Qed.

Lemma run_trailing (options : BudgetOptions) (window t : Z)
  (calls : list (Z * call)) :
  window <= DAY -> all_before t calls ->
  trailing_sum window t (_payments (run (constructor options) calls))
  = sum_closed (t - window) t (recorded calls).
Proof.
  intros Hw Hcalls.
  destruct (run_split t calls Hcalls (constructor options) [])
    as (dropped & E & Hd).
  { exists []. now split. }
  simpl in E. rewrite <- (trailing_sum_closed window t (recorded calls))
    by now apply recorded_before.
  rewrite E. unfold trailing_sum. rewrite trailing_app.
  rewrite (trailing_old window t (t - DAY) dropped); [reflexivity | lia | assumption].
Qed.

Lemma sum_closed_app (lo hi : Z) (ps qs : list payment) :
  sum_closed lo hi (ps ++ qs) = sum_closed lo hi ps + sum_closed lo hi qs.
Proof.
  unfold sum_closed. rewrite filter_app. unfold sum_amounts.
  rewrite fold_right_app.
  induction (filter _ ps) as [| p l IH]; simpl; [lia | rewrite IH; lia].
Qed.

Lemma sum_closed_single (lo hi at_ a : Z) :
  at_ <= hi ->
  sum_closed lo hi [{| timestamp := at_; amount := a |}]
  = if lo <=? at_ then a else 0.
Proof.
  intro H. unfold sum_closed. cbn [filter timestamp].
  destruct (Z.leb_spec at_ hi); [| lia]. rewrite andb_true_r.
  destruct (lo <=? at_); unfold sum_amounts; simpl; lia.
Qed.

(** C4, as the code has it.  After any history of calls, none made later
    than [t], [spentLastHour()] at time [t] is the sum of the recorded
    amounts whose timestamp lies in the closed interval
    [[t - 3,600,000, t]], and [spentLastDay()] that over
    [[t - 86,400,000, t]].  A payment recorded at [at_], compared with the
    same history without it: it counts in [spentLastHour()] exactly while
    [t - 3,600,000 <= at_], and in [spentLastDay()] exactly while
    [t - 86,400,000 <= at_]. *)
Theorem spent_windows_are_closed (options : BudgetOptions) (t : Z) :
  (forall calls,
      all_before t calls ->
      let b := run (constructor options) calls in
      fst (spentLastHour b t) = sum_closed (t - 3600000) t (recorded calls)
      /\ fst (spentLastDay b t) = sum_closed (t - 86400000) t (recorded calls))
  /\ (forall pre post at_ a,
         all_before t (pre ++ (at_, CallRecordPayment a) :: post) ->
         let b :=
           run (constructor options) (pre ++ (at_, CallRecordPayment a) :: post) in
         let b0 := run (constructor options) (pre ++ post) in
         fst (spentLastHour b t)
         = fst (spentLastHour b0 t) + (if t - 3600000 <=? at_ then a else 0)
         /\ fst (spentLastDay b t)
            = fst (spentLastDay b0 t) + (if t - 86400000 <=? at_ then a else 0)).
Proof.
  assert (G : forall calls,
      all_before t calls ->
      let b := run (constructor options) calls in
      fst (spentLastHour b t) = sum_closed (t - 3600000) t (recorded calls)
      /\ fst (spentLastDay b t) = sum_closed (t - 86400000) t (recorded calls)).
  { intros calls Hcalls b. unfold b.
    rewrite spentLastHour_value, spentLastDay_value.
    split; apply run_trailing; try assumption; unfold HOUR, DAY; lia. }
  split; [exact G |].
  intros pre post at_ a Hall b b0.
  assert (Hall0 : all_before t (pre ++ post)).
  { unfold all_before in *. apply Forall_app in Hall as [H1 H2].
    apply Forall_app. split; [assumption | now inversion H2]. }
  assert (Hat : at_ <= t).
  { unfold all_before in Hall. apply Forall_app in Hall as [_ H2].
    now inversion H2. }
  destruct (G _ Hall) as [Eh Ed]. destruct (G _ Hall0) as [Eh0 Ed0].
  fold b in Eh, Ed. fold b0 in Eh0, Ed0.
  rewrite Eh, Ed, Eh0, Ed0.
  rewrite !recorded_app, (recorded_cons _ post), !sum_closed_app.
  cbn [recorded]. rewrite !(sum_closed_single _ t at_ a Hat). lia.
Qed.

(** The theorem on the history of the test suite: 500 at time 0, 300 two
    hours later. *)
Lemma spent_windows_are_closed_witness :
  let calls := [(0, CallRecordPayment 500); (7200000, CallRecordPayment 300)] in
  let b := run (constructor no_options) calls in
  fst (spentLastHour b 7200000) = 300 /\ fst (spentLastDay b 7200000) = 800.
Proof.
  intros calls b.
  apply (proj1 (spent_windows_are_closed no_options 7200000) calls).
  repeat constructor; simpl; lia.
Defined.

(** C4 as stated fails at the lower end of the window: a payment made
    exactly one hour ago is still summed by [spentLastHour()], while the
    half-open interval leaves it out. *)
Lemma spentLastHour_includes_lower_bound :
  let calls := [(0, CallRecordPayment 5)] in
  let b := run (constructor no_options) calls in
  fst (spentLastHour b 3600000) = 5
  /\ sum_half_open (3600000 - 3600000) 3600000 (recorded calls) = 0
  /\ fst (spentLastHour b 3600000)
     <> sum_half_open (3600000 - 3600000) 3600000 (recorded calls).
Proof. repeat split; try reflexivity. vm_compute. discriminate. Qed.

(** ** The allow-list and the comparisons *)

(** C8.  With no domain argument, or the empty string, the allow-list is
    not consulted, whatever it holds: no [DomainNotAllowedError] is
    raised, and the verdict is that of the three spending limits. *)
Theorem check_without_domain_skips_allow_list (b : BudgetController)
  (now amountSats : Z) (domain : option string) :
  domain = None \/ domain = Some "" ->
  let verdict := fst (check b now amountSats domain) in
  let hour := trailing_sum HOUR now (_payments b) in
  let day := trailing_sum DAY now (_payments b) in
  domain_rejected b domain = None
  /\ (forall d, verdict <> Throw (DomainNotAllowedError d))
  /\ (amountSats > maxSatsPerRequest b ->
       verdict = Throw (BudgetExceededError "per_request"
                          (maxSatsPerRequest b) 0 amountSats))
  /\ (amountSats <= maxSatsPerRequest b ->
       hour + amountSats > maxSatsPerHour b ->
       verdict = Throw (BudgetExceededError "per_hour"
                          (maxSatsPerHour b) hour amountSats))
  /\ (amountSats <= maxSatsPerRequest b ->
       hour + amountSats <= maxSatsPerHour b ->
       day + amountSats > maxSatsPerDay b ->
       verdict = Throw (BudgetExceededError "per_day"
                          (maxSatsPerDay b) day amountSats))
  /\ (amountSats <= maxSatsPerRequest b ->
       hour + amountSats <= maxSatsPerHour b ->
       day + amountSats <= maxSatsPerDay b ->
       verdict = Ok tt).
Proof.
  intros Hdom verdict hour day.
  assert (Hd : domain_rejected b domain = None).
  { unfold domain_rejected.
    destruct Hdom as [-> | ->]; destruct (allowedDomains b); reflexivity. }
  pose proof (check_verdict b now amountSats domain) as V.
  cbv zeta in V. fold verdict hour day in V. rewrite Hd in V.
  split; [exact Hd |].
  destruct (Z.gtb_spec amountSats (maxSatsPerRequest b));
    [| destruct (Z.gtb_spec (hour + amountSats) (maxSatsPerHour b));
       [| destruct (Z.gtb_spec (day + amountSats) (maxSatsPerDay b))]];
    rewrite V;
    (split; [intro d; discriminate |]);
    (split; [intro; first [reflexivity | lia] |]);
    (split; [intros; first [reflexivity | lia] |]);
    (split; intros; first [reflexivity | lia]).
Qed.

(** The theorem at a controller that only allows [api.example.com],
    called with the empty domain and an amount above the per-request
    limit. *)
Lemma check_without_domain_skips_allow_list_witness :
  let b := constructor {| opt_maxSatsPerRequest := None;
                          opt_maxSatsPerHour := None;
                          opt_maxSatsPerDay := None;
                          opt_allowedDomains := Some ["api.example.com"] |} in
  domain_rejected b (Some "") = None
  /\ fst (check b 0 1500 (Some ""))
     = Throw (BudgetExceededError "per_request" 1000 0 1500).
Proof.
  intro b.
  pose proof (check_without_domain_skips_allow_list b 0 1500 (Some "")
                (or_intror eq_refl)) as (H1 & _ & H3 & _).
  split; [exact H1 |]. apply H3. vm_compute. reflexivity.
Defined.

(** C9.  The three comparisons are strict.  A payment that is within the
    per-request ceiling, and brings the hourly and the daily sum to at
    most their ceilings, equality included, passes; and every
    [BudgetExceededError] reports a ceiling that is strictly exceeded. *)
Theorem check_limits_are_strict (b : BudgetController) (now amountSats : Z)
  (domain : option string) :
  let verdict := fst (check b now amountSats domain) in
  let hour := trailing_sum HOUR now (_payments b) in
  let day := trailing_sum DAY now (_payments b) in
  (domain_rejected b domain = None ->
   amountSats <= maxSatsPerRequest b ->
   hour + amountSats <= maxSatsPerHour b ->
   day + amountSats <= maxSatsPerDay b ->
   verdict = Ok tt)
  /\ (forall limitType limit current requested,
         verdict = Throw (BudgetExceededError limitType limit current requested) ->
         requested = amountSats
         /\ current + requested > limit
         /\ ((limitType = "per_request" /\ limit = maxSatsPerRequest b /\ current = 0)
             \/ (limitType = "per_hour" /\ limit = maxSatsPerHour b /\ current = hour)
             \/ (limitType = "per_day" /\ limit = maxSatsPerDay b /\ current = day))).
Proof.
  intros verdict hour day.
  pose proof (check_verdict b now amountSats domain) as V.
  cbv zeta in V. fold verdict hour day in V.
  split.
  - intros Hd Hr Hh Hy. rewrite Hd in V.
    destruct (Z.gtb_spec amountSats (maxSatsPerRequest b)); [lia |].
    destruct (Z.gtb_spec (hour + amountSats) (maxSatsPerHour b)); [lia |].
    destruct (Z.gtb_spec (day + amountSats) (maxSatsPerDay b)); [lia | exact V].
  - intros limitType limit current requested E. rewrite E in V.
    destruct (domain_rejected b domain); [discriminate |].
    destruct (Z.gtb_spec amountSats (maxSatsPerRequest b)).
    { injection V as -> -> -> ->. repeat split; try lia. now left. }
    destruct (Z.gtb_spec (hour + amountSats) (maxSatsPerHour b)).
    { injection V as -> -> -> ->. repeat split; try lia. right; now left. }
    destruct (Z.gtb_spec (day + amountSats) (maxSatsPerDay b)).
    { injection V as -> -> -> ->. repeat split; try lia. right; now right. }
    discriminate.
Qed.

(** The theorem where all three ceilings are met exactly: limits 1000,
    1500 and 2000, with 500 spent two hours ago and 500 just now. *)
Lemma check_limits_are_strict_witness :
  let b0 := constructor {| opt_maxSatsPerRequest := Some 1000;
                           opt_maxSatsPerHour := Some 1500;
                           opt_maxSatsPerDay := Some 2000;
                           opt_allowedDomains := None |} in
  let b := recordPayment (recordPayment b0 0 500) 7200000 500 in
  trailing_sum HOUR 7200000 (_payments b) + 1000 = maxSatsPerHour b
  /\ trailing_sum DAY 7200000 (_payments b) + 1000 = maxSatsPerDay b
  /\ fst (check b 7200000 1000 (Some "api.example.com")) = Ok tt.
Proof.
  intros b0 b. split; [reflexivity |]. split; [reflexivity |].
  apply (proj1 (check_limits_are_strict b 7200000 1000 (Some "api.example.com"))).
  - reflexivity.
  - vm_compute. discriminate.
  - vm_compute. discriminate.
  - vm_compute. discriminate.
Defined.

End BudgetFacts.

(* ================================================================== *)
(** * credential-cache.ts: keys, capacity and recency *)
(* ================================================================== *)

Section CacheFacts.
Import JS Cache.

(** ** The map *)

Lemma Map_get_delete_same (m : Map) (key : string) :
  Map_get (Map_delete m key) key = None.
Proof.
  induction m as [| [k v] m IH]; simpl; [reflexivity |].
  destruct (String.eqb_spec k key); simpl; [exact IH |].
  destruct (String.eqb_spec k key); [contradiction | exact IH].
Qed.

Lemma Map_set_absent (m : Map) (key : string) (v : L402Credential) :
  Map_get m key = None -> Map_set m key v = (m ++ [(key, v)])%list.
Proof.
  induction m as [| [k v'] m IH]; simpl; [reflexivity |].
  destruct (String.eqb_spec k key); [discriminate |].
  intro H. now rewrite IH.
Qed.

Lemma Map_get_app (m1 m2 : Map) (k : string) :
  Map_get (m1 ++ m2)%list k
  = match Map_get m1 k with Some v => Some v | None => Map_get m2 k end.
Proof.
  induction m1 as [| [k' v] m1 IH]; simpl; [reflexivity |].
  destruct (String.eqb k' k); [reflexivity | exact IH].
Qed.

Lemma Map_get_In (m : Map) (k : string) :
  Map_get m k = None <-> ~ In k (keys m).
Proof.
  induction m as [| [k' v] m IH]; simpl; [tauto |].
  destruct (String.eqb_spec k' k); [split; [discriminate | tauto] |].
  rewrite IH. tauto.
Qed.

(** What [put] holds before the eviction loop: the new entry is last. *)
Lemma put_inserts_last (m : Map) (key : string) (v : L402Credential) :
  Map_set (Map_delete m key) key v = (Map_delete m key ++ [(key, v)])%list.
Proof. apply Map_set_absent, Map_get_delete_same. Qed.

(** ** The eviction loop *)

Lemma Map_size_cons (e : string * L402Credential) (m : Map) :
  Map_size (e :: m) = Map_size m + 1.
Proof. unfold Map_size. cbn [List.length]. lia. Qed.

Lemma Map_size_app (m1 m2 : Map) :
  Map_size (m1 ++ m2)%list = Map_size m1 + Map_size m2.
Proof. unfold Map_size. rewrite length_app. lia. Qed.

Lemma Map_size_nonneg (m : Map) : 0 <= Map_size m.
Proof. unfold Map_size. lia. Qed.

Lemma evict_unfold (maxSize : Z) (m : Map) :
  evict maxSize m =
    if Map_size m >? maxSize then
      match m with [] => None | _ :: m' => evict maxSize m' end
    else Some m.
Proof. destruct m; reflexivity. Qed.

(** The loop leaves a suffix that fits; it ends when the capacity is not
    negative, and only then. *)
Lemma evict_suffix (maxSize : Z) (m m' : Map) :
  evict maxSize m = Some m' ->
  exists evicted, m = (evicted ++ m')%list /\ Map_size m' <= maxSize
    /\ (evicted <> [] -> Map_size m' = maxSize).
Proof.
  revert m'. induction m as [| e m IH]; intro m'; rewrite evict_unfold.
  - destruct (Z.gtb_spec (Map_size []) maxSize); [discriminate |].
    intros [= <-]. exists []. repeat split; [assumption | congruence].
  - destruct (Z.gtb_spec (Map_size (e :: m)) maxSize) as [Hgt | Hle].
    + intro H. destruct (IH m' H) as (evicted & E & Hs & Hfull).
      exists (e :: evicted). repeat split; [now rewrite E | assumption |].
      intros _. destruct evicted as [| e' evicted'].
      * simpl in E. subst m'. rewrite Map_size_cons in Hgt. lia.
      * apply Hfull. discriminate.
    + intros [= <-]. exists []. repeat split; [assumption | congruence].
Qed.

Lemma evict_terminates (maxSize : Z) (m : Map) :
  0 <= maxSize -> exists m', evict maxSize m = Some m'.
Proof.
  intro H. induction m as [| e m IH]; rewrite evict_unfold.
  - destruct (Z.gtb_spec (Map_size []) maxSize) as [Hgt | Hle]; [| eauto].
    unfold Map_size in Hgt. simpl in Hgt. lia.
  - destruct (Map_size (e :: m) >? maxSize); eauto.
Qed.

Lemma evict_negative (maxSize : Z) (m : Map) :
  maxSize < 0 -> evict maxSize m = None.
Proof.
  intro H. induction m as [| e m IH]; rewrite evict_unfold.
  - destruct (Z.gtb_spec (Map_size []) maxSize) as [Hgt | Hle]; [reflexivity |].
    unfold Map_size in Hle. simpl in Hle. lia.
  - pose proof (Map_size_nonneg (e :: m)).
    destruct (Z.gtb_spec (Map_size (e :: m)) maxSize); [exact IH | lia].
Qed.

Lemma evict_fits (maxSize : Z) (m : Map) :
  Map_size m <= maxSize -> evict maxSize m = Some m.
Proof.
  intro H. rewrite evict_unfold.
  destruct (Z.gtb_spec (Map_size m) maxSize); [lia | reflexivity].
Qed.

(** With room for one entry at least, the last entry stays. *)
Lemma evict_keeps_last (maxSize : Z) (m m' : Map) (e : string * L402Credential) :
  1 <= maxSize ->
  evict maxSize (m ++ [e])%list = Some m' ->
  exists evicted kept,
    m = (evicted ++ kept)%list /\ m' = (kept ++ [e])%list.
Proof.
  intros Hmax. revert m'. induction m as [| x m IH]; intro m'.
  - cbn [app]. rewrite evict_fits by (unfold Map_size; simpl; lia).
    intros [= <-]. now exists [], [].
  - rewrite <- app_comm_cons, evict_unfold.
    destruct (Map_size (x :: m ++ [e])%list >? maxSize).
    + intro H. destruct (IH m' H) as (evicted & kept & E & E').
      exists (x :: evicted), kept. split; [now rewrite E | assumption].
    + intros [= <-]. now exists [], (x :: m).
Qed.

(** ** Capacity *)

Lemma put_unfold (c : CredentialCache) (now : Z)
  (d p mac pre : string) (e : option (option Z)) :
  let key := cacheKey d p in
  let cred :=
    {| macaroon := mac; preimage := pre; createdAt := now;
       expiresAt :=
         match e with
         | Some e' => e'
         | None =>
             match _defaultTtlMs c with
             | Some ttl => Some (now + ttl)
             | None => None
             end
         end |} in
  put c now d p mac pre e =
    match evict (_maxSize c) (Map_delete (_cache c) key ++ [(key, cred)])%list with
    | Some m' => Some (cred, with_cache c m')
    | None => None
    end.
Proof. cbv zeta. unfold put. now rewrite put_inserts_last. Qed.

(** A negative capacity: the eviction loop of [put] never ends. *)
Lemma put_negative_capacity (c : CredentialCache) (now : Z)
  (d p mac pre : string) (e : option (option Z)) :
  _maxSize c < 0 -> put c now d p mac pre e = None.
Proof. intro H. rewrite put_unfold. now rewrite evict_negative. Qed.

(** C10.  Whenever [put] returns, the cache holds at most [maxSize]
    entries; it returns whenever [maxSize] is not negative.  With
    [maxSize = 0] the entry is inserted and evicted at once: [put] returns
    the credential, the cache is empty, and a [get] under the same key
    returns null. *)
Theorem put_respects_capacity (c : CredentialCache) (now : Z)
  (d p mac pre : string) (e : option (option Z)) :
  (forall cred c',
      put c now d p mac pre e = Some (cred, c') ->
      size c' <= _maxSize c' /\ _maxSize c' = _maxSize c)
  /\ (0 <= _maxSize c -> exists cred c', put c now d p mac pre e = Some (cred, c'))
  /\ (_maxSize c = 0 ->
      exists cred c',
        put c now d p mac pre e = Some (cred, c')
        /\ macaroon cred = mac /\ preimage cred = pre
        /\ Map_get (Map_set (Map_delete (_cache c) (cacheKey d p))
                            (cacheKey d p) cred) (cacheKey d p) = Some cred
        /\ size c' = 0
        /\ forall now', get c' now' d p = (None, c')).
Proof.
  pose proof (put_unfold c now d p mac pre e) as P. cbv zeta in P.
  repeat apply conj.
  - intros cred c' H. rewrite P in H.
    destruct (evict _ _) as [m' |] eqn:E; [| discriminate].
    injection H as <- <-. destruct (evict_suffix _ _ _ E) as (_ & _ & Hs & _).
    split; [exact Hs | reflexivity].
  - intro H. rewrite P.
    match goal with
    | |- context [evict ?n ?m] =>
        destruct (evict_terminates n m H) as [m' ->]
    end. eauto.
  - intro H0. rewrite P.
    match goal with
    | |- context [evict ?n ?m] =>
        destruct (evict_terminates n m) as [m' E]; [lia |]
    end.
    rewrite E. destruct (evict_suffix _ _ _ E) as (_ & _ & Hs & _).
    assert (Hm : m' = []).
    { pose proof (Map_size_nonneg m'). unfold Map_size in *.
      destruct m'; [reflexivity | simpl in *; lia]. }
    subst m'. eexists; eexists. split; [reflexivity |].
    repeat split.
    rewrite put_inserts_last, Map_get_app, Map_get_delete_same. simpl.
    now rewrite String.eqb_refl.
Qed.

(** The theorem at a cache of capacity 0. *)
Lemma put_respects_capacity_witness :
  let c := constructor {| opt_maxSize := Some 0; opt_defaultTtlMs := None |} in
  exists cred c',
    put c 0 "example.com" "/api" "mac" "pre" None = Some (cred, c')
    /\ macaroon cred = "mac" /\ size c' = 0
    /\ get c' 0 "example.com" "/api" = (None, c').
Proof.
  intro c.
  destruct (proj2 (proj2
              (put_respects_capacity c 0 "example.com" "/api" "mac" "pre" None))
              eq_refl)
    as (cred & c' & H1 & H2 & _ & _ & H5 & H6).
  exists cred, c'. repeat split; [exact H1 | exact H2 | exact H5 | apply H6].
Defined.

(** ** Keys *)

Lemma cacheKey_prefix (domain path : string) :
  cacheKey domain path
  = (trim (toLowerCase domain) ++ "::" ++ "/"
       ++ join_slash (firstn 2 (segments path)))%string.
Proof.
  unfold cacheKey. destruct (Nat.leb_spec 2 (List.length (segments path))).
  - reflexivity.
  - rewrite firstn_all2 by lia. reflexivity.
Qed.

Lemma get_hit (c : CredentialCache) (now : Z) (d p : string)
  (cred : L402Credential) :
  Map_get (_cache c) (cacheKey d p) = Some cred ->
  expired cred now = false ->
  fst (get c now d p) = Some cred.
Proof. intros H E. unfold get. now rewrite H, E. Qed.

(** C7, as the code has it.  Origins that differ only in letter case and
    paths that share their first two segments derive the same key; so a
    credential stored by [put] under one path is returned by [get] under
    the other, provided the cache has room for one entry at least and the
    credential has not expired when [get] is called. *)
Theorem put_then_get_within_group (c c' : CredentialCache) (now1 now2 : Z)
  (d1 d2 p1 p2 mac pre : string) (e : option (option Z))
  (cred : L402Credential) :
  toLowerCase d1 = toLowerCase d2 ->
  same_group p1 p2 ->
  cacheKey d1 p1 = cacheKey d2 p2
  /\ (put c now1 d1 p1 mac pre e = Some (cred, c') ->
      1 <= _maxSize c ->
      expired cred now2 = false ->
      fst (get c' now2 d2 p2) = Some cred).
Proof.
  intros Hd Hp.
  assert (K : cacheKey d1 p1 = cacheKey d2 p2).
  { rewrite !cacheKey_prefix. unfold same_group in Hp. now rewrite Hd, Hp. }
  split; [exact K |].
  intros Hput Hmax Hexp.
  pose proof (put_unfold c now1 d1 p1 mac pre e) as P. cbv zeta in P.
  rewrite P in Hput. destruct (evict _ _) as [m' |] eqn:E; [| discriminate].
  injection Hput as Hcred <-.
  destruct (evict_keeps_last _ _ _ _ Hmax E) as (evicted & kept & Em & ->).
  apply get_hit; [| exact Hexp]. cbn [_cache with_cache]. rewrite <- K.
  rewrite Map_get_app.
  assert (Hk : Map_get kept (cacheKey d1 p1) = None).
  { pose proof (Map_get_delete_same (_cache c) (cacheKey d1 p1)) as Hdel.
    rewrite Em, Map_get_app in Hdel.
    destruct (Map_get evicted (cacheKey d1 p1)); [discriminate | exact Hdel]. }
  rewrite Hk. simpl. rewrite String.eqb_refl. now rewrite Hcred.
Qed.

(** The theorem on the test of the suite, with the origin in another
    case. *)
Lemma put_then_get_within_group_witness :
  let c := constructor {| opt_maxSize := None; opt_defaultTtlMs := None |} in
  exists cred c',
    put c 0 "Example.COM" "/api/v1/foo" "mac1" "pre1" None = Some (cred, c')
    /\ macaroon cred = "mac1"
    /\ fst (get c' 1000 "example.com" "/api/v1/bar") = Some cred.
Proof.
  intro c.
  destruct (put c 0 "Example.COM" "/api/v1/foo" "mac1" "pre1" None)
    as [[cred c'] |] eqn:E; [| discriminate E].
  exists cred, c'. split; [reflexivity |].
  injection E as E1 E2. split; [now rewrite <- E1 |].
  apply (proj2 (put_then_get_within_group c c' 0 1000
                  "Example.COM" "example.com" "/api/v1/foo" "/api/v1/bar"
                  "mac1" "pre1" None cred eq_refl eq_refl)).
  - now rewrite <- E1, <- E2.
  - vm_compute. discriminate.
  - now rewrite <- E1.
Defined.

(** C7 as stated fails in a cache of capacity 0, where [put] evicts what
    it has just inserted, and in any cache once the credential has expired:
    stored with the default lifetime of one hour, it is gone one hour
    later. *)
Lemma put_then_get_blocked :
  same_group "/api/v1/foo" "/api/v1/bar"
  /\ (let c := constructor {| opt_maxSize := Some 0; opt_defaultTtlMs := None |} in
      exists cred c',
        put c 0 "example.com" "/api/v1/foo" "mac1" "pre1" None = Some (cred, c')
        /\ fst (get c' 0 "example.com" "/api/v1/bar") = None
        /\ fst (get c' 0 "example.com" "/api/v1/bar") <> Some cred)
  /\ (let c := constructor {| opt_maxSize := None; opt_defaultTtlMs := None |} in
      exists cred c',
        put c 0 "example.com" "/api/v1/foo" "mac1" "pre1" None = Some (cred, c')
        /\ fst (get c' 3600000 "example.com" "/api/v1/bar") = None
        /\ fst (get c' 3600000 "example.com" "/api/v1/bar") <> Some cred).
Proof.
  split; [reflexivity |].
  split; intro c; eexists; eexists;
    (split; [reflexivity |]); (split; [reflexivity | discriminate]).
Qed.

(** ** Recency *)

Lemma last_access_snoc (key : string) (accs : list (option string))
  (a : option string) :
  last_access key (accs ++ [a])
  = if is_access a key then Some (List.length accs) else last_access key accs.
Proof.
  induction accs as [| x accs IH]; cbn [app last_access List.length].
  - reflexivity.
  - rewrite IH. destruct (is_access a key); [reflexivity |].
    reflexivity.
Qed.

Lemma last_access_bound (key : string) (accs : list (option string)) (n : nat) :
  last_access key accs = Some n -> (n < List.length accs)%nat.
Proof.
  revert n. induction accs as [| x accs IH]; intro n; cbn [last_access List.length].
  - discriminate.
  - destruct (last_access key accs) as [m |].
    + intros [= <-]. specialize (IH m eq_refl). lia.
    + destruct (is_access x key); [intros [= <-]; lia | discriminate].
Qed.

Lemma is_access_other (key k : string) : k <> key -> is_access (Some key) k = false.
Proof. intro H. simpl. destruct (String.eqb_spec key k); congruence. Qed.

Lemma accessed_before_snoc (accs : list (option string)) (a : option string)
  (k1 k2 : string) :
  is_access a k1 = false -> is_access a k2 = false ->
  accessed_before accs k1 k2 -> accessed_before (accs ++ [a]) k1 k2.
Proof.
  intros H1 H2 (n1 & n2 & E1 & E2 & Hlt). exists n1, n2.
  now rewrite !last_access_snoc, H1, H2.
Qed.

Lemma accessed_before_newest (accs : list (option string)) (key k : string) :
  k <> key -> (exists n, last_access k accs = Some n) ->
  accessed_before (accs ++ [Some key]) k key.
Proof.
  intros Hk [n E]. exists n, (List.length accs).
  rewrite !last_access_snoc, (is_access_other key k Hk). simpl.
  rewrite String.eqb_refl. repeat split; [exact E |].
  now apply last_access_bound with (key := k).
Qed.

Lemma accessed_before_irrefl (accs : list (option string)) (k : string) :
  ~ accessed_before accs k k.
Proof. intros (n1 & n2 & E1 & E2 & Hlt). rewrite E1 in E2. injection E2. lia. Qed.

Lemma recency_sorted_NoDup accs ks : recency_sorted accs ks -> NoDup ks.
Proof.
  induction ks as [| k ks IH]; simpl; [constructor |].
  intros (_ & Hall & Hs). constructor; [| now apply IH].
  intro Hin. rewrite Forall_forall in Hall.
  exact (accessed_before_irrefl accs k (Hall k Hin)).
Qed.

Lemma recency_sorted_filter accs (f : string -> bool) ks :
  recency_sorted accs ks -> recency_sorted accs (filter f ks).
Proof.
  induction ks as [| k ks IH]; simpl; [trivial |].
  intros (Hn & Hall & Hs). destruct (f k); [| now apply IH].
  simpl. repeat split; [exact Hn | | now apply IH].
  rewrite Forall_forall in Hall |- *. intros x Hx.
  apply filter_In in Hx as [Hx _]. now apply Hall.
Qed.

Lemma recency_sorted_suffix accs ks1 ks2 :
  recency_sorted accs (ks1 ++ ks2) -> recency_sorted accs ks2.
Proof.
  induction ks1 as [| k ks1 IH]; simpl; [trivial |].
  intros (_ & _ & Hs). now apply IH.
Qed.

Lemma recency_sorted_snoc_none accs ks :
  recency_sorted accs ks -> recency_sorted (accs ++ [None]) ks.
Proof.
  induction ks as [| k ks IH]; simpl; [trivial |].
  intros ((n & Hn) & Hall & Hs). repeat split; [| | now apply IH].
  - exists n. now rewrite last_access_snoc.
  - eapply Forall_impl; [| exact Hall]. intros x Hx.
    now apply accessed_before_snoc.
Qed.

(** An access to a key that is not held puts it last. *)
Lemma recency_sorted_snoc_key accs ks key :
  recency_sorted accs ks -> ~ In key ks ->
  recency_sorted (accs ++ [Some key]) (ks ++ [key]).
Proof.
  induction ks as [| k ks IH]; cbn [app recency_sorted].
  - intros _ _. repeat split; [| constructor].
    exists (List.length accs). rewrite last_access_snoc. simpl.
    now rewrite String.eqb_refl.
  - intros ((n & Hn) & Hall & Hs) Hin.
    assert (Hk : k <> key) by (intros ->; apply Hin; now left).
    assert (Hks : ~ In key ks) by (intro; apply Hin; now right).
    repeat split; [| | now apply IH].
    + exists n. now rewrite last_access_snoc, (is_access_other key k Hk).
    + apply Forall_app. split.
      * rewrite Forall_forall in Hall |- *. intros x Hx.
        apply accessed_before_snoc; [now apply is_access_other | | now apply Hall].
        apply is_access_other. intros ->. contradiction.
      * constructor; [| constructor].
        apply accessed_before_newest; [exact Hk | eauto].
Qed.

Lemma keys_delete (m : Map) (key : string) :
  keys (Map_delete m key) = filter (fun k => negb (String.eqb k key)) (keys m).
Proof.
  unfold keys, Map_delete. induction m as [| [k v] m IH]; simpl; [reflexivity |].
  destruct (String.eqb k key); simpl; now rewrite IH.
Qed.

Lemma keys_app (m1 m2 : Map) : keys (m1 ++ m2)%list = (keys m1 ++ keys m2)%list.
Proof. apply map_app. Qed.

Lemma not_in_keys_delete (m : Map) (key : string) :
  ~ In key (keys (Map_delete m key)).
Proof. apply Map_get_In, Map_get_delete_same. Qed.

Lemma Map_delete_absent (m : Map) (key : string) :
  Map_get m key = None -> Map_delete m key = m.
Proof.
  induction m as [| [k v] m IH]; simpl; [reflexivity |].
  destruct (String.eqb_spec k key); [discriminate |].
  intro H. simpl. now rewrite IH.
Qed.

(** Every call keeps the entries in the order of their last access. *)
Lemma step_recency (c c' : CredentialCache) (now : Z) (o : call)
  (accs : list (option string)) (a : option string) :
  recency_sorted accs (keys (_cache c)) ->
  step c now o = Some (a, c') ->
  recency_sorted (accs ++ [a]) (keys (_cache c')).
Proof.
  intro Hs. destruct o as [d p | d p mac pre e |]; cbn [step].
  - unfold get. destruct (Map_get (_cache c) (cacheKey d p)) as [cred |].
    + destruct (expired cred now).
      * intros [= <- <-]. cbn [_cache with_cache]. rewrite keys_delete.
        now apply recency_sorted_snoc_none, recency_sorted_filter.
      * intros [= <- <-]. cbn [_cache with_cache].
        rewrite put_inserts_last, keys_app. cbn [keys map fst].
        apply recency_sorted_snoc_key; [| apply not_in_keys_delete].
        rewrite keys_delete. now apply recency_sorted_filter.
    + intros [= <- <-]. now apply recency_sorted_snoc_none.
  - pose proof (put_unfold c now d p mac pre e) as P. cbv zeta in P. rewrite P.
    destruct (evict _ _) as [m' |] eqn:E; [| discriminate].
    intros [= <- <-]. cbn [_cache with_cache].
    destruct (evict_suffix _ _ _ E) as (evicted & Em & _).
    apply (recency_sorted_suffix _ (keys evicted)). rewrite <- keys_app, <- Em.
    rewrite keys_app. cbn [keys map fst].
    apply recency_sorted_snoc_key; [| apply not_in_keys_delete].
    rewrite keys_delete. now apply recency_sorted_filter.
  - intros [= <- <-]. exact I.
Qed.

Lemma run_recency (calls : list (Z * call)) :
  forall (c c' : CredentialCache) (before accs : list (option string)),
    recency_sorted before (keys (_cache c)) ->
    run c calls = Some (accs, c') ->
    recency_sorted (before ++ accs) (keys (_cache c')).
Proof.
  induction calls as [| [now o] calls IH]; intros c c' before accs Hs; cbn [run].
  - intros [= <- <-]. now rewrite app_nil_r.
  - destruct (step c now o) as [[a c1] |] eqn:Estep; [| discriminate].
    destruct (run c1 calls) as [[accs1 c2] |] eqn:Erun; [| discriminate].
    intros [= <- <-].
    replace (before ++ a :: accs1)%list with ((before ++ [a]) ++ accs1)%list
      by now rewrite <- app_assoc.
    eapply IH; [| exact Erun]. eapply step_recency; eassumption.
Qed.

Lemma Map_size_delete (m : Map) (key : string) :
  Map_size (Map_delete m key) <= Map_size m.
Proof.
  unfold Map_size, Map_delete. pose proof (filter_length_le
    (fun e : string * L402Credential => negb (String.eqb (fst e) key)) m). lia.
Qed.

Lemma Map_size_delete_present (m : Map) (key : string) (v : L402Credential) :
  Map_get m key = Some v -> Map_size (Map_delete m key) + 1 <= Map_size m.
Proof.
  induction m as [| [k v'] m IH]; cbn [Map_get]; [discriminate |].
  destruct (String.eqb_spec k key) as [-> | Hne].
  - intros _. unfold Map_delete. cbn [filter fst]. rewrite String.eqb_refl.
    cbn [negb]. rewrite Map_size_cons.
    pose proof (Map_size_delete m key). unfold Map_delete in *. lia.
  - intro H. unfold Map_delete. cbn [filter fst].
    destruct (String.eqb_spec k key); [contradiction |]. cbn [negb].
    rewrite !Map_size_cons. specialize (IH H). unfold Map_delete in IH. lia.
Qed.

(** No call lets the cache grow beyond its capacity. *)
Lemma step_size (c c' : CredentialCache) (now : Z) (o : call) (a : option string) :
  size c <= _maxSize c ->
  step c now o = Some (a, c') ->
  size c' <= _maxSize c' /\ _maxSize c' = _maxSize c.
Proof.
  unfold size. intro Hs. destruct o as [d p | d p mac pre e |]; cbn [step].
  - unfold get. destruct (Map_get (_cache c) (cacheKey d p)) as [cred |] eqn:G.
    + pose proof (Map_size_delete_present _ _ _ G).
      destruct (expired cred now); intros [= <- <-]; cbn [_cache _maxSize with_cache].
      * split; [lia | reflexivity].
      * rewrite put_inserts_last, Map_size_app. unfold Map_size at 2. simpl.
        split; [lia | reflexivity].
    + intros [= <- <-]. now split.
  - pose proof (put_unfold c now d p mac pre e) as P. cbv zeta in P. rewrite P.
    destruct (evict _ _) as [m' |] eqn:E; [| discriminate].
    intros [= <- <-]. destruct (evict_suffix _ _ _ E) as (_ & _ & Hm & _).
    now split.
  - intros [= <- <-]. cbn [clear _cache _maxSize with_cache].
    pose proof (Map_size_nonneg (_cache c)). unfold Map_size at 1. simpl.
    split; [lia | reflexivity].
Qed.

Lemma step_maxSize (c c' : CredentialCache) (now : Z) (o : call) (a : option string) :
  step c now o = Some (a, c') -> _maxSize c' = _maxSize c.
Proof.
  destruct o as [d p | d p mac pre e |]; cbn [step].
  - unfold get. destruct (Map_get _ _) as [cred |];
      [destruct (expired cred now) |]; now intros [= <- <-].
  - unfold put. destruct (evict _ _); [| discriminate]. now intros [= <- <-].
  - now intros [= <- <-].
Qed.

Lemma run_maxSize (calls : list (Z * call)) :
  forall (c c' : CredentialCache) (accs : list (option string)),
    run c calls = Some (accs, c') -> _maxSize c' = _maxSize c.
Proof.
  induction calls as [| [now o] calls IH]; intros c c' accs; cbn [run].
  - now intros [= <- <-].
  - destruct (step c now o) as [[a c1] |] eqn:Estep; [| discriminate].
    destruct (run c1 calls) as [[accs1 c2] |] eqn:Erun; [| discriminate].
    intros [= <- <-]. rewrite (IH _ _ _ Erun). exact (step_maxSize _ _ _ _ _ Estep).
Qed.

Lemma run_size (calls : list (Z * call)) :
  forall (c c' : CredentialCache) (accs : list (option string)),
    size c <= _maxSize c ->
    run c calls = Some (accs, c') ->
    size c' <= _maxSize c' /\ _maxSize c' = _maxSize c.
Proof.
  induction calls as [| [now o] calls IH]; intros c c' accs Hs; cbn [run].
  - intros [= <- <-]. now split.
  - destruct (step c now o) as [[a c1] |] eqn:Estep; [| discriminate].
    destruct (run c1 calls) as [[accs1 c2] |] eqn:Erun; [| discriminate].
    intros [= <- <-].
    destruct (step_size _ _ _ _ _ Hs Estep) as [Hs1 Hm1].
    destruct (IH _ _ _ Hs1 Erun) as [Hs2 Hm2]. split; congruence.
Qed.

(** C6.  In a cache reached by any sequence of calls and holding
    [maxSize >= 1] entries, [put] under a key that is not held evicts
    exactly one key, the one whose last access (a [put], or a [get] that
    returned it) is the oldest; every other entry stays.  With
    [maxSize = 0] the cache is empty and the one key inserted is the one
    evicted.  The evicted key need not be the one inserted first: with
    capacity 2, after [put a], [put b], [get a], the call [put c] evicts
    [b] and keeps [a]. *)
Theorem put_evicts_least_recently_accessed :
  (forall options calls accs c now d p mac pre e,
      run (constructor options) calls = Some (accs, c) ->
      1 <= _maxSize c ->
      size c = _maxSize c ->
      Map_get (_cache c) (cacheKey d p) = None ->
      exists victim cred c',
        put c now d p mac pre e = Some (cred, c')
        /\ In victim (keys (_cache c))
        /\ (forall k, In k (keys (_cache c)) -> k <> victim ->
                      accessed_before accs victim k)
        /\ Map_get (_cache c') victim = None
        /\ (forall k, k <> victim -> k <> cacheKey d p ->
                      Map_get (_cache c') k = Map_get (_cache c) k)
        /\ Map_get (_cache c') (cacheKey d p) = Some cred
        /\ size c' = _maxSize c)
  /\ (forall options calls accs c now d p mac pre e,
         run (constructor options) calls = Some (accs, c) ->
         _maxSize c = 0 ->
         exists cred c',
           put c now d p mac pre e = Some (cred, c')
           /\ _cache c = [] /\ _cache c' = [])
  /\ (exists accs c,
        run (constructor {| opt_maxSize := Some 2; opt_defaultTtlMs := None |})
          [(0, CallPut "a.com" "/x" "mac1" "pre1" None);
           (1, CallPut "b.com" "/x" "mac2" "pre2" None);
           (2, CallGet "a.com" "/x");
           (3, CallPut "c.com" "/x" "mac3" "pre3" None)]
        = Some (accs, c)
        /\ keys (_cache c) = ["a.com::/x"; "c.com::/x"]
        /\ fst (get c 4 "b.com" "/x") = None).
Proof.
  split; [| split].
  - intros options calls accs c now d p mac pre e Hrun Hmax Hfull Hnew.
    pose proof (run_recency calls (constructor options) c [] accs I Hrun) as Hs.
    cbn [app] in Hs.
    pose proof (recency_sorted_NoDup _ _ Hs) as Hnd.
    unfold size in Hfull.
    destruct (_cache c) as [| [victim v] rest] eqn:Ec.
    { unfold Map_size in Hfull. simpl in Hfull. lia. }
    cbn [keys map fst recency_sorted] in Hs, Hnd.
    destruct Hs as (_ & Hall & _).
    assert (Hvk : victim <> cacheKey d p).
    { intros ->. simpl in Hnew. now rewrite String.eqb_refl in Hnew. }
    assert (Hrest : Map_get rest (cacheKey d p) = None).
    { simpl in Hnew. destruct (String.eqb_spec victim (cacheKey d p));
        [contradiction | exact Hnew]. }
    pose proof (put_unfold c now d p mac pre e) as P. cbv zeta in P.
    rewrite Ec in P. rewrite Map_delete_absent in P
      by (simpl; destruct (String.eqb_spec victim (cacheKey d p));
          [contradiction | exact Hrest]).
    rewrite Map_size_cons in Hfull.
    assert (Hone : forall x : string * L402Credential,
               Map_size (rest ++ [x])%list = Map_size rest + 1).
    { intro x. rewrite Map_size_app. reflexivity. }
    rewrite <- app_comm_cons, evict_unfold in P.
    rewrite Map_size_cons, Hone in P.
    destruct (Z.gtb_spec (Map_size rest + 1 + 1) (_maxSize c)) as [_ | Hle];
      [| lia].
    rewrite evict_fits in P by (rewrite Hone; lia).
    eexists victim, _, _. split; [exact P |].
    cbn [_cache with_cache]. repeat split.
    + now left.
    + intros k Hk Hne. simpl in Hk. destruct Hk as [E | Hk]; [congruence |].
      rewrite Forall_forall in Hall. now apply Hall.
    + rewrite Map_get_app. inversion Hnd as [| ? ? Hnotin _]; subst.
      apply Map_get_In in Hnotin. unfold keys in Hnotin. rewrite Hnotin.
      simpl. destruct (String.eqb_spec (cacheKey d p) victim); congruence.
    + intros k Hk1 Hk2. rewrite Map_get_app. simpl.
      destruct (String.eqb_spec victim k); [congruence |].
      destruct (String.eqb_spec (cacheKey d p) k); [congruence |].
      now destruct (Map_get rest k).
    + rewrite Map_get_app, Hrest. simpl. now rewrite String.eqb_refl.
    + unfold size. cbn [_cache with_cache]. rewrite Hone. lia.
  - intros options calls accs c now d p mac pre e Hrun Hmax.
    pose proof (run_maxSize calls _ _ _ Hrun) as Hsame. rewrite Hmax in Hsame.
    destruct (run_size calls (constructor options) c accs) as [Hsize _];
      [rewrite <- Hsame; reflexivity | exact Hrun |].
    rewrite Hmax in Hsize. unfold size in Hsize.
    assert (Hempty : _cache c = []).
    { destruct (_cache c); [reflexivity |]. rewrite Map_size_cons in Hsize.
      pose proof (Map_size_nonneg m). lia. }
    pose proof (put_unfold c now d p mac pre e) as P. cbv zeta in P.
    rewrite Hempty, Hmax in P. eexists; eexists. split; [exact P |].
    split; [exact Hempty | reflexivity].
  - eexists; eexists. split; [reflexivity |]. split; reflexivity.
Qed.

(** The theorem on a cache of capacity 2 after [put a], [put b], [get a]:
    [put c] succeeds and the entry of [b] is gone. *)
Lemma put_evicts_least_recently_accessed_witness :
  exists victim cred c',
    put {| _maxSize := 2; _defaultTtlMs := Some 3600000;
           _cache :=
             [("b.com::/x", {| macaroon := "mac2"; preimage := "pre2";
                               createdAt := 1; expiresAt := Some 3600001 |});
              ("a.com::/x", {| macaroon := "mac1"; preimage := "pre1";
                               createdAt := 0; expiresAt := Some 3600000 |})] |}
        3 "c.com" "/x" "mac3" "pre3" None = Some (cred, c')
    /\ victim = "b.com::/x"
    /\ Map_get (_cache c') victim = None.
Proof.
  destruct (proj1 put_evicts_least_recently_accessed
              {| opt_maxSize := Some 2; opt_defaultTtlMs := None |}
              [(0, CallPut "a.com" "/x" "mac1" "pre1" None);
               (1, CallPut "b.com" "/x" "mac2" "pre2" None);
               (2, CallGet "a.com" "/x")]
              _ _ 3 "c.com" "/x" "mac3" "pre3" None eq_refl)
    as (victim & cred & c' & Hput & Hin & Hlru & Hgone & _).
  - vm_compute. discriminate.
  - reflexivity.
  - reflexivity.
  - exists victim, cred, c'. split; [exact Hput |]. split; [| exact Hgone].
    destruct Hin as [<- | [<- | []]]; [reflexivity |].
    exfalso. specialize (Hlru "b.com::/x" (or_introl eq_refl)).
    assert (Hne : "b.com::/x" <> "a.com::/x") by discriminate.
    destruct (Hlru Hne) as (n1 & n2 & E1 & E2 & Hlt).
    vm_compute in E1, E2. injection E1 as <-. injection E2 as <-. lia.
Defined.

End CacheFacts.

(* ================================================================== *)
(** * challenge.ts and client.ts: the 402 protocol *)
(* ================================================================== *)

Section ClientFacts.
Import JS Challenge Client.

Ltac unfold_client :=
  unfold exec, fetch, cache_get, cache_put, budget_check, budget_recordPayment,
    spendingLog_record, wallet_payInvoice, _getWallet, global_fetch, Date_now,
    try_catch, when, bind, lift, ret, raise, diverge, get_client, get_trace,
    emit, update in *.

Ltac innermost x :=
  match x with
  | context [match ?y with _ => _ end] => innermost y
  | _ => first [ is_var x; destruct x
               | let E := fresh "E" in destruct x eqn:E ]
  end.

Ltac case_step H :=
  match type of H with
  | context [match ?x with _ => _ end] =>
      innermost x; cbn [client log fst snd] in H
  end.

Lemma check_throws (b : Budget.BudgetController) (now amountSats : Z)
  (domain : option string) (e : error) :
  fst (Budget.check b now amountSats domain) = Throw e ->
  (exists d, e = DomainNotAllowedError d)
  \/ (exists limitType limit current requested,
        e = BudgetExceededError limitType limit current requested).
Proof.
  rewrite check_verdict.
  destruct (Budget.domain_rejected b domain); [intros [= <-]; eauto |].
  repeat match goal with
         | |- context [if ?x then _ else _] => destruct x
         end; try discriminate; intros [= <-]; right; eauto 8.
Qed.

(** C1.  Whenever [check] raises during a [fetch], the error is a
    [DomainNotAllowedError] or a [BudgetExceededError], it is what [fetch]
    throws, unchanged, and the call has made one HTTP request and nothing
    else: [payInvoice] is not invoked, nothing is retried and nothing is
    written to the spending log. *)
Theorem budget_rejection_prevents_payment (w : World) (c : L402Client)
  (url : string) (init : option RequestInit)
  (out : outcome Response) (s' : state) (a : Z) (d : string) (e : error) :
  exec (fetch w url init) c = (out, s') ->
  In (EvBudgetCheck a d (Throw e)) (log s') ->
  ((exists x, e = DomainNotAllowedError x)
   \/ (exists limitType limit current requested,
         e = BudgetExceededError limitType limit current requested))
  /\ out = Raised e
  /\ (forall bolt11, ~ In (EvPayInvoice bolt11) (log s'))
  /\ (exists req, log s' = [EvFetch req; EvBudgetCheck a d (Throw e)])
  /\ (exists b,
        _budget c = Some b
        /\ fst (Budget.check b (now w (firstn 1 (log s'))) a (Some d)) = Throw e)
  /\ spendingLog (client s') = spendingLog c.
Proof.
  intro H. unfold_client. cbn [client log] in H.
  repeat case_step H.
  all: injection H as <- <-; cbn [log app In client]; intro Hin.
  all: repeat (destruct Hin as [Hin | Hin]; try discriminate Hin).
  all: try contradiction.
  all: injection Hin as -> -> ->.
  all: cbn [_budget set_cache] in *.
  all: match goal with
       | Hc : Budget.check ?b ?t ?a ?d = (Throw ?e, _) |- _ =>
           assert (Hv : fst (Budget.check b t a d) = Throw e) by now rewrite Hc
       end.
  all: split; [exact (check_throws _ _ _ _ _ Hv) |].
  all: split; [reflexivity |].
  all: split; [intros bolt11 [F | [F | []]]; discriminate F |].
  all: split; [eexists; reflexivity |].
  all: split; [| reflexivity].
  all: eexists; split; [eassumption | exact Hv].
Qed.

(** The theorem on the test "prevents payment when budget exceeded": 1000
    satoshis are asked for, 500 are allowed per request. *)
Lemma budget_rejection_prevents_payment_witness :
  let w := example_world [("WWW-Authenticate", example_challenge)] in
  let run := exec (get w example_url None)
                  (example_client 500) in
  fst run = Raised (BudgetExceededError "per_request" 500 0 1000)
  /\ forall bolt11, ~ In (EvPayInvoice bolt11) (log (snd run)).
Proof.
  intros w run.
  destruct (budget_rejection_prevents_payment w (example_client 500)
              example_url
              (with_method "GET" None) (fst run) (snd run)
              1000 "api.example.com"
              (BudgetExceededError "per_request" 500 0 1000))
    as (_ & Hout & Hpay & _).
  - apply surjective_pairing.
  - vm_compute. right. left. reflexivity.
  - split; [exact Hout | exact Hpay].
Defined.

(** ** No challenge *)

Lemma findL402Challenge_none (headers : headers_arg) :
  findL402Challenge headers = None
  <-> (forall h, www_authenticate headers = Some h ->
                 forall ch, parseChallenge h <> Ok ch).
Proof.
  unfold findL402Challenge. destruct (www_authenticate headers) as [h |].
  - destruct h as [| x h'] eqn:Eh.
    + cbn. split; [| reflexivity]. intros _ h0 [= <-] ch. discriminate.
    + cbn [truthy negb]. rewrite <- Eh.
      destruct (parseChallenge h) as [ch | e] eqn:P.
      * split; [discriminate |]. intro H. now destruct (H h eq_refl ch).
      * split; [| reflexivity]. intros _ h0 [= <-] ch. congruence.
  - split; [| reflexivity]. intros _ h. discriminate.
Qed.

(** C5.  [findL402Challenge] is total, and null exactly when the
    [WWW-Authenticate] value is absent or does not parse (the exception of
    [parseChallenge] is caught).  When the first response of a [fetch] is a
    402 without such a challenge, [fetch] returns that response, and the
    HTTP call that fetched it is all that happened: no payment, no retry. *)
Theorem fetch_returns_402_without_challenge :
  (forall headers,
      findL402Challenge headers = None
      <-> (forall h, www_authenticate headers = Some h ->
                     forall ch, parseChallenge h <> Ok ch))
  /\ (forall (w : World) (c : L402Client) (url : string)
             (init : option RequestInit) (out : outcome Response) (s' : state)
             (req : Request) (rest : trace) (r : Response),
         exec (fetch w url init) c = (out, s') ->
         log s' = EvFetch req :: rest ->
         http w [] req = Ok r ->
         status r = 402 ->
         findL402Challenge (HeadersObject (resp_headers r)) = None ->
         out = Returned r /\ rest = []
         /\ _budget (client s') = _budget c
         /\ spendingLog (client s') = spendingLog c).
Proof.
  split; [exact findL402Challenge_none |].
  intros w c url init out s' req rest r H.
  unfold_client. cbn [client log] in H.
  repeat case_step H.
  all: injection H as <- <-; cbn [log app client].
  all: intros Hlog Hhttp Hstatus Hnone; try discriminate Hlog.
  all: injection Hlog as <- <-.
  all: match goal with
       | E : http _ [] _ = ?x |- _ =>
           tryif constr_eq E Hhttp then fail
           else pose proof (eq_trans (eq_sym E) Hhttp) as Hsame
       end; try discriminate Hsame; injection Hsame as ->.
  all: try (rewrite Hstatus in *; discriminate).
  all: try congruence.
  all: repeat split.
Qed.

(** The theorem on the test "returns 402 as-is when no L402 challenge
    header", here with a challenge of another scheme. *)
Lemma fetch_returns_402_without_challenge_witness :
  let w := example_world [("WWW-Authenticate", "Bearer realm=api")] in
  let run := exec (get w example_url None)
                  (example_client 500) in
  fst run = Returned {| status := 402;
                        resp_headers := [("WWW-Authenticate", "Bearer realm=api")];
                        resp_body := "Payment Required" |}
  /\ List.length (log (snd run)) = 1%nat.
Proof.
  intros w run.
  destruct (proj2 fetch_returns_402_without_challenge w (example_client 500)
              "https://api.example.com/api/v1/data" (with_method "GET" None)
              (fst run) (snd run)
              {| req_url := "https://api.example.com/api/v1/data";
                 req_init := {| method := Some "GET"; headers := None;
                                body := None; others := [] |};
                 req_headers := []; req_body := None |}
              (tl (log (snd run)))
              {| status := 402;
                 resp_headers := [("WWW-Authenticate", "Bearer realm=api")];
                 resp_body := "Payment Required" |})
    as (Hout & Hrest & _).
  - apply surjective_pairing.
  - reflexivity.
  - reflexivity.
  - reflexivity.
  - reflexivity.
  - split; [exact Hout |].
    change (log (snd run)) with (hd (EvAutoDetect) (log (snd run)) :: tl (log (snd run))).
    now rewrite Hrest.
Defined.

End ClientFacts.

(* ================================================================== *)
(** * More about the matcher *)
(* ================================================================== *)

Section MatcherFacts.
Import JS.

Lemma star_greedy_result (p : cls) (caps : captures) (k : cont)
  (s : list ascii) (r : captures) :
  star_greedy p caps k s = Some r ->
  exists pre t, s = (pre ++ t)%list /\ forallb p pre = true /\ k caps t = Some r.
Proof.
  induction s as [| c s IH]; cbn [star_greedy].
  - intro H. now exists [], [].
  - destruct (p c) eqn:Hc.
    + destruct (star_greedy p caps k s) as [r' |] eqn:E.
      * intros [= <-]. destruct (IH eq_refl) as (pre & t & -> & Hpre & Hk).
        exists (c :: pre), t. cbn [forallb app]. now rewrite Hc, Hpre.
      * intro H. now exists [], (c :: s).
    + intro H. now exists [], (c :: s).
Qed.

Lemma star_lazy_result (p : cls) (caps : captures) (k : cont)
  (s : list ascii) (r : captures) :
  star_lazy p caps k s = Some r ->
  exists pre t, s = (pre ++ t)%list /\ forallb p pre = true /\ k caps t = Some r.
Proof.
  induction s as [| c s IH]; cbn [star_lazy].
  - destruct (k caps []) as [r' |] eqn:E; [| discriminate].
    intros [= <-]. now exists [], [].
  - destruct (k caps (c :: s)) as [r' |] eqn:E.
    + intros [= <-]. now exists [], (c :: s).
    + destruct (p c) eqn:Hc; [| discriminate].
      intro H. destruct (IH H) as (pre & t & -> & Hpre & Hk).
      exists (c :: pre), t. cbn [forallb app]. now rewrite Hc, Hpre.
Qed.

Lemma extends_refl (caps : captures) : extends caps caps.
Proof. now intros name H. Qed.

Lemma extends_trans (c1 c2 c3 : captures) :
  extends c1 c2 -> extends c2 c3 -> extends c1 c3.
Proof. intros H12 H23 name H. now apply H23, H12. Qed.

Lemma extends_cons (caps : captures) (name v : string) :
  extends caps ((name, v) :: caps).
Proof.
  intros n H. cbn [group]. now destruct (String.eqb name n).
Qed.

(** A match of [r] followed by [k] is a match of [k], on what [r] left of
    the subject and with the groups [r] may have added. *)
Lemma rmatch_reaches (r : regex) :
  forall (caps : captures) (s : list ascii) (k : cont) (res : captures),
    rmatch r caps s k = Some res ->
    exists caps' pre s',
      s = (pre ++ s')%list /\ extends caps caps' /\ k caps' s' = Some res.
Proof.
  induction r as [| p | r1 IH1 r2 IH2 | r1 IH1 r2 IH2 | r1 IH1 | p | p | p
                  | name r1 IH1];
    intros caps s k res; cbn [rmatch].
  - intro H. exists caps, [], s. auto using extends_refl.
  - destruct s as [| c s]; [discriminate |].
    destruct (p c); [| discriminate].
    intro H. exists caps, [c], s. auto using extends_refl.
  - intro H. destruct (IH1 _ _ _ _ H) as (c1 & pre1 & s1 & -> & E1 & H1).
    destruct (IH2 _ _ _ _ H1) as (c2 & pre2 & s2 & -> & E2 & H2).
    exists c2, (pre1 ++ pre2)%list, s2.
    rewrite <- app_assoc. eauto using extends_trans.
  - destruct (rmatch r1 caps s k) as [res1 |] eqn:E.
    + intros [= <-]. eauto.
    + eauto.
  - destruct (rmatch r1 caps s k) as [res1 |] eqn:E.
    + intros [= <-]. eauto.
    + intro H. exists caps, [], s. auto using extends_refl.
  - intro H. destruct (star_greedy_result _ _ _ _ _ H) as (pre & t & -> & _ & Hk).
    exists caps, pre, t. auto using extends_refl.
  - destruct s as [| c s]; [discriminate |].
    destruct (p c); [| discriminate].
    intro H. destruct (star_greedy_result _ _ _ _ _ H) as (pre & t & -> & _ & Hk).
    exists caps, (c :: pre), t. auto using extends_refl.
  - destruct s as [| c s]; [discriminate |].
    destruct (p c); [| discriminate].
    intro H. destruct (star_lazy_result _ _ _ _ _ H) as (pre & t & -> & _ & Hk).
    exists caps, (c :: pre), t. auto using extends_refl.
  - intro H. destruct (IH1 _ _ _ _ H) as (c1 & pre1 & s1 & -> & E1 & H1).
    exists ((name, consumed (pre1 ++ s1) s1) :: c1), pre1, s1.
    split; [reflexivity |]. split; [| exact H1].
    eapply extends_trans; [exact E1 | apply extends_cons].
Qed.

(** A match of a pattern that [binds] a group has set it. *)
Lemma rmatch_binds (name : string) (r : regex) :
  binds name r = true ->
  forall (caps : captures) (s : list ascii) (k : cont) (res : captures),
    rmatch r caps s k = Some res ->
    exists caps' s', group caps' name <> None /\ k caps' s' = Some res.
Proof.
  induction r as [| p | r1 IH1 r2 IH2 | r1 IH1 r2 IH2 | r1 IH1 | p | p | p
                  | n r1 IH1];
    cbn [binds]; try discriminate; intros Hb caps s k res; cbn [rmatch].
  - intro H. apply orb_prop in Hb as [Hb | Hb].
    + destruct (IH1 Hb _ _ _ _ H) as (c1 & s1 & Hn & H1).
      destruct (rmatch_reaches _ _ _ _ _ H1) as (c2 & pre & s2 & _ & E & H2).
      exists c2, s2. split; [now apply E | exact H2].
    + destruct (rmatch_reaches _ _ _ _ _ H) as (c1 & pre & s1 & _ & _ & H1).
      exact (IH2 Hb _ _ _ _ H1).
  - apply andb_prop in Hb as [Hb1 Hb2].
    destruct (rmatch r1 caps s k) as [res1 |] eqn:E.
    + intros [= <-]. exact (IH1 Hb1 _ _ _ _ E).
    + exact (IH2 Hb2 _ _ _ _).
  - intro H. apply orb_prop in Hb as [Hb | Hb].
    + destruct (rmatch_reaches _ _ _ _ _ H) as (c1 & pre & s1 & _ & _ & H1).
      exists ((n, consumed s s1) :: c1), s1. split; [| exact H1].
      cbn [group]. rewrite Hb. discriminate.
    + destruct (IH1 Hb _ _ _ _ H) as (c1 & s1 & Hn & H1).
      exists ((n, consumed s s1) :: c1), s1. split; [| exact H1].
      cbn [group]. now destruct (String.eqb n name).
Qed.

Lemma exec_binds (name : string) (r : regex) (header : string) (groups : captures) :
  binds name r = true ->
  exec r header = Some groups -> group groups name <> None.
Proof.
  intros Hb. unfold exec.
  induction (list_ascii_of_string header) as [| c s IH]; cbn [search].
  - destruct (rmatch r [] [] accept) as [res |] eqn:E; [| discriminate].
    intros [= <-]. destruct (rmatch_binds _ _ Hb _ _ _ _ E) as (c1 & s1 & Hn & H).
    now injection H as <-.
  - destruct (rmatch r [] (c :: s) accept) as [res |] eqn:E; [| exact IH].
    intros [= <-]. destruct (rmatch_binds _ _ Hb _ _ _ _ E) as (c1 & s1 & Hn & H).
    now injection H as <-.
Qed.

(** ** Trimming *)

Lemma trimEnd_head (c : ascii) (s : string) :
  is_space c = false -> exists t, trimEnd (String c s) = String c t.
Proof.
  intro Hc. cbn [trimEnd]. destruct (trimEnd s); [rewrite Hc |]; eauto.
Qed.

Lemma trimEnd_idem (s : string) : trimEnd (trimEnd s) = trimEnd s.
Proof.
  induction s as [| c s IH]; [reflexivity |].
  cbn [trimEnd]. destruct (trimEnd s) as [| c' t] eqn:E.
  - destruct (is_space c) eqn:Hc; [reflexivity |].
    cbn [trimEnd]. now rewrite Hc.
  - cbn [trimEnd]. cbn [trimEnd] in IH. now rewrite IH.
Qed.

Lemma trimStart_head (s : string) :
  match trimStart s with
  | EmptyString => True
  | String c _ => is_space c = false
  end.
Proof.
  induction s as [| c s IH]; [exact I |].
  cbn [trimStart]. destruct (is_space c) eqn:Hc; [exact IH | exact Hc].
Qed.

(** What [trim] returns has no white space left at either end. *)
Lemma trim_idem (s : string) : trim (trim s) = trim s.
Proof.
  unfold trim. pose proof (trimStart_head s) as Hs.
  destruct (trimStart s) as [| c t]; [reflexivity |].
  destruct (trimEnd_head c t Hs) as (t' & E). rewrite E.
  cbn [trimStart]. rewrite Hs, <- E. apply trimEnd_idem.
Qed.

End MatcherFacts.

(* ================================================================== *)
(** * More about src/credential-cache.ts *)
(* ================================================================== *)

Section CacheLifetime.
Import JS Cache.

Lemma Map_get_delete_other (m : Map) (key k : string) :
  k <> key -> Map_get (Map_delete m key) k = Map_get m k.
Proof.
  intro Hk. induction m as [| [k' v] m IH]; [reflexivity |].
  unfold Map_delete in *. cbn [filter fst Map_get].
  destruct (String.eqb_spec k' key) as [-> | Hne]; cbn [negb].
  - rewrite IH. destruct (String.eqb_spec key k) as [E | _]; [| reflexivity].
    now elim Hk.
  - cbn [Map_get]. now rewrite IH.
Qed.

Lemma Map_get_set_other (m : Map) (key k : string) (v : L402Credential) :
  k <> key -> Map_get (Map_set m key v) k = Map_get m k.
Proof.
  intro Hk. induction m as [| [k' v'] m IH]; cbn [Map_set Map_get].
  - destruct (String.eqb_spec key k) as [E | _]; [now elim Hk | reflexivity].
  - destruct (String.eqb_spec k' key) as [-> | Hne]; cbn [Map_get].
    + destruct (String.eqb_spec key k) as [E | _]; [now elim Hk | reflexivity].
    + now rewrite IH.
Qed.

Lemma Map_get_set_same (m : Map) (key : string) (v : L402Credential) :
  Map_get (Map_set m key v) key = Some v.
Proof.
  induction m as [| [k' v'] m IH]; cbn [Map_set Map_get].
  - now rewrite String.eqb_refl.
  - destruct (String.eqb_spec k' key) as [-> | Hne]; cbn [Map_get].
    + now rewrite String.eqb_refl.
    + destruct (String.eqb_spec k' key) as [E | _]; [now elim Hne | exact IH].
Qed.

(** The credential [put] builds, and where it is afterwards. *)
Lemma put_stores (c c' : CredentialCache) (now : Z)
  (d p mac pre : string) (e : option (option Z)) (cred : L402Credential) :
  put c now d p mac pre e = Some (cred, c') ->
  cred = {| macaroon := mac; preimage := pre; createdAt := now;
            expiresAt :=
              match e with
              | Some e' => e'
              | None => option_map (Z.add now) (_defaultTtlMs c)
              end |}
  /\ _maxSize c' = _maxSize c
  /\ _defaultTtlMs c' = _defaultTtlMs c
  /\ (1 <= _maxSize c -> Map_get (_cache c') (cacheKey d p) = Some cred).
Proof.
  intro Hput.
  pose proof (put_unfold c now d p mac pre e) as P. cbv zeta in P.
  rewrite P in Hput. destruct (evict _ _) as [m' |] eqn:E; [| discriminate].
  injection Hput as Hcred <-.
  split; [| split; [reflexivity | split; [reflexivity |]]].
  - rewrite <- Hcred. destruct e as [e' |]; [reflexivity |].
    now destruct (_defaultTtlMs c).
  - intro Hmax.
    destruct (evict_keeps_last _ _ _ _ Hmax E) as (evicted & kept & Em & ->).
    cbn [_cache with_cache]. rewrite Map_get_app.
    assert (Hk : Map_get kept (cacheKey d p) = None).
    { pose proof (Map_get_delete_same (_cache c) (cacheKey d p)) as Hdel.
      rewrite Em, Map_get_app in Hdel.
      destruct (Map_get evicted (cacheKey d p)); [discriminate | exact Hdel]. }
    rewrite Hk. cbn [Map_get]. rewrite String.eqb_refl. now rewrite Hcred.
Qed.



(** X17.  [get] touches one key only: whatever it returns, the credentials
    under all other keys are as before and none is added. *)
Theorem get_leaves_other_credentials (c : CredentialCache) (now : Z)
  (d p : string) (k : string) :
  k <> cacheKey d p ->
  Map_get (_cache (snd (get c now d p))) k = Map_get (_cache c) k
  /\ size (snd (get c now d p)) <= size c
  /\ _maxSize (snd (get c now d p)) = _maxSize c.
Proof.
  intro Hk. unfold get, size.
  destruct (Map_get (_cache c) (cacheKey d p)) as [cred |] eqn:Hget;
    [| cbn [snd]; split; [reflexivity | split; [lia | reflexivity]]].
  destruct (expired cred now); cbn [snd _cache with_cache _maxSize].
  - rewrite (Map_get_delete_other _ _ _ Hk).
    pose proof (Map_size_delete_present _ _ _ Hget).
    split; [reflexivity | split; [lia | reflexivity]].
  - rewrite put_inserts_last, Map_get_app, (Map_get_delete_other _ _ _ Hk).
    rewrite Map_size_app.
    pose proof (Map_size_delete_present _ _ _ Hget).
    split; [| split; [cbn; lia | reflexivity]].
    destruct (Map_get (_cache c) k); [reflexivity |].
    cbn [Map_get]. destruct (String.eqb_spec (cacheKey d p) k) as [E | _];
      [now elim Hk | reflexivity].
Qed.

Lemma get_leaves_other_credentials_witness :
  let c := constructor {| opt_maxSize := None; opt_defaultTtlMs := None |} in
  Map_get (_cache (snd (get c 0 "a.example" "/x"))) "b.example::/y" = None.
Proof.
  intro c.
  refine (proj1 (get_leaves_other_credentials c 0 "a.example" "/x"
                   "b.example::/y" _)).
  vm_compute. discriminate.
Defined.

(** X18.  When the cache has room for the key (it holds the key already and is
    not over its capacity, or it is below its capacity), [put] returns,
    stores the credential under the key and evicts nothing: every other
    key keeps its credential. *)
Theorem put_with_room_keeps_the_others (c : CredentialCache) (now : Z)
  (d p mac pre : string) (e : option (option Z)) :
  Map_size (Map_delete (_cache c) (cacheKey d p)) < _maxSize c ->
  exists cred c',
    put c now d p mac pre e = Some (cred, c')
    /\ macaroon cred = mac /\ preimage cred = pre
    /\ Map_get (_cache c') (cacheKey d p) = Some cred
    /\ (forall k, k <> cacheKey d p ->
                  Map_get (_cache c') k = Map_get (_cache c) k)
    /\ size c' = Map_size (Map_delete (_cache c) (cacheKey d p)) + 1.
Proof.
  intro Hroom. rewrite put_unfold. cbv zeta.
  rewrite evict_fits by (rewrite Map_size_app; cbn; lia).
  eexists _, _. split; [reflexivity |].
  cbn [macaroon preimage _cache with_cache]. do 2 (split; [reflexivity |]).
  split; [| split].
  - rewrite Map_get_app, Map_get_delete_same. cbn [Map_get].
    now rewrite String.eqb_refl.
  - intros k Hk. rewrite Map_get_app, (Map_get_delete_other _ _ _ Hk).
    destruct (Map_get (_cache c) k); [reflexivity |].
    cbn [Map_get]. destruct (String.eqb_spec (cacheKey d p) k) as [E | _];
      [now elim Hk | reflexivity].
  - unfold size. cbn [_cache with_cache]. rewrite Map_size_app. reflexivity.
Qed.

Lemma put_with_room_keeps_the_others_witness :
  let c := constructor {| opt_maxSize := Some 1; opt_defaultTtlMs := None |} in
  exists cred c',
    put c 0 "a.example" "/x" "m1" "p1" None = Some (cred, c') /\ size c' = 1.
Proof.
  intro c.
  destruct (put_with_room_keeps_the_others c 0 "a.example" "/x" "m1" "p1" None)
    as (cred & c' & Hput & _ & _ & _ & _ & Hsize).
  - vm_compute. reflexivity.
  - exists cred, c'. split; [exact Hput | exact Hsize].
Defined.

Lemma step_returns (c : CredentialCache) (now : Z) (o : call) :
  0 <= _maxSize c -> exists a c', step c now o = Some (a, c').
Proof.
  intro Hmax. destruct o as [d p | d p mac pre e |]; cbn [step].
  - destruct (get c now d p) as [[cred |] c']; eauto.
  - rewrite put_unfold. cbv zeta.
    destruct (evict_terminates (_maxSize c)
                (Map_delete (_cache c) (cacheKey d p)
                   ++ [(cacheKey d p,
                        {| macaroon := mac; preimage := pre; createdAt := now;
                           expiresAt :=
                             match e with
                             | Some e' => e'
                             | None =>
                                 match _defaultTtlMs c with
                                 | Some ttl => Some (now + ttl)
                                 | None => None
                                 end
                             end |})])%list Hmax) as (m' & ->).
    eauto.
  - eauto.
Qed.

Lemma run_returns (calls : list (Z * call)) :
  forall c, 0 <= _maxSize c -> exists accs c', run c calls = Some (accs, c').
Proof.
  induction calls as [| [now o] calls IH]; intros c Hmax; cbn [run]; [eauto |].
  destruct (step_returns c now o Hmax) as (a & c1 & Hstep). rewrite Hstep.
  destruct (IH c1) as (accs & c2 & Hrun).
  - now rewrite (step_maxSize _ _ _ _ _ Hstep).
  - rewrite Hrun. eauto.
Qed.

(** X19.  A cache made with a capacity that is not negative is well formed
    after any sequence of [get], [put] and [clear]: every call returns, no
    key is held twice, and the size is within the capacity. *)
Theorem cache_stays_well_formed (options : CacheOptions)
  (calls : list (Z * call)) :
  0 <= Budget.nullish (opt_maxSize options) 256 ->
  exists accs c',
    run (constructor options) calls = Some (accs, c')
    /\ NoDup (keys (_cache c'))
    /\ 0 <= size c' <= _maxSize c'
    /\ _maxSize c' = Budget.nullish (opt_maxSize options) 256.
Proof.
  intro Hmax.
  destruct (run_returns calls (constructor options) Hmax) as (accs & c' & Hrun).
  exists accs, c'. split; [exact Hrun |].
  pose proof (run_recency calls (constructor options) c' [] accs I Hrun) as Hrec.
  destruct (run_size calls (constructor options) c' accs) as (Hsize & Hcap);
    [cbn; exact Hmax | exact Hrun |].
  split; [exact (recency_sorted_NoDup _ _ Hrec) |].
  split; [| exact Hcap].
  split; [apply Map_size_nonneg | exact Hsize].
Qed.

Lemma cache_stays_well_formed_witness :
  exists accs c',
    run (constructor {| opt_maxSize := Some 1; opt_defaultTtlMs := None |})
        [(0, CallPut "a.example" "/x" "m1" "p1" None);
         (1, CallPut "b.example" "/y" "m2" "p2" None);
         (2, CallGet "a.example" "/x")] = Some (accs, c')
    /\ size c' <= 1.
Proof.
  destruct (cache_stays_well_formed
              {| opt_maxSize := Some 1; opt_defaultTtlMs := None |}
              [(0, CallPut "a.example" "/x" "m1" "p1" None);
               (1, CallPut "b.example" "/y" "m2" "p2" None);
               (2, CallGet "a.example" "/x")])
    as (accs & c' & Hrun & _ & Hsize & Hcap).
  - cbn. lia.
  - exists accs, c'. split; [exact Hrun |]. rewrite Hcap in Hsize. exact (proj2 Hsize).
Defined.

End CacheLifetime.

(* ================================================================== *)
(** * More about src/budget.ts *)
(* ================================================================== *)

Section BudgetSafety.
Import JS Budget.

Lemma sum_amounts_app (ps qs : list payment) :
  sum_amounts (ps ++ qs) = sum_amounts ps + sum_amounts qs.
Proof.
  unfold sum_amounts. induction ps as [| p ps IH]; cbn [app fold_right]; lia.
Qed.

Lemma trailing_sum_app (window now : Z) (ps qs : list payment) :
  trailing_sum window now (ps ++ qs)
  = trailing_sum window now ps + trailing_sum window now qs.
Proof. unfold trailing_sum. now rewrite trailing_app, sum_amounts_app. Qed.

Lemma trailing_sum_nonneg (window now : Z) (ps : list payment) :
  Forall (fun p => 0 <= amount p) ps -> 0 <= trailing_sum window now ps.
Proof.
  unfold trailing_sum, trailing, sum_amounts.
  induction 1 as [| p ps Hp _ IH]; cbn [filter fold_right]; [lia |].
  destruct (now - window <=? timestamp p); cbn [fold_right]; lia.
Qed.

(** As the clock advances a window only loses payments. *)
Lemma trailing_sum_decays (window t t' : Z) (ps : list payment) :
  Forall (fun p => 0 <= amount p) ps -> t <= t' ->
  trailing_sum window t' ps <= trailing_sum window t ps.
Proof.
  intros Hps Ht. unfold trailing_sum, trailing, sum_amounts.
  induction Hps as [| p ps Hp _ IH]; cbn [filter fold_right]; [lia |].
  destruct (Z.leb_spec (t' - window) (timestamp p));
    destruct (Z.leb_spec (t - window) (timestamp p)); cbn [fold_right]; lia.
Qed.

Lemma trailing_sum_dropped (window now cutoff : Z) (dropped kept : list payment) :
  cutoff <= now - window ->
  Forall (fun p => timestamp p < cutoff) dropped ->
  trailing_sum window now (dropped ++ kept) = trailing_sum window now kept.
Proof.
  intros Hc Hd. unfold trailing_sum.
  now rewrite trailing_app, (trailing_old _ _ _ _ Hc Hd).
Qed.

Lemma domain_rejected_with_payments (b : BudgetController) (ps : list payment)
  (domain : option string) :
  domain_rejected (with_payments b ps) domain = domain_rejected b domain.
Proof. reflexivity. Qed.

(** What a call leaves of the payments, seen from a later time. *)
Lemma later_windows (b b' : BudgetController) (t t' window : Z) :
  b' = b \/ b' = _prune b t ->
  t <= t' -> window <= DAY ->
  trailing_sum window t' (_payments b') = trailing_sum window t' (_payments b).
Proof.
  intros [-> | ->] Ht Hw; [reflexivity |].
  destruct (prune_split b t) as (dropped & E & Hd).
  etransitivity; [| symmetry; exact (f_equal (trailing_sum window t') E)].
  symmetry. apply trailing_sum_dropped with (cutoff := t - DAY);
    [unfold DAY in *; lia | exact Hd].
Qed.

(** X20.  With a clock that does not go back, what [check] does to the
    controller cannot be seen: a later [check], [spentLastHour] or
    [spentLastDay] gives what it would have given without the earlier
    call. *)
Theorem check_is_invisible_to_later_calls (b : BudgetController)
  (t t' a a' : Z) (d d' : option string) :
  t <= t' ->
  let b' := snd (check b t a d) in
  fst (check b' t' a' d') = fst (check b t' a' d')
  /\ fst (spentLastHour b' t') = fst (spentLastHour b t')
  /\ fst (spentLastDay b' t') = fst (spentLastDay b t').
Proof.
  intros Ht b'.
  pose proof (check_state b t a d) as Hstate. fold b' in Hstate.
  pose proof (check_keeps_limits b t a d) as (Hr & Hh & Hd & Ha).
  fold b' in Hr, Hh, Hd, Ha.
  assert (Hhour := later_windows b b' t t' HOUR Hstate Ht ltac:(unfold HOUR, DAY; lia)).
  assert (Hday := later_windows b b' t t' DAY Hstate Ht ltac:(lia)).
  split; [| split].
  - rewrite !check_verdict. cbv zeta. rewrite Hr, Hh, Hd, Hhour, Hday.
    unfold domain_rejected. now rewrite Ha.
  - now rewrite !spentLastHour_value.
  - rewrite !spentLastDay_value. exact Hday.
Qed.

Lemma check_is_invisible_to_later_calls_witness :
  let b := recordPayment (constructor no_options) 0 600 in
  fst (check (snd (check b 86400001 1 None)) 86400001 600 None)
  = fst (check b 86400001 600 None).
Proof.
  intro b.
  refine (proj1 (check_is_invisible_to_later_calls b 86400001 86400001 1 600
                   None None _)).
  lia.
Defined.

Lemma Forall_nonneg (limit : Z) (ps : list payment) :
  Forall (fun p => 0 <= amount p <= limit) ps -> Forall (fun p => 0 <= amount p) ps.
Proof. apply Forall_impl. intros p Hp. lia. Qed.

Lemma within_limits_after_call (b0 b b' : BudgetController) (t t1 : Z) :
  within_limits b0 b t -> t <= t1 ->
  b' = b \/ b' = _prune b t1 ->
  within_limits b0 b' t1.
Proof.
  intros (Hr & Hh & Hd & Hps & Hw) Ht Hstate.
  assert (Hps' : Forall (fun p => 0 <= amount p <= maxSatsPerRequest b0) (_payments b')).
  { destruct Hstate as [-> | ->]; [exact Hps |].
    destruct (prune_split b t1) as (dropped & E & _).
    rewrite E in Hps. now apply Forall_app in Hps. }
  assert (Hlim : maxSatsPerRequest b' = maxSatsPerRequest b
                 /\ maxSatsPerHour b' = maxSatsPerHour b
                 /\ maxSatsPerDay b' = maxSatsPerDay b).
  { destruct Hstate as [-> | ->]; now repeat split. }
  destruct Hlim as (Hr' & Hh' & Hd').
  do 3 (split; [congruence |]). split; [exact Hps' |].
  intros t' Ht'. split.
  - rewrite (later_windows b b' t1 t' HOUR Hstate Ht' ltac:(unfold HOUR, DAY; lia)).
    apply Hw. lia.
  - rewrite (later_windows b b' t1 t' DAY Hstate Ht' ltac:(lia)).
    apply Hw. lia.
Qed.

Lemma guarded_payment_within_limits (b0 b : BudgetController) (t : Z) (a : attempt) :
  within_limits b0 b t ->
  t <= checkedAt a -> checkedAt a <= paidAt a -> 0 <= sats a ->
  within_limits b0 (guarded_payment b a) (paidAt a).
Proof.
  intros Hb Ht Hpaid Hsats. unfold guarded_payment.
  pose proof (check_state b (checkedAt a) (sats a) (host a)) as Hstate.
  destruct (check b (checkedAt a) (sats a) (host a)) as [[u | e] b1] eqn:Hcheck;
    cbn [snd] in Hstate.
  2: { apply within_limits_after_call with (b := b1) (t := checkedAt a);
         [| exact Hpaid | now left].
       now apply within_limits_after_call with (b := b) (t := t). }
  destruct (walletPaid a).
  2: { apply within_limits_after_call with (b := b1) (t := checkedAt a);
         [| exact Hpaid | now left].
       now apply within_limits_after_call with (b := b) (t := t). }
  assert (Hok : fst (check b (checkedAt a) (sats a) (host a)) = Ok tt)
    by (rewrite Hcheck; now destruct u).
  rewrite check_verdict in Hok. cbv zeta in Hok.
  destruct (domain_rejected b (host a)); [discriminate |].
  destruct (Z.gtb_spec (sats a) (maxSatsPerRequest b)); [discriminate |].
  destruct (Z.gtb_spec (trailing_sum HOUR (checkedAt a) (_payments b) + sats a)
                       (maxSatsPerHour b)); [discriminate |].
  destruct (Z.gtb_spec (trailing_sum DAY (checkedAt a) (_payments b) + sats a)
                       (maxSatsPerDay b)); [discriminate |].
  clear Hok.
  pose proof (within_limits_after_call b0 b b1 t (checkedAt a) Hb Ht Hstate)
    as (Hr1 & Hh1 & Hd1 & Hps1 & _).
  destruct Hb as (Hr & Hh & Hd & Hps & _).
  assert (Hsingle : forall window t',
             0 <= trailing_sum window t'
                    [{| timestamp := paidAt a; amount := sats a |}] <= sats a).
  { intros window t'. unfold trailing_sum, trailing, sum_amounts.
    cbn [filter timestamp]. destruct (t' - window <=? paidAt a);
      cbn [fold_right amount]; lia. }
  assert (Hwin : forall window t', window <= DAY -> paidAt a <= t' ->
             trailing_sum window t' (_payments b1)
             <= trailing_sum window (checkedAt a) (_payments b)).
  { intros window t' Hw Ht'.
    rewrite <- (later_windows b b1 (checkedAt a) (checkedAt a) window Hstate
                  ltac:(lia) Hw).
    apply trailing_sum_decays; [exact (Forall_nonneg _ _ Hps1) | lia]. }
  unfold recordPayment, within_limits. cbn [with_payments maxSatsPerRequest
    maxSatsPerHour maxSatsPerDay _payments].
  do 3 (split; [congruence |]). split.
  { apply Forall_app. split; [exact Hps1 |].
    constructor; [cbn [amount]; lia | constructor]. }
  intros t' Ht'. split.
  - rewrite trailing_sum_app.
    pose proof (Hwin HOUR t' ltac:(unfold HOUR, DAY; lia) Ht').
    pose proof (Hsingle HOUR t'). lia.
  - rewrite trailing_sum_app.
    pose proof (Hwin DAY t' ltac:(lia) Ht').
    pose proof (Hsingle DAY t'). lia.
Qed.

Lemma guarded_payments_within_limits (b0 : BudgetController)
  (attempts : list attempt) :
  forall (b : BudgetController) (from upto : Z),
    within_limits b0 b from ->
    in_order from attempts upto ->
    Forall (fun a => 0 <= sats a) attempts ->
    within_limits b0 (fold_left guarded_payment attempts b) upto.
Proof.
  induction attempts as [| a attempts IH]; intros b from upto Hb Horder Hsats;
    cbn [fold_left in_order] in *.
  - destruct Hb as (Hr & Hh & Hd & Hps & Hw).
    do 4 (split; [assumption |]). intros t' Ht'. apply Hw. lia.
  - destruct Horder as (H1 & H2 & Hrest).
    apply Forall_cons_iff in Hsats as (Ha & Hsats).
    apply IH with (from := paidAt a); [| exact Hrest | exact Hsats].
    now apply guarded_payment_within_limits with (t := from).
Qed.

(** X21.  A controller that only records payments its own [check] has passed,
    on a clock that does not go back and with amounts that are not
    negative, never shows more than its limits: [spentLastHour] and
    [spentLastDay] stay within the hourly and the daily limit, and every
    payment it holds is within the per-request limit. *)
Theorem guarded_payments_stay_within_limits (options : BudgetOptions)
  (attempts : list attempt) (from now : Z) :
  let b0 := constructor options in
  let b := fold_left guarded_payment attempts b0 in
  0 <= maxSatsPerHour b0 ->
  0 <= maxSatsPerDay b0 ->
  in_order from attempts now ->
  Forall (fun a => 0 <= sats a) attempts ->
  fst (spentLastHour b now) <= maxSatsPerHour b0
  /\ fst (spentLastDay b now) <= maxSatsPerDay b0
  /\ Forall (fun p => 0 <= amount p <= maxSatsPerRequest b0) (_payments b).
Proof.
  intros b0 b Hh Hd Horder Hsats.
  assert (H0 : within_limits b0 b0 from).
  { do 3 (split; [reflexivity |]). split; [constructor |].
    intros t' _. split; [exact Hh | exact Hd]. }
  destruct (guarded_payments_within_limits b0 attempts b0 from now H0 Horder Hsats)
    as (_ & _ & _ & Hps & Hw).
  fold b in Hps, Hw.
  rewrite spentLastHour_value, spentLastDay_value.
  destruct (Hw now ltac:(lia)) as (H1 & H2).
  repeat split; assumption.
Qed.

Lemma guarded_payments_stay_within_limits_witness :
  let pay t a := {| checkedAt := t; paidAt := t + 1; sats := a; host := None;
                    walletPaid := true |} in
  let b := fold_left guarded_payment [pay 0 900; pay 10 900; pay 20 900]
             (constructor {| opt_maxSatsPerRequest := None;
                             opt_maxSatsPerHour := Some 2000;
                             opt_maxSatsPerDay := None;
                             opt_allowedDomains := None |}) in
  fst (spentLastHour b 21) <= 2000.
Proof.
  intros pay b.
  refine (proj1 (guarded_payments_stay_within_limits
                   {| opt_maxSatsPerRequest := None;
                      opt_maxSatsPerHour := Some 2000;
                      opt_maxSatsPerDay := None;
                      opt_allowedDomains := None |}
                   [pay 0 900; pay 10 900; pay 20 900] 0 21 _ _ _ _)).
  - cbn. lia.
  - cbn. lia.
  - cbn. lia.
  - repeat constructor; cbn; lia.
Defined.

End BudgetSafety.

(* ================================================================== *)
(** * More about src/challenge.ts *)
(* ================================================================== *)

Section ChallengeParsing.
Import JS Challenge.

(** X22.  [parseChallenge] fails with a [ChallengeParseError] for the header it
    was given and in no other way: the two groups it trims are set by
    every match of either pattern.  What it returns has a macaroon and an
    invoice that are not empty and have no white space around them. *)
Theorem parseChallenge_fails_with_ChallengeParseError (header : string) :
  match parseChallenge header with
  | Ok ch =>
      truthy (macaroon ch) = true /\ truthy (invoice ch) = true
      /\ trim (macaroon ch) = macaroon ch /\ trim (invoice ch) = invoice ch
  | Throw e => exists reason, e = ChallengeParseError header reason
  end.
Proof.
  unfold parseChallenge.
  destruct (truthy header); cbn [negb]; [| eauto].
  assert (Hgroups : forall groups,
             match exec CHALLENGE_RE header with
             | Some groups => Some groups
             | None => exec CHALLENGE_NOQUOTE_RE header
             end = Some groups ->
             group groups "macaroon" <> None /\ group groups "invoice" <> None).
  { intros groups.
    destruct (exec CHALLENGE_RE header) as [g |] eqn:E.
    - intros [= <-]. split; eapply exec_binds; try exact E; reflexivity.
    - intro E'. split; eapply exec_binds; try exact E'; reflexivity. }
  destruct (match exec CHALLENGE_RE header with
            | Some groups => Some groups
            | None => exec CHALLENGE_NOQUOTE_RE header
            end) as [groups |]; [| eauto].
  destruct (Hgroups groups eq_refl) as (Hmac & Hinv).
  destruct (group groups "macaroon") as [mac |]; [| now elim Hmac].
  destruct (group groups "invoice") as [inv |]; [| now elim Hinv].
  destruct (truthy (trim mac)) eqn:Tmac; cbn [negb]; [| eauto].
  destruct (truthy (trim inv)) eqn:Tinv; cbn [negb]; [| eauto].
  cbn [macaroon invoice]. auto using trim_idem.
Qed.

(** *** Matching step by step *)

Lemma step_star (p : cls) (R : regex) (caps : captures) (pre rest : list ascii)
  (k : cont) (r : captures) :
  forallb p pre = true -> stops p rest ->
  rmatch R caps rest k = Some r ->
  rmatch (RSeq (RStar p) R) caps (pre ++ rest) k = Some r.
Proof.
  intros Hpre Hstop H. cbn [rmatch].
  apply star_greedy_prefix; [exact Hpre |].
  now rewrite star_greedy_stop.
Qed.

Lemma step_plus (p : cls) (R : regex) (caps : captures) (c : ascii)
  (pre rest : list ascii) (k : cont) (r : captures) :
  p c = true -> forallb p pre = true -> stops p rest ->
  rmatch R caps rest k = Some r ->
  rmatch (RSeq (RPlus p) R) caps (c :: pre ++ rest) k = Some r.
Proof.
  intros Hc Hpre Hstop H. cbn [rmatch]. rewrite Hc.
  apply star_greedy_prefix; [exact Hpre |].
  now rewrite star_greedy_stop.
Qed.

Lemma step_group_end (name : string) (p : cls) (caps : captures)
  (txt : string) (rest : list ascii) (k : cont) (r : captures) :
  truthy txt = true -> Bolt11.all_chars p txt = true -> stops p rest ->
  k ((name, txt) :: caps) rest = Some r ->
  rmatch (RGroup name (RPlus p)) caps (list_ascii_of_string txt ++ rest) k = Some r.
Proof.
  intros Htxt Hall Hstop H.
  destruct txt as [| c txt]; [discriminate |].
  unfold Bolt11.all_chars in Hall. cbn [list_ascii_of_string forallb] in Hall.
  apply andb_prop in Hall as [Hc Hall].
  cbn [rmatch list_ascii_of_string app]. rewrite Hc.
  apply star_greedy_prefix; [exact Hall |].
  rewrite star_greedy_stop by exact Hstop.
  change (c :: list_ascii_of_string txt ++ rest)%list
    with (list_ascii_of_string (String c txt) ++ rest)%list.
  now rewrite consumed_app, string_of_list_ascii_of_string.
Qed.

Lemma step_group (name : string) (p : cls) (R : regex) (caps : captures)
  (txt : string) (rest : list ascii) (k : cont) (r : captures) :
  truthy txt = true -> Bolt11.all_chars p txt = true -> stops p rest ->
  rmatch R ((name, txt) :: caps) rest k = Some r ->
  rmatch (RSeq (RGroup name (RPlus p)) R) caps
    (list_ascii_of_string txt ++ rest) k = Some r.
Proof.
  intros Htxt Hall Hstop H.
  change (rmatch (RSeq (RGroup name (RPlus p)) R) caps
            (list_ascii_of_string txt ++ rest) k)
    with (rmatch (RGroup name (RPlus p)) caps (list_ascii_of_string txt ++ rest)
            (fun caps' s' => rmatch R caps' s' k)).
  now apply step_group_end.
Qed.

Lemma step_scheme (scheme : string) (R : regex) (caps : captures)
  (rest : list ascii) (k : cont) (r : captures) :
  In scheme ["L402"; "LSAT"; "l402"; "lsat"] ->
  rmatch R caps rest k = Some r ->
  rmatch (RSeq SCHEME R) caps (list_ascii_of_string scheme ++ rest) k = Some r.
Proof.
  intros Hs H. cbn [In] in Hs.
  repeat (destruct Hs as [<- | Hs]; [cbn; now rewrite H |]).
  contradiction.
Qed.

Lemma truthy_of_trim (s : string) : truthy (trim s) = true -> truthy s = true.
Proof. now destruct s. Qed.

Lemma chr_i_refl (c : ascii) : chr_i c c = true.
Proof. unfold chr_i. apply Ascii.eqb_refl. Qed.

Lemma step_lit (l : string) (R : regex) (caps : captures) (rest : list ascii)
  (k : cont) (r : captures) :
  rmatch R caps rest k = Some r ->
  rmatch (RSeq (lit_i l) R) caps (list_ascii_of_string l ++ rest) k = Some r.
Proof.
  intro H. revert caps H. induction l as [| c l IH]; intros caps H; [exact H |].
  cbn [lit_i rmatch list_ascii_of_string app]. rewrite chr_i_refl.
  exact (IH caps H).
Qed.

Lemma step_char (p : cls) (c : ascii) (R : regex) (caps : captures)
  (rest : list ascii) (k : cont) (r : captures) :
  p c = true ->
  rmatch R caps rest k = Some r ->
  rmatch (RSeq (RChar p) R) caps (c :: rest) k = Some r.
Proof. intros Hc H. cbn [rmatch]. now rewrite Hc. Qed.

Lemma chr_dquote : chr dquote dquote = true.
Proof. reflexivity. Qed.

Lemma CHALLENGE_RE_matches (scheme mac inv : string) (rest : list ascii) :
  In scheme ["L402"; "LSAT"; "l402"; "lsat"] ->
  truthy mac = true -> Bolt11.all_chars not_dquote mac = true ->
  truthy inv = true -> Bolt11.all_chars not_dquote inv = true ->
  rmatch CHALLENGE_RE []
    (list_ascii_of_string scheme
       ++ " "%char :: list_ascii_of_string "macaroon="
       ++ dquote :: list_ascii_of_string mac
       ++ dquote :: ","%char :: " "%char :: list_ascii_of_string "invoice="
       ++ dquote :: list_ascii_of_string inv ++ dquote :: rest)%list
    accept
  = Some [("invoice", inv); ("macaroon", mac)].
Proof.
  intros Hs Tmac Hmac Tinv Hinv. unfold CHALLENGE_RE.
  apply step_scheme; [exact Hs |].
  apply (step_plus is_space _ _ " "%char []); [reflexivity .. |].
  apply (step_lit "macaroon=").
  apply step_char; [reflexivity |].
  apply step_group; [exact Tmac | exact Hmac | reflexivity |].
  apply step_char; [reflexivity |].
  apply (step_star is_space _ _ []); [reflexivity .. |].
  apply step_char; [reflexivity |].
  apply (step_star is_space _ _ [" "%char]); [reflexivity .. |].
  apply (step_lit "invoice=").
  apply step_char; [reflexivity |].
  apply step_group; [exact Tinv | exact Hinv | reflexivity |].
  reflexivity.
Qed.

Lemma header_chars (scheme mac inv rest : string) :
  list_ascii_of_string
    (scheme ++ " macaroon="
       ++ String dquote (mac ++ String dquote (", invoice="
            ++ String dquote (inv ++ String dquote rest))))
  = (list_ascii_of_string scheme
       ++ " "%char :: list_ascii_of_string "macaroon="
       ++ dquote :: list_ascii_of_string mac
       ++ dquote :: ","%char :: " "%char :: list_ascii_of_string "invoice="
       ++ dquote :: list_ascii_of_string inv
       ++ dquote :: list_ascii_of_string rest)%list.
Proof.
  rewrite list_ascii_of_string_app. f_equal.
  cbn [list_ascii_of_string String.append app]. do 11 f_equal.
  rewrite list_ascii_of_string_app. f_equal.
  cbn [list_ascii_of_string String.append app]. do 12 f_equal.
  rewrite list_ascii_of_string_app. reflexivity.
Qed.

(** X23.  The documented header, scheme [L402] or [LSAT], with the macaroon and
    the invoice in double quotes, is read back as its two values with the
    white space around them removed; what follows the closing quote does
    not matter. *)
Theorem parseChallenge_reads_the_quoted_format (scheme mac inv rest : string) :
  In scheme ["L402"; "LSAT"; "l402"; "lsat"] ->
  Bolt11.all_chars not_dquote mac = true ->
  Bolt11.all_chars not_dquote inv = true ->
  truthy (trim mac) = true ->
  truthy (trim inv) = true ->
  parseChallenge
    (scheme ++ " macaroon="
       ++ String dquote (mac ++ String dquote (", invoice="
            ++ String dquote (inv ++ String dquote rest))))
  = Ok {| macaroon := trim mac; invoice := trim inv |}.
Proof.
  intros Hs Hmac Hinv Tmac Tinv. unfold parseChallenge.
  assert (Hheader : truthy (scheme ++ " macaroon="
       ++ String dquote (mac ++ String dquote (", invoice="
            ++ String dquote (inv ++ String dquote rest)))) = true).
  { cbn [In] in Hs. repeat (destruct Hs as [<- | Hs]; [reflexivity |]).
    contradiction. }
  rewrite Hheader. cbn [negb].
  unfold exec at 1. rewrite header_chars.
  assert (Hsearch : forall s, rmatch CHALLENGE_RE [] s accept
                              = Some [("invoice", inv); ("macaroon", mac)] ->
                              search CHALLENGE_RE s
                              = Some [("invoice", inv); ("macaroon", mac)]).
  { intros s H. destruct s; cbn [search]; now rewrite H. }
  rewrite Hsearch
    by (apply CHALLENGE_RE_matches; auto using truthy_of_trim).
  cbn [group String.eqb Ascii.eqb Bool.eqb]. cbv zeta.
  now rewrite Tmac, Tinv.
Qed.

Lemma parseChallenge_reads_the_quoted_format_witness :
  parseChallenge Client.example_challenge
  = Ok {| macaroon := "mac1"; invoice := "lnbc10u1ptest" |}.
Proof.
  exact (parseChallenge_reads_the_quoted_format "L402" "mac1" "lnbc10u1ptest" ""
           (or_introl eq_refl) eq_refl eq_refl eq_refl eq_refl).
Defined.

Lemma step_opt_char (p : cls) (c : ascii) (R : regex) (caps : captures)
  (rest : list ascii) (k : cont) (r : captures) :
  p c = true ->
  rmatch R caps rest k = Some r ->
  rmatch (RSeq (ROpt (RChar p)) R) caps (c :: rest) k = Some r.
Proof. intros Hc H. cbn [rmatch]. now rewrite Hc, H. Qed.

(** The quoted pattern matches nothing in a text without double quote. *)
Lemma CHALLENGE_RE_needs_quote (caps : captures) (s : list ascii) (k : cont)
  (res : captures) :
  rmatch CHALLENGE_RE caps s k = Some res -> In dquote s.
Proof.
  unfold CHALLENGE_RE. cbn [rmatch]. intro H.
  destruct (rmatch_reaches _ _ _ _ _ H) as (c1 & pre1 & s1 & -> & _ & H1).
  destruct s1 as [| x s1]; [discriminate |].
  destruct (is_space x); [| discriminate].
  destruct (star_greedy_result _ _ _ _ _ H1) as (pre2 & s2 & -> & _ & H2).
  destruct (rmatch_reaches _ _ _ _ _ H2) as (c3 & pre3 & s3 & -> & _ & H3).
  destruct s3 as [| q s3]; [discriminate |].
  destruct (chr dquote q) eqn:Hq; [| discriminate].
  apply Ascii.eqb_eq in Hq. subst q.
  apply in_or_app. right. right.
  apply in_or_app. right. apply in_or_app. right. now left.
Qed.

Lemma search_without_quote (s : list ascii) :
  forallb not_dquote s = true -> search CHALLENGE_RE s = None.
Proof.
  assert (Hnone : forall s, forallb not_dquote s = true ->
                            rmatch CHALLENGE_RE [] s accept = None).
  { intros s' Hs'. destruct (rmatch CHALLENGE_RE [] s' accept) eqn:E; [| reflexivity].
    apply CHALLENGE_RE_needs_quote in E.
    rewrite forallb_forall in Hs'. specialize (Hs' _ E). discriminate. }
  induction s as [| c s IH]; intro Hs; cbn [search]; rewrite (Hnone _ Hs);
    [reflexivity |].
  cbn [forallb] in Hs. apply andb_prop in Hs as [_ Hs]. exact (IH Hs).
Qed.

Lemma CHALLENGE_NOQUOTE_RE_matches (scheme mac inv : string) :
  In scheme ["L402"; "LSAT"; "l402"; "lsat"] ->
  truthy mac = true -> Bolt11.all_chars not_space_comma mac = true ->
  truthy inv = true -> Bolt11.all_chars not_space_comma inv = true ->
  rmatch CHALLENGE_NOQUOTE_RE []
    (list_ascii_of_string scheme
       ++ " "%char :: list_ascii_of_string "macaroon="
       ++ list_ascii_of_string mac
       ++ ","%char :: " "%char :: list_ascii_of_string "invoice="
       ++ list_ascii_of_string inv ++ [])%list
    accept
  = Some [("invoice", inv); ("macaroon", mac)].
Proof.
  intros Hs Tmac Hmac Tinv Hinv. unfold CHALLENGE_NOQUOTE_RE.
  apply step_scheme; [exact Hs |].
  apply (step_plus is_space _ _ " "%char []); [reflexivity .. |].
  apply (step_lit "macaroon=").
  apply step_group; [exact Tmac | exact Hmac | reflexivity |].
  apply (step_star is_space _ _ []); [reflexivity .. |].
  apply step_opt_char; [reflexivity |].
  apply (step_star is_space _ _ [" "%char]); [reflexivity .. |].
  apply (step_lit "invoice=").
  apply step_group_end; [exact Tinv | exact Hinv | exact I |].
  reflexivity.
Qed.

Lemma plain_header_chars (scheme mac inv : string) :
  list_ascii_of_string (scheme ++ " macaroon=" ++ mac ++ ", invoice=" ++ inv)
  = (list_ascii_of_string scheme
       ++ " "%char :: list_ascii_of_string "macaroon="
       ++ list_ascii_of_string mac
       ++ ","%char :: " "%char :: list_ascii_of_string "invoice="
       ++ list_ascii_of_string inv ++ [])%list.
Proof.
  rewrite list_ascii_of_string_app. f_equal.
  cbn [list_ascii_of_string String.append app]. do 10 f_equal.
  rewrite list_ascii_of_string_app. f_equal.
  cbn [list_ascii_of_string String.append app]. do 10 f_equal.
  now rewrite app_nil_r.
Qed.

Lemma all_plain (s : string) :
  Bolt11.all_chars plain s = true ->
  Bolt11.all_chars not_space_comma s = true
  /\ forallb not_dquote (list_ascii_of_string s) = true
  /\ forallb (fun c => negb (is_space c)) (list_ascii_of_string s) = true.
Proof.
  unfold Bolt11.all_chars, plain.
  induction (list_ascii_of_string s) as [| c l IH]; cbn [forallb]; [auto |].
  intro H. apply andb_prop in H as [Hc Hl]. apply andb_prop in Hc as [H1 H2].
  destruct (IH Hl) as (-> & -> & ->). rewrite H1, H2.
  unfold not_space_comma in H1. apply negb_true_iff, orb_false_elim in H1 as [-> _].
  auto.
Qed.

Lemma trimEnd_without_space (s : string) :
  forallb (fun c => negb (is_space c)) (list_ascii_of_string s) = true ->
  trimEnd s = s.
Proof.
  induction s as [| c s IH]; [reflexivity |].
  cbn [list_ascii_of_string forallb trimEnd]. intro H.
  apply andb_prop in H as [Hc Hs]. apply negb_true_iff in Hc.
  rewrite (IH Hs), Hc. now destruct s.
Qed.

Lemma trim_without_space (s : string) :
  forallb (fun c => negb (is_space c)) (list_ascii_of_string s) = true ->
  trim s = s.
Proof.
  intro H. unfold trim.
  assert (Hstart : trimStart s = s).
  { destruct s as [| c s]; [reflexivity |].
    cbn [list_ascii_of_string forallb] in H. apply andb_prop in H as [Hc _].
    apply negb_true_iff in Hc. cbn [trimStart]. now rewrite Hc. }
  rewrite Hstart. now apply trimEnd_without_space.
Qed.

(** X24.  The header without quotes, [L402 macaroon=<mac>, invoice=<bolt11>],
    is read back as the two values, which have no white space, comma or
    double quote in them. *)
Theorem parseChallenge_reads_the_unquoted_format (scheme mac inv : string) :
  In scheme ["L402"; "LSAT"; "l402"; "lsat"] ->
  truthy mac = true -> Bolt11.all_chars plain mac = true ->
  truthy inv = true -> Bolt11.all_chars plain inv = true ->
  parseChallenge (scheme ++ " macaroon=" ++ mac ++ ", invoice=" ++ inv)
  = Ok {| macaroon := mac; invoice := inv |}.
Proof.
  intros Hs Tmac Hmac Tinv Hinv. unfold parseChallenge.
  destruct (all_plain mac Hmac) as (Hmac1 & Hmac2 & Hmac3).
  destruct (all_plain inv Hinv) as (Hinv1 & Hinv2 & Hinv3).
  assert (Hheader : truthy (scheme ++ " macaroon=" ++ mac ++ ", invoice=" ++ inv)
                    = true).
  { cbn [In] in Hs. repeat (destruct Hs as [<- | Hs]; [reflexivity |]).
    contradiction. }
  rewrite Hheader. cbn [negb].
  unfold exec. rewrite plain_header_chars.
  rewrite search_without_quote.
  - assert (Hsearch : forall s, rmatch CHALLENGE_NOQUOTE_RE [] s accept
                                = Some [("invoice", inv); ("macaroon", mac)] ->
                                search CHALLENGE_NOQUOTE_RE s
                                = Some [("invoice", inv); ("macaroon", mac)]).
    { intros s H. destruct s; cbn [search]; now rewrite H. }
    rewrite Hsearch by now apply CHALLENGE_NOQUOTE_RE_matches.
    cbn [group String.eqb Ascii.eqb Bool.eqb]. cbv zeta.
    rewrite (trim_without_space mac Hmac3), (trim_without_space inv Hinv3).
    now rewrite Tmac, Tinv.
  - rewrite forallb_app. apply andb_true_intro. split.
    { cbn [In] in Hs. repeat (destruct Hs as [<- | Hs]; [reflexivity |]).
      contradiction. }
    cbn [forallb list_ascii_of_string app].
    rewrite forallb_app, Hmac2. cbn [forallb andb].
    rewrite forallb_app, Hinv2. reflexivity.
Qed.

Lemma parseChallenge_reads_the_unquoted_format_witness :
  parseChallenge "LSAT macaroon=mac1, invoice=lnbc10u1ptest"
  = Ok {| macaroon := "mac1"; invoice := "lnbc10u1ptest" |}.
Proof.
  exact (parseChallenge_reads_the_unquoted_format "LSAT" "mac1" "lnbc10u1ptest"
           (or_intror (or_introl eq_refl)) eq_refl eq_refl eq_refl eq_refl).
Defined.

Lemma object_get_set (o : list (string * string)) (key v k : string) :
  object_get (object_set o key v) k
  = if String.eqb key k then Some v else object_get o k.
Proof.
  induction o as [| [k' v'] o IH]; cbn [object_set object_get].
  - reflexivity.
  - destruct (String.eqb_spec k' key) as [-> | Hne]; cbn [object_get].
    + now destruct (String.eqb key k).
    + rewrite IH. destruct (String.eqb_spec k' k) as [-> | Hk]; [| reflexivity].
      destruct (String.eqb_spec key k) as [E | _]; [now elim Hne | reflexivity].
Qed.

Lemma lower_snoc (entries : list (string * string)) (e : string * string)
  (o : list (string * string)) :
  fold_left (fun lower e => object_set lower (toLowerCase (fst e)) (snd e))
            (entries ++ [e]) o
  = object_set
      (fold_left (fun lower e => object_set lower (toLowerCase (fst e)) (snd e))
                 entries o)
      (toLowerCase (fst e)) (snd e).
Proof. now rewrite fold_left_app. Qed.

(** X25.  On a plain object the header is found under any spelling of its
    name, and of several entries with that name the last one counts;
    the entries under other names make no difference. *)
Theorem findL402Challenge_takes_the_last_entry
  (before after : list (string * string)) (name value : string) :
  toLowerCase name = "www-authenticate" ->
  Forall (fun e => toLowerCase (fst e) <> "www-authenticate") after ->
  findL402Challenge (PlainObject (before ++ (name, value) :: after))
  = findL402Challenge (PlainObject [("www-authenticate", value)]).
Proof.
  intros Hname Hafter. unfold findL402Challenge.
  replace (www_authenticate (PlainObject (before ++ (name, value) :: after)))
    with (Some value); [reflexivity |].
  unfold www_authenticate.
  revert Hafter. induction after as [| e after IH] using rev_ind; intro Hafter.
  - rewrite lower_snoc, object_get_set. cbn [fst snd]. now rewrite Hname.
  - apply Forall_app in Hafter as [Hafter He].
    apply Forall_inv in He.
    change (before ++ (name, value) :: after ++ [e])%list
      with (before ++ ((name, value) :: after) ++ [e])%list.
    rewrite app_assoc, lower_snoc, object_get_set, <- (IH Hafter).
    destruct (String.eqb_spec (toLowerCase (fst e)) "www-authenticate");
      [contradiction | reflexivity].
Qed.

Lemma findL402Challenge_takes_the_last_entry_witness :
  findL402Challenge
    (PlainObject [("WWW-Authenticate", "Basic"); ("Www-Authenticate", "Bearer");
                  ("Content-Type", "text/plain")])
  = findL402Challenge (PlainObject [("www-authenticate", "Bearer")]).
Proof.
  refine (findL402Challenge_takes_the_last_entry
            [("WWW-Authenticate", "Basic")] [("Content-Type", "text/plain")]
            "Www-Authenticate" "Bearer" eq_refl _).
  repeat constructor. discriminate.
Defined.

End ChallengeParsing.

(* ================================================================== *)
(** * More about src/bolt11.ts *)
(* ================================================================== *)

Section Bolt11Total.
Import JS Bolt11.







End Bolt11Total.

(* ================================================================== *)
(** * src/wallets/nwc.ts: the hexadecimal helpers *)
(* ================================================================== *)

Section HexFacts.
Import JS Nwc.

Lemma byte_round_trip (b : Byte.byte) :
  exists c1 c2,
    padStart_2 (toString_16 b) = String c1 (String c2 EmptyString)
    /\ ToUint8 (parseInt_16 (String c1 (String c2 EmptyString))) = b.
Proof. destruct b; do 2 eexists; split; reflexivity. Qed.

Lemma concat_cons_empty (s : string) (l : list string) :
  String.concat "" (s :: l) = (s ++ String.concat "" l)%string.
Proof.
  destruct l as [| s' l]; cbn [String.concat].
  - induction s as [| c s IH]; [reflexivity |].
    cbn [String.append]. now rewrite <- IH.
  - reflexivity.
Qed.

Lemma hexToBytes_length (hex : string) :
  List.length (hexToBytes hex) = Nat.div2 (String.length hex).
Proof.
  unfold hexToBytes.
  assert (G : forall n hex, (String.length hex <= n)%nat ->
            List.length (hexToBytes_from hex) = Nat.div2 (String.length hex)).
  { induction n as [| n IH]; intros [| c1 [| c2 rest]] Hn;
      cbn [hexToBytes_from String.length List.length Nat.div2] in *;
      try reflexivity; try lia.
    rewrite IH by lia. reflexivity. }
  now apply (G (String.length hex)).
Qed.

(** X27.  The bytes written as hexadecimal text are read back unchanged, and
    the text has two characters for each byte.  [hexToBytes] returns
    half as many bytes as its argument has characters, rounded down: a
    last character without a partner is dropped. *)
Theorem hex_round_trip (bytes : Uint8Array) (hex : string) :
  hexToBytes (bytesToHex bytes) = bytes
  /\ String.length (bytesToHex bytes) = (2 * List.length bytes)%nat
  /\ List.length (hexToBytes hex) = Nat.div2 (String.length hex).
Proof.
  split; [| split; [| apply hexToBytes_length]].
  - unfold hexToBytes, bytesToHex.
    induction bytes as [| b bytes IH]; [reflexivity |].
    cbn [map]. rewrite concat_cons_empty.
    destruct (byte_round_trip b) as (c1 & c2 & -> & Hb).
    cbn [String.append hexToBytes_from]. now rewrite Hb, IH.
  - unfold bytesToHex.
    induction bytes as [| b bytes IH]; [reflexivity |].
    cbn [map]. rewrite concat_cons_empty.
    destruct (byte_round_trip b) as (c1 & c2 & -> & _).
    cbn [String.append String.length List.length]. rewrite IH. lia.
Qed.

End HexFacts.

(* ================================================================== *)
(** * spending-log.ts: totals *)
(* ================================================================== *)

Section SpendingLogFacts.
Import SpendingLog.

Lemma sum_from (rs : list PaymentRecord) (a : Z) :
  fold_left (fun sum r => sum + amountSats r) rs a = a + sum rs.
Proof.
  unfold sum. revert a. induction rs as [| r rs IH]; intro a; simpl; [lia |].
  rewrite IH, (IH (amountSats r)). lia.
Qed.

Lemma sum_app (rs qs : list PaymentRecord) : sum (rs ++ qs) = sum rs + sum qs.
Proof. unfold sum at 1. rewrite fold_left_app, sum_from. reflexivity. Qed.

Lemma sum_single (r : PaymentRecord) : sum [r] = amountSats r.
Proof. reflexivity. Qed.

(** X11.  [record] appends one entry and nothing else; the totals grow by the
    amount when the attempt succeeded, and not at all when it failed.  A
    payment counts in the hourly (daily) total at time [t] when it was
    recorded at [t - 3,600,000] ([t - 86,400,000]) or later. *)
Theorem record_counts_successes_only (l : SpendingLog) (now t : Z)
  (d p : string) (a : Z) (pre : string) (ok : bool) :
  let entry := fst (record l now d p a pre ok) in
  let l' := snd (record l now d p a pre ok) in
  records l' = (records l ++ [entry])%list
  /\ entry = {| domain := d; path := p; amountSats := a; preimage := pre;
                timestamp := now; success := ok |}
  /\ totalSpent l' = totalSpent l + (if ok then a else 0)
  /\ spentLastHour l' t
     = spentLastHour l t + (if (ok && (t - 3600000 <=? now))%bool then a else 0)
  /\ spentToday l' t
     = spentToday l t + (if (ok && (t - 86400000 <=? now))%bool then a else 0).
Proof.
  cbv zeta. unfold record, records, totalSpent, spentLastHour, spentToday.
  cbn [fst snd _records]. rewrite !filter_app, !sum_app.
  cbn [filter success SpendingLog.timestamp]. rewrite !Z.geb_leb.
  repeat split;
    destruct ok; cbn [andb];
    repeat match goal with
           | |- context [?x <=? ?y] => destruct (x <=? y)
           end; unfold sum; simpl; lia.
Qed.

Lemma sum_nonneg (rs : list PaymentRecord) :
  Forall (fun r => 0 <= amountSats r) rs -> 0 <= sum rs.
Proof.
  induction 1 as [| r rs Hr _ IH]; [reflexivity |].
  change (r :: rs) with ([r] ++ rs)%list. rewrite sum_app, sum_single. lia.
Qed.

Lemma sum_filter_le (f g : PaymentRecord -> bool) (rs : list PaymentRecord) :
  Forall (fun r => 0 <= amountSats r) rs ->
  (forall r, f r = true -> g r = true) ->
  sum (filter f rs) <= sum (filter g rs).
Proof.
  intros Hrs Hfg. induction Hrs as [| r rs Hr _ IH]; [reflexivity |].
  cbn [filter]. destruct (f r) eqn:Ef.
  - rewrite (Hfg r Ef).
    change (r :: filter f rs) with ([r] ++ filter f rs)%list.
    change (r :: filter g rs) with ([r] ++ filter g rs)%list.
    rewrite !sum_app. lia.
  - destruct (g r); [| exact IH].
    change (r :: filter g rs) with ([r] ++ filter g rs)%list.
    rewrite sum_app, sum_single. lia.
Qed.

(** X12.  When no amount is negative, the hourly total is at most the daily
    total, which is at most the total; and no total is negative. *)
Theorem spending_totals_are_ordered (l : SpendingLog) (t : Z) :
  Forall (fun r => 0 <= amountSats r) (records l) ->
  0 <= spentLastHour l t
  /\ spentLastHour l t <= spentToday l t
  /\ spentToday l t <= totalSpent l.
Proof.
  unfold records, spentLastHour, spentToday, totalSpent. intro H.
  repeat split.
  - apply sum_nonneg. apply Forall_forall. intros r Hr.
    apply filter_In in Hr as [Hr _]. rewrite Forall_forall in H. now apply H.
  - apply sum_filter_le; [assumption |]. intros r Hr.
    apply andb_prop in Hr as [-> Hr]. rewrite Z.geb_leb in *.
    apply Z.leb_le in Hr. cbn [andb]. apply Z.leb_le. lia.
  - apply sum_filter_le; [assumption |]. intros r Hr.
    now apply andb_prop in Hr as [-> _].
Qed.

Lemma spending_totals_are_ordered_witness :
  let l := snd (record (snd (record constructor 0 "a.com" "/api" 500 "pre1" true))
                       7200000 "a.com" "/api" 300 "pre2" true) in
  spentLastHour l 7200000 <= spentToday l 7200000 <= totalSpent l.
Proof.
  intro l.
  destruct (spending_totals_are_ordered l 7200000) as (_ & H1 & H2).
  - repeat constructor; simpl; lia.
  - split; [exact H1 | exact H2].
Defined.

(** ** By domain *)

Lemma own_assign_same (o : totals) (key : string) (v : total) :
  own (assign o key v) key = Some v.
Proof.
  induction o as [| [k v'] o IH]; simpl.
  - now rewrite String.eqb_refl.
  - destruct (String.eqb_spec k key) as [-> | Hne]; simpl.
    + now rewrite String.eqb_refl.
    + destruct (String.eqb_spec k key); [contradiction | exact IH].
Qed.

Lemma own_assign_other (o : totals) (key d : string) (v : total) :
  key <> d -> own (assign o key v) d = own o d.
Proof.
  intro Hne. induction o as [| [k v'] o IH]; simpl.
  - destruct (String.eqb_spec key d); [contradiction | reflexivity].
  - destruct (String.eqb_spec k key) as [-> | Hk]; simpl.
    + destruct (String.eqb_spec key d); [contradiction | reflexivity].
    + now rewrite IH.
Qed.

Lemma own_add_other (o : totals) (key d : string) (a : Z) :
  key <> d -> own (add o key a) d = own o d.
Proof.
  intro Hne. unfold add. destruct (String.eqb key "__proto__"); [reflexivity |].
  now apply own_assign_other.
Qed.

Lemma byDomain_snoc (rs : list PaymentRecord) (r : PaymentRecord) :
  byDomain {| _records := rs ++ [r] |}
  = if success r
    then add (byDomain {| _records := rs |}) (domain r) (amountSats r)
    else byDomain {| _records := rs |}.
Proof. unfold byDomain. cbn [_records]. now rewrite fold_left_app. Qed.

Lemma spent_on_snoc (d : string) (rs : list PaymentRecord) (r : PaymentRecord) :
  spent_on d (rs ++ [r])
  = spent_on d rs
    + (if (success r && String.eqb (domain r) d)%bool then amountSats r else 0).
Proof.
  induction rs as [| x rs IH]; cbn [app spent_on fold_right].
  - destruct (success r && String.eqb (domain r) d)%bool; lia.
  - fold (spent_on d (rs ++ [r])). fold (spent_on d rs). rewrite IH.
    destruct (success x && String.eqb (domain x) d)%bool; lia.
Qed.

Lemma paid_to_snoc (d : string) (rs : list PaymentRecord) (r : PaymentRecord) :
  paid_to d (rs ++ [r])
  = (paid_to d rs || (success r && String.eqb (domain r) d))%bool.
Proof. unfold paid_to. rewrite existsb_app. simpl. now rewrite orb_false_r. Qed.

Lemma paid_to_false_spent (d : string) (rs : list PaymentRecord) :
  paid_to d rs = false -> spent_on d rs = 0.
Proof.
  induction rs as [| r rs IH]; [reflexivity |]. unfold paid_to. simpl.
  intro H. apply orb_false_elim in H as [-> H]. now apply IH.
Qed.

(** X13.  [byDomain()] holds, for each domain with a successful payment, the sum
    of its successful payments, and no property for another domain;
    failed attempts are left out.  This is so unless the domain is the
    name of a member of [Object.prototype]: under such a name the total is
    text instead of a number, and [__proto__] gets no property at all. *)
Theorem byDomain_sums_successes (l : SpendingLog) (d : string) :
  own (byDomain l) d =
    if paid_to d (records l) then
      if inherited d then
        if String.eqb d "__proto__" then None else Some Text
      else Some (Sats (spent_on d (records l)))
    else None.
Proof.
  destruct l as [rs]. unfold records. cbn [_records].
  induction rs as [| r rs IH] using rev_ind; [reflexivity |].
  rewrite byDomain_snoc, paid_to_snoc, spent_on_snoc.
  destruct (success r) eqn:Es; cbn [andb];
    [| rewrite orb_false_r, IH, Z.add_0_r; reflexivity].
  destruct (String.eqb_spec (domain r) d) as [E | Hne].
  - rewrite orb_true_r. subst d. unfold add, read. rewrite IH.
    destruct (String.eqb_spec (domain r) "__proto__") as [Ep | Hp].
    + rewrite IH, Ep. cbn. now destruct (paid_to "__proto__" rs).
    + destruct (paid_to (domain r) rs) eqn:Epaid.
      * destruct (inherited (domain r)); rewrite own_assign_same; reflexivity.
      * rewrite (paid_to_false_spent _ _ Epaid).
        destruct (inherited (domain r)); rewrite own_assign_same; reflexivity.
  - rewrite orb_false_r, Z.add_0_r, own_add_other by assumption. exact IH.
Qed.

End SpendingLogFacts.

(* ================================================================== *)
(** * client.ts: what a call does and does not do *)
(* ================================================================== *)

Section HeadersFacts.
Import JS Challenge.

Lemma lower_char_idem (c : ascii) : lower_char (lower_char c) = lower_char c.
Proof. destruct c as [[] [] [] [] [] [] [] []]; reflexivity. Qed.

Lemma toLowerCase_idem (s : string) : toLowerCase (toLowerCase s) = toLowerCase s.
Proof.
  induction s as [| c s IH]; [reflexivity |].
  cbn [toLowerCase]. now rewrite lower_char_idem, IH.
Qed.

Lemma same_name_lower (n m : string) : same_name (toLowerCase n) m = same_name n m.
Proof. unfold same_name. now rewrite toLowerCase_idem. Qed.

Lemma same_name_trans_false (a n m : string) :
  same_name n m = true -> same_name a n = false -> same_name a m = false.
Proof.
  unfold same_name. intros Hnm Han.
  apply String.eqb_eq in Hnm. now rewrite <- Hnm.
Qed.

Lemma filter_same_name_others (h : Headers) (n m : string) :
  same_name n m = true ->
  filter (fun e => same_name (fst e) m)
         (filter (fun e => negb (same_name (fst e) n)) h) = [].
Proof.
  intro Hnm. induction h as [| e h IH]; [reflexivity |].
  cbn [filter]. destruct (same_name (fst e) n) eqn:E; cbn [negb]; [exact IH |].
  cbn [filter]. now rewrite (same_name_trans_false _ _ _ Hnm E).
Qed.

(** [set] then [get], under any spelling of the name. *)
Lemma Headers_get_set (h : Headers) (n v m : string) :
  same_name n m = true -> Headers_get (Headers_set h n v) m = Some v.
Proof.
  intro Hnm. unfold Headers_get.
  induction h as [| e h IH]; cbn [Headers_set].
  - cbn [filter fst]. now rewrite same_name_lower, Hnm.
  - destruct (same_name (fst e) n) eqn:E.
    + cbn [filter fst]. rewrite same_name_lower, Hnm.
      now rewrite filter_same_name_others.
    + cbn [filter]. now rewrite (same_name_trans_false _ _ _ Hnm E).
Qed.

End HeadersFacts.

Section ClientProtocol.
Import JS Challenge Client.

Ltac unfold_fetch :=
  unfold exec, fetch, cache_get, cache_put, budget_check, budget_recordPayment,
    spendingLog_record, wallet_payInvoice, _getWallet, global_fetch, Date_now,
    try_catch, when, bind, lift, ret, raise, diverge, get_client, get_trace,
    emit, update in *.

Ltac innermost_scrutinee x :=
  match x with
  | context [match ?y with _ => _ end] => innermost_scrutinee y
  | _ => first [ is_var x; destruct x
               | let E := fresh "E" in destruct x eqn:E ]
  end.

Ltac branch H :=
  match type of H with
  | context [match ?x with _ => _ end] =>
      innermost_scrutinee x; cbn [client log fst snd] in H
  end.

(** Runs [fetch] symbolically: one goal per path through the function. *)
Ltac paths H :=
  unfold_fetch; cbn [client log] in H; repeat branch H;
  injection H as <- <-; cbn [log app client] in *.

(** X1.  A call makes at most two HTTP requests, at most one payment, at most
    one budget check and at most one wallet detection; there is a second
    request only after a payment, and what it yields, whatever its status,
    is what the call yields. *)
Theorem fetch_retries_at_most_once (w : World) (c : L402Client)
  (url : string) (init : option RequestInit)
  (out : outcome Response) (s' : state) :
  exec (fetch w url init) c = (out, s') ->
  (List.length (fetched (log s')) <= 2)%nat
  /\ (List.length (paid (log s')) <= 1)%nat
  /\ (List.length (checked (log s')) <= 1)%nat
  /\ (detections (log s') <= 1)%nat
  /\ (paid (log s') <> [] -> fetched (log s') <> [])
  /\ (forall r1 r2,
         fetched (log s') = [r1; r2] ->
         List.length (paid (log s')) = 1%nat
         /\ out = awaited (http w (removelast (log s')) r2)).
Proof.
  intro H. paths H.
  all: cbn [fetched paid checked detections flat_map filter app List.length removelast].
  all: do 4 (split; [lia |]).
  all: split; [first [intros _; discriminate | intro Hp; now destruct Hp] |].
  all: intros r1 r2 Hf; try discriminate Hf; injection Hf as <- <-.
  all: split; [reflexivity |].
  all: match goal with
       | E : http _ _ _ = _ |- _ = awaited (http _ _ _) =>
           exact (eq_sym (f_equal awaited E))
       end.
Qed.

(** Two hypotheses about the same call of [http], up to conversion. *)
Ltac same_response Hhttp :=
  match goal with
  | E : http _ [] _ = ?x |- _ =>
      tryif constr_eq E Hhttp then fail
      else (let Hsame := fresh "Hsame" in
            pose proof (eq_trans (eq_sym E) Hhttp) as Hsame;
            first [discriminate Hsame | injection Hsame as ->])
  end.

Ltac same_url Hurl :=
  first [discriminate Hurl | injection Hurl as -> ->].

(** X2.  A response that is not a 402 is returned as it is: one request, no
    payment, and the budget, the spending log and the wallet are left
    alone. *)
Theorem fetch_passes_other_responses_through (w : World) (c : L402Client)
  (url : string) (init : option RequestInit)
  (out : outcome Response) (s' : state)
  (req : Request) (rest : trace) (r : Response) :
  exec (fetch w url init) c = (out, s') ->
  log s' = EvFetch req :: rest ->
  http w [] req = Ok r ->
  status r <> 402 ->
  out = Returned r /\ rest = []
  /\ _budget (client s') = _budget c
  /\ spendingLog (client s') = spendingLog c
  /\ _wallet (client s') = _wallet c.
Proof.
  intro H. paths H.
  all: intros Hlog Hhttp Hstatus; try discriminate Hlog.
  all: injection Hlog as <- <-.
  all: same_response Hhttp.
  all: try match goal with
           | E : negb (status _ =? 402) = false |- _ =>
               apply negb_false_iff, Z.eqb_eq in E; contradiction
           end.
  all: repeat split.
Qed.

Lemma fetch_passes_other_responses_through_witness :
  let w := {| parseURL := fun _ => Some ("api.example.com", "/free");
              now := fun _ => 0;
              http := fun _ _ => Ok {| status := 200; resp_headers := [];
                                       resp_body := "ok" |};
              autoDetectWallet := fun _ => Throw NoWalletError |} in
  let run := exec (get w "https://api.example.com/free" None) (example_client 1000) in
  fst run = Returned {| status := 200; resp_headers := []; resp_body := "ok" |}
  /\ List.length (log (snd run)) = 1%nat.
Proof.
  intros w run.
  destruct (fetch_passes_other_responses_through w (example_client 1000)
              "https://api.example.com/free" (with_method "GET" None)
              (fst run) (snd run)
              {| req_url := "https://api.example.com/free";
                 req_init := {| method := Some "GET"; headers := None;
                                body := None; others := [] |};
                 req_headers := []; req_body := None |}
              []
              {| status := 200; resp_headers := []; resp_body := "ok" |})
    as (Hout & _).
  - apply surjective_pairing.
  - reflexivity.
  - reflexivity.
  - discriminate.
  - split; [exact Hout | reflexivity].
Defined.

Lemma check_ok (b : Budget.BudgetController) (now amountSats : Z)
  (domain : option string) :
  fst (Budget.check b now amountSats domain) = Ok tt ->
  Budget.domain_rejected b domain = None
  /\ amountSats <= Budget.maxSatsPerRequest b
  /\ Budget.trailing_sum Budget.HOUR now (Budget._payments b) + amountSats
     <= Budget.maxSatsPerHour b
  /\ Budget.trailing_sum Budget.DAY now (Budget._payments b) + amountSats
     <= Budget.maxSatsPerDay b.
Proof.
  rewrite check_verdict.
  destruct (Budget.domain_rejected b domain); [discriminate |].
  destruct (Z.gtb_spec amountSats (Budget.maxSatsPerRequest b)); [discriminate |].
  destruct (Z.gtb_spec (Budget.trailing_sum Budget.HOUR now (Budget._payments b)
                        + amountSats) (Budget.maxSatsPerHour b)); [discriminate |].
  destruct (Z.gtb_spec (Budget.trailing_sum Budget.DAY now (Budget._payments b)
                        + amountSats) (Budget.maxSatsPerDay b)); [discriminate |].
  intros _. repeat split; lia.
Qed.

(** X3.  What a call pays is the invoice of the challenge in its first
    response, and nothing else.  With a budget configured and the amount
    of the invoice known, the payment comes after a check of that amount
    that passed: the amount is within the per-request limit, and with the
    payments of the last hour and day within the hourly and daily
    limits. *)
Theorem fetch_pays_only_what_the_budget_allows (w : World) (c : L402Client)
  (url : string) (init : option RequestInit)
  (out : outcome Response) (s' : state) (bolt11 : string) :
  exec (fetch w url init) c = (out, s') ->
  In (EvPayInvoice bolt11) (log s') ->
  exists req r ch domain pathname,
    parseURL w url = Some (domain, pathname)
    /\ hd_error (log s') = Some (EvFetch req)
    /\ http w [] req = Ok r
    /\ status r = 402
    /\ findL402Challenge (HeadersObject (resp_headers r)) = Some ch
    /\ invoice ch = bolt11
    /\ paid (log s') = [bolt11]
    /\ forall b a,
         _budget c = Some b ->
         Bolt11.extractAmountSats bolt11 = Ok (Some a) ->
         let t := now w [EvFetch req] in
         checked (log s') = [(a, domain, Ok tt)]
         /\ Budget.domain_rejected b (Some domain) = None
         /\ a <= Budget.maxSatsPerRequest b
         /\ Budget.trailing_sum Budget.HOUR t (Budget._payments b) + a
            <= Budget.maxSatsPerHour b
         /\ Budget.trailing_sum Budget.DAY t (Budget._payments b) + a
            <= Budget.maxSatsPerDay b.
Proof.
  intro H. paths H.
  all: intro Hin; repeat (destruct Hin as [Hin | Hin]; try discriminate Hin).
  all: try contradiction.
  all: injection Hin as <-.
  all: match goal with
       | E : negb (status _ =? 402) = false |- _ =>
           apply negb_false_iff, Z.eqb_eq in E
       end.
  all: do 5 eexists.
  all: split; [reflexivity |].
  all: split; [reflexivity |].
  all: split; [eassumption |].
  all: split; [assumption |].
  all: split; [eassumption |].
  all: split; [reflexivity |].
  all: split; [reflexivity |].
  all: cbn [_budget set_cache set_budget] in *.
  all: intros b' a' Hb Ha; try congruence.
  all: match goal with
       | E1 : Bolt11.extractAmountSats _ = _ |- _ =>
           rewrite E1 in Ha; try discriminate Ha; injection Ha as <-
       end.
  all: match goal with
       | E1 : _budget _ = _ |- _ =>
           tryif constr_eq E1 Hb then fail
           else (rewrite E1 in Hb; try discriminate Hb; injection Hb as <-)
       end.
  all: match goal with
       | Hc : Budget.check ?b ?t ?a ?d = (Ok ?u, _) |- _ =>
           destruct u;
           assert (Hv : fst (Budget.check b t a d) = Ok tt) by now rewrite Hc
       end.
  all: split; [reflexivity |].
  all: exact (check_ok _ _ _ _ Hv).
Qed.



(** Rewrites the scrutinee of a [match] in the goal with what the path
    has established about it. *)
Ltac settle_matches :=
  repeat match goal with
         | E : ?x = _ |- context [match ?x with _ => _ end] => rewrite E
         end.



(** X7.  Every budget check of a call is the check of the configured budget,
    at the time the first response arrived, for the amount of the invoice
    in the challenge of that response and the host name of the URL.  So a
    client without a budget, and a challenge whose invoice has no amount,
    lead to no check. *)
Theorem fetch_checks_the_invoice_amount (w : World) (c : L402Client)
  (url : string) (init : option RequestInit)
  (out : outcome Response) (s' : state)
  (a : Z) (d : string) (v : result unit) :
  exec (fetch w url init) c = (out, s') ->
  In (a, d, v) (checked (log s')) ->
  exists b r1 r ch pathname,
    _budget c = Some b
    /\ parseURL w url = Some (d, pathname)
    /\ hd_error (log s') = Some (EvFetch r1)
    /\ http w [] r1 = Ok r
    /\ findL402Challenge (HeadersObject (resp_headers r)) = Some ch
    /\ Bolt11.extractAmountSats (invoice ch) = Ok (Some a)
    /\ v = fst (Budget.check b (now w [EvFetch r1]) a (Some d)).
Proof.
  intro H. paths H.
  all: cbn [checked flat_map app In].
  all: intro Hin; repeat (destruct Hin as [Hin | Hin]; try discriminate Hin).
  all: try contradiction.
  all: injection Hin as <- <- <-.
  all: do 5 eexists.
  all: split; [eassumption |].
  all: split; [reflexivity |].
  all: split; [reflexivity |].
  all: split; [eassumption |].
  all: split; [eassumption |].
  all: split; [eassumption |].
  all: match goal with
       | Hc : Budget.check _ _ _ _ = _ |- _ => exact (eq_sym (f_equal fst Hc))
       end.
Qed.

(** X8.  A challenge whose invoice states no amount is paid without a budget
    check, whatever the limits and the allowed domains are, and the
    payment shows neither in the budget nor in the spending log. *)
Theorem fetch_pays_amountless_invoices_unchecked (w : World) (c : L402Client)
  (url : string) (init : option RequestInit)
  (out : outcome Response) (s' : state)
  (r1 : Request) (r : Response) (ch : L402Challenge) (wal : Wallet) :
  exec (fetch w url init) c = (out, s') ->
  hd_error (log s') = Some (EvFetch r1) ->
  http w [] r1 = Ok r ->
  status r = 402 ->
  findL402Challenge (HeadersObject (resp_headers r)) = Some ch ->
  Bolt11.extractAmountSats (invoice ch) = Ok None ->
  _wallet c = Some wal ->
  checked (log s') = []
  /\ paid (log s') = [invoice ch]
  /\ _budget (client s') = _budget c
  /\ spendingLog (client s') = spendingLog c.
Proof.
  intro H. paths H.
  all: cbn [hd_error].
  all: intros Hhd Hhttp Hstatus Hch Hamount Hwal; try discriminate Hhd.
  all: injection Hhd as <-.
  all: same_response Hhttp.
  all: try match goal with
           | E : negb (status _ =? 402) = true |- _ =>
               apply negb_true_iff, Z.eqb_neq in E; contradiction
           end.
  all: cbn [spendingLog _budget _wallet _cache set_cache set_budget
            set_spendingLog set_wallet] in *.
  all: try congruence.
  all: match goal with
       | E : findL402Challenge _ = _ |- _ =>
           tryif constr_eq E Hch then fail
           else (rewrite E in Hch; injection Hch as <-)
       end.
  all: try congruence.
  all: repeat split.
Qed.

Lemma fetch_requests_shape (w : World) (c : L402Client)
  (url : string) (init : option RequestInit)
  (out : outcome Response) (s' : state) (r : Request) :
  exec (fetch w url init) c = (out, s') ->
  In r (fetched (log s')) ->
  req_url r = url
  /\ req_init r = spread (_fetchOptions c) (Budget.nullish init no_init).
Proof.
  intro H. paths H.
  all: cbn [fetched flat_map app In].
  all: intro Hin; repeat (destruct Hin as [Hin | Hin]; try contradiction).
  all: try contradiction.
  all: subst r; split; reflexivity.
Qed.

(** X9.  Each verb method sends its own HTTP method, whatever the options of
    the call and the default options of the client say, on the first
    request and on the retry alike, and sends it to the URL given; the
    other options are merged as [fetch] merges them. *)
Theorem verbs_set_the_method (w : World) (c : L402Client)
  (m : string) (f : World -> string -> option RequestInit -> M Response)
  (url : string) (init : option RequestInit)
  (out : outcome Response) (s' : state) (r : Request) :
  In (m, f) verbs ->
  exec (f w url init) c = (out, s') ->
  In r (fetched (log s')) ->
  method (req_init r) = Some m
  /\ req_url r = url
  /\ headers (req_init r)
     = or_else (headers (Budget.nullish init no_init)) (headers (_fetchOptions c))
  /\ body (req_init r)
     = or_else (body (Budget.nullish init no_init)) (body (_fetchOptions c)).
Proof.
  intros Hverb H Hin.
  assert (Hfetch : f w url init = fetch w url (with_method m init)).
  { cbn [verbs In] in Hverb.
    repeat (destruct Hverb as [Hverb | Hverb];
            [injection Hverb as <- <-; reflexivity |]).
    contradiction. }
  rewrite Hfetch in H.
  destruct (fetch_requests_shape _ _ _ _ _ _ _ H Hin) as (Hu & Hi).
  rewrite Hi. now split.
Qed.

Lemma get_keeps_settings (k : Cache.CredentialCache) (now : Z) (d p : string) :
  Cache._maxSize (snd (Cache.get k now d p)) = Cache._maxSize k
  /\ Cache._defaultTtlMs (snd (Cache.get k now d p)) = Cache._defaultTtlMs k.
Proof.
  unfold Cache.get.
  destruct (Cache.Map_get _ _); [| now split].
  destruct (Cache.expired _ _); now split.
Qed.

Lemma put_keeps_settings (k k' : Cache.CredentialCache) (now : Z)
  (d p mac pre : string) (e : option (option Z)) (cred : Cache.L402Credential) :
  Cache.put k now d p mac pre e = Some (cred, k') ->
  Cache._maxSize k' = Cache._maxSize k
  /\ Cache._defaultTtlMs k' = Cache._defaultTtlMs k.
Proof.
  unfold Cache.put. destruct (Cache.evict _ _); [| discriminate].
  intros [= _ <-]. now split.
Qed.

(** X10.  A call leaves the configuration of the client alone: the default
    options, the capacity and the time to live of the cache, the limits
    and the allowed domains of the budget, a disabled budget stays
    disabled, and a wallet that is set stays the wallet.  The spending
    log only grows, by one record at most. *)
Theorem fetch_keeps_the_configuration (w : World) (c : L402Client)
  (url : string) (init : option RequestInit)
  (out : outcome Response) (s' : state) :
  exec (fetch w url init) c = (out, s') ->
  _fetchOptions (client s') = _fetchOptions c
  /\ Cache._maxSize (_cache (client s')) = Cache._maxSize (_cache c)
  /\ Cache._defaultTtlMs (_cache (client s')) = Cache._defaultTtlMs (_cache c)
  /\ match _budget c with
     | Some b => exists b', _budget (client s') = Some b' /\ same_limits b b'
     | None => _budget (client s') = None
     end
  /\ (forall wal, _wallet c = Some wal -> _wallet (client s') = Some wal)
  /\ exists new,
       SpendingLog.records (spendingLog (client s'))
       = (SpendingLog.records (spendingLog c) ++ new)%list
       /\ (List.length new <= 1)%nat.
Proof.
  intro H. paths H.
  all: cbn [spendingLog _budget _wallet _cache _fetchOptions set_cache set_budget
            set_spendingLog set_wallet
            SpendingLog.record SpendingLog.records SpendingLog._records snd] in *.
  all: try congruence.
  all: repeat match goal with
              | E : Some _ = Some _ |- _ => injection E as <-
              end.
  all: split; [reflexivity |].
  all: repeat match goal with
              | E : Cache.put _ _ _ _ _ _ _ = Some _ |- _ =>
                  apply put_keeps_settings in E; cbn [_cache set_cache set_budget
                    set_spendingLog set_wallet] in E; destruct E as [-> ->]
              end.
  all: repeat match goal with
              | E : Cache.get ?k ?t ?d ?p = (_, ?k') |- _ =>
                  let G := fresh "G" in
                  pose proof (get_keeps_settings k t d p) as G;
                  rewrite E in G; cbn [snd] in G; destruct G as [-> ->]; clear E
              end.
  all: split; [reflexivity |].
  all: split; [reflexivity |].
  all: split;
    [| split; [intros wal Hw; congruence |
               first [ exists []; split; [now rewrite app_nil_r | cbn; lia]
                     | eexists [_]; split; [reflexivity | cbn; lia] ] ] ].
  all: settle_matches; try reflexivity.
  all: try (destruct (_budget c);
            [eexists; split; [reflexivity | now repeat split] | reflexivity]).
  all: eexists; split; [reflexivity |].
  all: try (now repeat split).
  all: match goal with
       | Hc : Budget.check ?b ?t ?a ?d = (_, ?b1) |- _ =>
           let G := fresh "G" in
           pose proof (check_keeps_limits b t a d) as G;
           rewrite Hc in G; exact G
       end.
Qed.

Lemma fetch_caches_the_credential (w : World) (c : L402Client)
  (url : string) (init : option RequestInit)
  (out : outcome Response) (s' : state) (r1 r2 : Request) (d p : string) :
  exec (fetch w url init) c = (out, s') ->
  parseURL w url = Some (d, p) ->
  fetched (log s') = [r1; r2] ->
  exists k0 cred mac preimage,
    Cache.put k0 (now w (removelast (log s'))) d p mac preimage None
    = Some (cred, _cache (client s'))
    /\ Cache._maxSize k0 = Cache._maxSize (_cache c)
    /\ Cache._defaultTtlMs k0 = Cache._defaultTtlMs (_cache c)
    /\ req_headers r2
       = Headers_set (Budget.nullish (headers (req_init r1)) []) "Authorization"
           ("L402 " ++ mac ++ ":" ++ preimage)%string.
Proof.
  intro H. paths H.
  all: intro Hurl; same_url Hurl.
  all: cbn [fetched flat_map app].
  all: intro Hf; try discriminate Hf; injection Hf as <- <-.
  all: cbn [spendingLog _budget _wallet _cache _fetchOptions set_cache set_budget
            set_spendingLog set_wallet removelast app req_headers req_init] in *.
  all: do 4 eexists.
  all: split; [eassumption |].
  all: match goal with
       | E : Cache.get ?k ?t ?d ?p = (_, ?k') |- _ =>
           let G := fresh "G" in
           pose proof (get_keeps_settings k t d p) as G;
           rewrite E in G; cbn [snd] in G; destruct G as [G1 G2]
       end.
  all: split; [assumption |].
  all: split; [assumption | reflexivity].
Qed.

Lemma fetch_first_request (w : World) (c : L402Client)
  (url : string) (init : option RequestInit)
  (out : outcome Response) (s' : state) (q : Request) (d p : string) :
  exec (fetch w url init) c = (out, s') ->
  parseURL w url = Some (d, p) ->
  hd_error (log s') = Some (EvFetch q) ->
  req_headers q
  = match fst (Cache.get (_cache c) (now w []) d p) with
    | Some cred =>
        Headers_set (Budget.nullish (headers (req_init q)) []) "Authorization"
          (Cache.authorizationHeader cred)
    | None => Budget.nullish (headers (req_init q)) []
    end.
Proof.
  intro H. paths H.
  all: intro Hurl; same_url Hurl.
  all: cbn [hd_error].
  all: intro Hq; try discriminate Hq; injection Hq as <-.
  all: match goal with
       | E : Cache.get _ _ _ _ = _ |- _ => rewrite E
       end.
  all: reflexivity.
Qed.

(** X14.  A credential that was paid for is used again: when a call has paid
    and been retried, the next call of the client to the same host (in any
    letter case) and the same two leading path segments, made before the
    credential expires, sends the [Authorization] header of that retry
    with its first request.  The cache must have room for one entry. *)
Theorem fetch_reuses_a_paid_credential (w1 w2 : World) (c : L402Client)
  (url1 url2 : string) (init1 init2 : option RequestInit)
  (out1 out2 : outcome Response) (s1 s2 : state)
  (r1 r2 q : Request) (d1 p1 d2 p2 : string) :
  exec (fetch w1 url1 init1) c = (out1, s1) ->
  parseURL w1 url1 = Some (d1, p1) ->
  fetched (log s1) = [r1; r2] ->
  1 <= Cache._maxSize (_cache c) ->
  exec (fetch w2 url2 init2) (client s1) = (out2, s2) ->
  parseURL w2 url2 = Some (d2, p2) ->
  toLowerCase d2 = toLowerCase d1 ->
  Cache.same_group p2 p1 ->
  (forall ttl, Cache._defaultTtlMs (_cache c) = Some ttl ->
               now w2 [] < now w1 (removelast (log s1)) + ttl) ->
  hd_error (log s2) = Some (EvFetch q) ->
  exists credential,
    Headers_get (req_headers r2) "authorization" = Some credential
    /\ Headers_get (req_headers q) "authorization" = Some credential.
Proof.
  intros H1 Hurl1 Hf Hmax H2 Hurl2 Hd Hp Hfresh Hq.
  destruct (fetch_caches_the_credential _ _ _ _ _ _ _ _ _ _ H1 Hurl1 Hf)
    as (k0 & cred & mac & preimage & Hput & Hsize & Httl & Hretry).
  destruct (put_stores _ _ _ _ _ _ _ _ _ Hput) as (Hcred & _ & _ & Hheld).
  rewrite Hsize in Hheld. specialize (Hheld Hmax).
  assert (Hkey : Cache.cacheKey d2 p2 = Cache.cacheKey d1 p1).
  { rewrite !cacheKey_prefix. unfold Cache.same_group in Hp. now rewrite Hd, Hp. }
  assert (Hexp : Cache.expired cred (now w2 []) = false).
  { rewrite Hcred. unfold Cache.expired. cbn [Cache.expiresAt].
    rewrite Httl. destruct (Cache._defaultTtlMs (_cache c)) as [ttl |] eqn:E;
      cbn [option_map]; [| reflexivity].
    specialize (Hfresh ttl eq_refl).
    destruct (Z.geb_spec (now w2 []) (now w1 (removelast (log s1)) + ttl));
      [lia | reflexivity]. }
  rewrite <- Hkey in Hheld.
  pose proof (get_hit _ _ _ _ _ Hheld Hexp) as Hget.
  pose proof (fetch_first_request _ _ _ _ _ _ _ _ _ H2 Hurl2 Hq) as Hfirst.
  rewrite Hget in Hfirst.
  exists ("L402 " ++ mac ++ ":" ++ preimage)%string. split.
  - rewrite Hretry. now apply Headers_get_set.
  - rewrite Hfirst. unfold Cache.authorizationHeader. rewrite Hcred.
    cbn [Cache.macaroon Cache.preimage]. now apply Headers_get_set.
Qed.

Lemma fetch_reuses_a_paid_credential_witness :
  let w2 := {| parseURL := fun _ => Some ("API.example.com", "/api/v1/other");
               now := now example_paywall;
               http := http example_paywall;
               autoDetectWallet := autoDetectWallet example_paywall |} in
  let run1 := exec (fetch example_paywall example_url None) (example_client 1000) in
  let run2 := exec (fetch w2 "https://API.example.com/api/v1/other" None)
                   (client (snd run1)) in
  exists q credential,
    hd_error (log (snd run2)) = Some (EvFetch q)
    /\ Headers_get (req_headers example_retry) "authorization" = Some credential
    /\ Headers_get (req_headers q) "authorization" = Some credential.
Proof.
  intros w2 run1 run2.
  set (q := {| req_url := "https://API.example.com/api/v1/other";
               req_init := no_init;
               req_headers := [("authorization", "L402 mac1:p1")];
               req_body := None |}).
  assert (Hq : hd_error (log (snd run2)) = Some (EvFetch q))
    by (vm_compute; reflexivity).
  destruct (fetch_reuses_a_paid_credential example_paywall w2
              (example_client 1000)
              example_url "https://API.example.com/api/v1/other" None None
              (fst run1) (fst run2) (snd run1) (snd run2)
              example_request example_retry q
              "api.example.com" "/api/v1/data" "API.example.com" "/api/v1/other"
              (surjective_pairing run1) eq_refl) as (credential & Hr & Hc).
  - vm_compute. reflexivity.
  - vm_compute. discriminate.
  - apply surjective_pairing.
  - reflexivity.
  - reflexivity.
  - reflexivity.
  - intros ttl Httl. vm_compute in Httl. injection Httl as <-. vm_compute. reflexivity.
  - exact Hq.
  - exists q, credential. split; [exact Hq | split; [exact Hr | exact Hc]].
Defined.

Lemma bufferBody_idem (b b' : Body) :
  bufferBody b = Ok b' -> bufferBody b' = Ok b'.
Proof.
  destruct b as [s | bytes | bytes | bytes | chunks [e |] | encoded | fields];
    cbn [bufferBody]; try discriminate; now intros [= <-].
Qed.

(** X15.  The body of the merged options is buffered once, before anything is
    sent: every request of the call, first or retry, carries the buffered
    body, which buffers to itself; without a body the requests have
    none.  When buffering fails (a stream that errors) the call throws
    that error and has sent nothing and changed nothing. *)
Theorem fetch_sends_the_buffered_body (w : World) (c : L402Client)
  (url : string) (init : option RequestInit)
  (out : outcome Response) (s' : state) (d p : string) :
  exec (fetch w url init) c = (out, s') ->
  parseURL w url = Some (d, p) ->
  match body (spread (_fetchOptions c) (Budget.nullish init no_init)) with
  | None => forall r, In r (fetched (log s')) -> req_body r = None
  | Some b =>
      match bufferBody b with
      | Ok b' =>
          (forall r, In r (fetched (log s')) -> req_body r = Some b')
          /\ bufferBody b' = Ok b'
      | Throw e => out = Raised e /\ log s' = [] /\ client s' = c
      end
  end.
Proof.
  intro H. paths H.
  all: intro Hurl; same_url Hurl.
  all: settle_matches.
  all: try (now repeat split).
  all: try (split; [| eapply bufferBody_idem; eassumption]).
  all: cbn [fetched flat_map app In].
  all: intros r Hin; repeat (destruct Hin as [Hin | Hin]; try contradiction).
  all: try contradiction.
  all: now subst r.
Qed.

Lemma fetch_sends_the_buffered_body_witness :
  let init := Some {| method := Some "POST"; headers := None;
                      body := Some (BReadableStream ["ab"; "cd"] None);
                      others := [] |} in
  let run := exec (fetch example_paywall example_url init) (example_client 1000) in
  Forall (fun r => req_body r = Some (BUint8Array "abcd")) (fetched (log (snd run))).
Proof.
  intros init run. apply Forall_forall.
  exact (proj1 (fetch_sends_the_buffered_body example_paywall (example_client 1000)
                  example_url init (fst run) (snd run)
                  "api.example.com" "/api/v1/data"
                  (surjective_pairing run) eq_refl)).
Defined.




(** X29.  The wallet is looked for only by a client that has none, and only
    when an invoice is to be paid (after the budget check).  A wallet
    that is found is kept by the client and asked to pay; when none is
    found the error of the detection is thrown, nothing is paid and the
    client still has no wallet. *)
Theorem fetch_detects_a_wallet_when_it_has_none (w : World) (c : L402Client)
  (url : string) (init : option RequestInit)
  (out : outcome Response) (s' : state) :
  exec (fetch w url init) c = (out, s') ->
  In EvAutoDetect (log s') ->
  _wallet c = None
  /\ exists before after,
       log s' = (before ++ EvAutoDetect :: after)%list
       /\ fetched before <> []
       /\ match autoDetectWallet w before with
          | Ok wallet =>
              _wallet (client s') = Some wallet
              /\ exists bolt11, hd_error after = Some (EvPayInvoice bolt11)
          | Throw e =>
              out = Raised e /\ after = [] /\ paid (log s') = []
              /\ _wallet (client s') = None
          end.
Proof.
  intro H. paths H.
  all: cbn [In].
  all: intro Hin; repeat (destruct Hin as [Hin | Hin]; try discriminate Hin).
  all: try contradiction.
  all: cbn [spendingLog _budget _wallet _cache _fetchOptions set_cache set_budget
            set_spendingLog set_wallet] in *.
  all: split; [assumption |].
  all: match goal with
       | E : autoDetectWallet _ ?pre = _ |- _ =>
           exists pre; eexists; split; [reflexivity |];
           split; [discriminate |]; rewrite E
       end.
  all: try (split; [reflexivity | eexists; reflexivity]).
  all: repeat split; assumption.
Qed.

Lemma fetch_detects_a_wallet_when_it_has_none_witness :
  let c := constructor {| opt_wallet := None; opt_budget := None;
                          opt_credentialCache := None; opt_fetchOptions := None |} in
  let run := exec (fetch example_paywall example_url None) c in
  fst run = Raised NoWalletError.
Proof.
  intros c run.
  destruct (fetch_detects_a_wallet_when_it_has_none example_paywall c
              example_url None (fst run) (snd run) (surjective_pairing run))
    as (_ & before & after & Hlog & _ & Hdetect).
  - vm_compute. do 2 right. left. reflexivity.
  - assert (Hbefore : before = firstn 2 (log (snd run))).
    { change (log (snd run))
        with ([EvFetch example_request;
               EvBudgetCheck 1000 "api.example.com" (Ok tt)]
                ++ EvAutoDetect :: [])%list in Hlog.
      destruct before as [| e1 [| e2 [| e3 before]]]; try discriminate Hlog.
      - injection Hlog as <- <- _. reflexivity.
      - apply (f_equal (@List.length event)) in Hlog.
        cbn [List.length app] in Hlog. rewrite length_app in Hlog.
        cbn [List.length] in Hlog. lia. }
    rewrite Hbefore in Hdetect. exact (proj1 Hdetect).
Defined.

(** ** The theorems at work on the example paywall *)

Lemma fetch_retries_at_most_once_witness :
  let run := exec (fetch example_paywall example_url None) (example_client 1000) in
  fetched (log (snd run)) = [example_request; example_retry]
  /\ List.length (paid (log (snd run))) = 1%nat
  /\ fst run = Returned {| status := 200; resp_headers := []; resp_body := "ok" |}.
Proof.
  intro run.
  assert (Hf : fetched (log (snd run)) = [example_request; example_retry])
    by (vm_compute; reflexivity).
  destruct (fetch_retries_at_most_once example_paywall (example_client 1000)
              example_url None (fst run) (snd run) (surjective_pairing run))
    as (_ & _ & _ & _ & _ & Hretry).
  destruct (Hretry _ _ Hf) as (Hpaid & Hout).
  split; [exact Hf | split; [exact Hpaid | exact Hout]].
Defined.

Lemma fetch_pays_only_what_the_budget_allows_witness :
  let run := exec (fetch example_paywall example_url None) (example_client 1000) in
  paid (log (snd run)) = ["lnbc10u1ptest"].
Proof.
  intro run.
  destruct (fetch_pays_only_what_the_budget_allows example_paywall
              (example_client 1000) example_url None (fst run) (snd run)
              "lnbc10u1ptest" (surjective_pairing run))
    as (req & r & ch & d & p & _ & _ & _ & _ & _ & _ & Hpaid & _).
  - vm_compute. do 2 right. left. reflexivity.
  - exact Hpaid.
Defined.




Lemma fetch_checks_the_invoice_amount_witness :
  let run := exec (fetch example_paywall example_url None) (example_client 1000) in
  exists b, _budget (example_client 1000) = Some b.
Proof.
  intro run.
  destruct (fetch_checks_the_invoice_amount example_paywall
              (example_client 1000) example_url None (fst run) (snd run)
              1000 "api.example.com" (Ok tt) (surjective_pairing run))
    as (b & r1 & r & ch & p & Hb & _).
  - vm_compute. left. reflexivity.
  - exists b. exact Hb.
Defined.

Lemma fetch_pays_amountless_invoices_unchecked_witness :
  let w := example_world [("WWW-Authenticate", amountless_challenge)] in
  let run := exec (fetch w example_url None) (example_client 0) in
  checked (log (snd run)) = [] /\ paid (log (snd run)) = ["lnbc1ptest"].
Proof.
  intros w run.
  destruct (fetch_pays_amountless_invoices_unchecked w (example_client 0)
              example_url None (fst run) (snd run) example_request
              {| status := 402;
                 resp_headers := [("WWW-Authenticate", amountless_challenge)];
                 resp_body := "Payment Required" |}
              {| macaroon := "mac1"; invoice := "lnbc1ptest" |}
              example_wallet (surjective_pairing run))
    as (Hchecked & Hpaid & _).
  - vm_compute. reflexivity.
  - reflexivity.
  - reflexivity.
  - vm_compute. reflexivity.
  - vm_compute. reflexivity.
  - reflexivity.
  - split; [exact Hchecked | exact Hpaid].
Defined.

Lemma verbs_set_the_method_witness :
  let run := exec (post example_paywall example_url None) (example_client 1000) in
  let r := {| req_url := example_url;
              req_init := {| method := Some "POST"; headers := None;
                             body := None; others := [] |};
              req_headers := []; req_body := None |} in
  In r (fetched (log (snd run))) /\ method (req_init r) = Some "POST".
Proof.
  intros run r.
  assert (Hin : In r (fetched (log (snd run)))) by (vm_compute; left; reflexivity).
  split; [exact Hin |].
  refine (proj1 (verbs_set_the_method example_paywall (example_client 1000)
                   "POST" post example_url None (fst run) (snd run) r
                   _ (surjective_pairing run) Hin)).
  cbn. right. left. reflexivity.
Defined.

Lemma fetch_keeps_the_configuration_witness :
  let run := exec (fetch example_paywall example_url None) (example_client 1000) in
  Cache._maxSize (_cache (client (snd run))) = 256.
Proof.
  intro run.
  destruct (fetch_keeps_the_configuration example_paywall (example_client 1000)
              example_url None (fst run) (snd run) (surjective_pairing run))
    as (_ & Hsize & _).
  exact Hsize.
Defined.

End ClientProtocol.

(* ================================================================== *)
(** * The test suite of the repository, on the model *)
(* ================================================================== *)

Section TestSuite.
Import JS.

(** 2026-01-15T12:00:00Z, the time the tests freeze the clock at. *)
Let T0 : Z := 1768478400000.

(** ** tests/bolt11.test.ts *)

Example test_bolt11 :
  map Bolt11.extractAmountSats
    ["lnbc10u1pxxxxxx"; "lnbc1m1pxxxxxx"; "lnbc1000n1pxxxxxx";
     "lnbc1000000p1pxxxxxx"; "lnbc10n1pxxxxxx"; "lnbc5u1pxxxxxx";
     "lnbc11pxxxxxx"; "lnbc1pxxxxxx"; ""; "not-a-bolt11";
     "lntb10u1pxxxxxx"; "LNBC10U1PXXXXXX"; "lnbc25u1pxxxxxx"]
  = map Ok
      [Some 1000; Some 100000; Some 100; Some 100; Some 1; Some 500;
       Some 100000000; None; None; None; Some 1000; Some 1000; Some 2500].
Proof. reflexivity. Qed.

(** ** tests/challenge.test.ts *)

Let quoted (scheme mac inv : string) : string :=
  (scheme ++ " macaroon=" ++ String Challenge.dquote mac
     ++ String Challenge.dquote ", invoice="
     ++ String Challenge.dquote inv ++ String Challenge.dquote "")%string.

Let parsed (mac inv : string) : result Challenge.L402Challenge :=
  Ok {| Challenge.macaroon := mac; Challenge.invoice := inv |}.

Example test_parseChallenge :
  Challenge.parseChallenge (quoted "L402" "abc123" "lnbc10u1p...")
  = parsed "abc123" "lnbc10u1p..."
  /\ Challenge.parseChallenge "L402 macaroon=abc123, invoice=lnbc10u1p..."
     = parsed "abc123" "lnbc10u1p..."
  /\ Challenge.parseChallenge (quoted "LSAT" "abc123" "lnbc10u1p...")
     = parsed "abc123" "lnbc10u1p..."
  /\ Challenge.parseChallenge (quoted "l402" "abc123" "lnbc10u1p...")
     = parsed "abc123" "lnbc10u1p..."
  /\ Challenge.parseChallenge ""
     = Throw (ChallengeParseError "" "empty header")
  /\ Challenge.parseChallenge "Bearer token=abc"
     = Throw (ChallengeParseError "Bearer token=abc" "no L402/LSAT challenge found")
  /\ (let h := ("L402 macaroon=" ++ String Challenge.dquote "abc123"
                  ++ String Challenge.dquote "")%string in
      Challenge.parseChallenge h
      = Throw (ChallengeParseError h "no L402/LSAT challenge found")).
Proof. repeat split; reflexivity. Qed.

Example test_findL402Challenge :
  Challenge.findL402Challenge
    (Challenge.HeadersObject [("www-authenticate", quoted "L402" "mac123" "lnbc1...")])
  = Some {| Challenge.macaroon := "mac123"; Challenge.invoice := "lnbc1..." |}
  /\ Challenge.findL402Challenge
       (Challenge.PlainObject [("WWW-Authenticate", quoted "L402" "mac123" "lnbc1...")])
     = Some {| Challenge.macaroon := "mac123"; Challenge.invoice := "lnbc1..." |}
  /\ Challenge.findL402Challenge
       (Challenge.PlainObject [("content-type", "application/json")])
     = None.
Proof. repeat split; reflexivity. Qed.

(** ** tests/budget.test.ts *)

Let budget (perRequest perHour perDay : option Z) (allowed : option (list string))
  : Budget.BudgetController :=
  Budget.constructor
    {| Budget.opt_maxSatsPerRequest := perRequest;
       Budget.opt_maxSatsPerHour := perHour;
       Budget.opt_maxSatsPerDay := perDay;
       Budget.opt_allowedDomains := allowed |}.

Example test_budget_limits :
  fst (Budget.check (budget (Some 1000) None None None) T0 500 None) = Ok tt
  /\ fst (Budget.check (budget (Some 1000) None None None) T0 1500 None)
     = Throw (BudgetExceededError "per_request" 1000 0 1500)
  /\ fst (Budget.check
            (Budget.recordPayment (budget (Some 5000) (Some 10000) None None) T0 8000)
            T0 3000 None)
     = Throw (BudgetExceededError "per_hour" 10000 8000 3000)
  /\ fst (Budget.check
            (Budget.recordPayment
               (budget (Some 50000) (Some 100000) (Some 50000) None) T0 40000)
            T0 15000 None)
     = Throw (BudgetExceededError "per_day" 50000 40000 15000)
  /\ fst (Budget.check
            (Budget.recordPayment (budget (Some 5000) (Some 10000) None None) T0 8000)
            (T0 + 61 * 60 * 1000) 3000 None)
     = Ok tt.
Proof. repeat split; reflexivity. Qed.

Example test_budget_windows :
  fst (Budget.spentLastHour
         (Budget.recordPayment
            (Budget.recordPayment (budget None None None None) T0 500) T0 300) T0)
  = 800
  /\ (let b :=
        Budget.recordPayment
          (Budget.recordPayment (budget None None None None) T0 500)
          (T0 + 2 * 60 * 60 * 1000) 300 in
      fst (Budget.spentLastDay b (T0 + 2 * 60 * 60 * 1000)) = 800
      /\ fst (Budget.spentLastHour b (T0 + 2 * 60 * 60 * 1000)) = 300).
Proof. repeat split; reflexivity. Qed.

Example test_budget_domains :
  fst (Budget.check (budget None None None (Some ["api.example.com"]))
         T0 100 (Some "api.example.com")) = Ok tt
  /\ fst (Budget.check (budget None None None (Some ["api.example.com"]))
            T0 100 (Some "evil.com"))
     = Throw (DomainNotAllowedError "evil.com")
  /\ fst (Budget.check (budget None None None (Some ["API.Example.COM"]))
            T0 100 (Some "api.example.com")) = Ok tt
  /\ Budget.maxSatsPerRequest (budget None None None None) = 1000
  /\ Budget.maxSatsPerHour (budget None None None None) = 10000
  /\ Budget.maxSatsPerDay (budget None None None None) = 50000.
Proof. repeat split; reflexivity. Qed.

(** ** tests/credential-cache.test.ts *)

Let cache (maxSize ttl : option Z) : Cache.CredentialCache :=
  Cache.constructor {| Cache.opt_maxSize := maxSize; Cache.opt_defaultTtlMs := ttl |}.

(** The credentials returned by the [get]s that end a run, by macaroon;
    [None] also when a [put] does not return. *)
Let macaroons (c : Cache.CredentialCache) (calls : list (Z * Cache.call))
  (gets : list (string * string)) : option (list (option string)) :=
  match Cache.run c calls with
  | None => None
  | Some (_, c') =>
      Some (map (fun g =>
                   option_map Cache.macaroon
                     (fst (Cache.get c' T0 (fst g) (snd g)))) gets)
  end.

Example test_cache_store_and_group :
  macaroons (cache None None)
    [(T0, Cache.CallPut "example.com" "/api/v1/data" "mac123" "pre456" None)]
    [("example.com", "/api/v1/data"); ("example.com", "/api/v1/other");
     ("other.com", "/api/v1/data")]
  = Some [Some "mac123"; Some "mac123"; None].
Proof. reflexivity. Qed.

Example test_cache_ttl :
  let c := cache None (Some 60000) in
  match Cache.put c T0 "example.com" "/api" "mac" "pre" None with
  | Some (_, c') =>
      option_map Cache.macaroon (fst (Cache.get c' T0 "example.com" "/api"))
      = Some "mac"
      /\ fst (Cache.get c' (T0 + 61000) "example.com" "/api") = None
  | None => False
  end.
Proof. split; reflexivity. Qed.

Example test_cache_eviction :
  macaroons (cache (Some 2) None)
    [(T0, Cache.CallPut "a.com" "/x" "mac1" "pre1" None);
     (T0, Cache.CallPut "b.com" "/x" "mac2" "pre2" None);
     (T0, Cache.CallPut "c.com" "/x" "mac3" "pre3" None)]
    [("a.com", "/x"); ("b.com", "/x"); ("c.com", "/x")]
  = Some [None; Some "mac2"; Some "mac3"]
  /\ macaroons (cache (Some 2) None)
       [(T0, Cache.CallPut "a.com" "/x" "mac1" "pre1" None);
        (T0, Cache.CallPut "b.com" "/x" "mac2" "pre2" None);
        (T0, Cache.CallGet "a.com" "/x");
        (T0, Cache.CallPut "c.com" "/x" "mac3" "pre3" None)]
       [("a.com", "/x"); ("b.com", "/x")]
     = Some [Some "mac1"; None].
Proof. split; reflexivity. Qed.

Example test_cache_header_and_size :
  Cache.authorizationHeader
    {| Cache.macaroon := "mac123"; Cache.preimage := "pre456";
       Cache.createdAt := T0; Cache.expiresAt := None |}
  = "L402 mac123:pre456"
  /\ Cache.size (cache None None) = 0
  /\ match Cache.put (cache None None) T0 "a.com" "/x" "mac" "pre" None with
     | Some (_, c') => Cache.size c' = 1 /\ Cache.size (Cache.clear c') = 0
     | None => False
     end.
Proof. repeat split; reflexivity. Qed.

(** ** tests/client.test.ts, and the end-to-end scenario *)

Import Client.

Let paywall : World :=
  example_world [("WWW-Authenticate", example_challenge)].

Let payments (t : trace) : list string :=
  flat_map (fun e => match e with EvPayInvoice i => [i] | _ => [] end) t.

Let requests (t : trace) : list Request :=
  flat_map (fun e => match e with EvFetch r => [r] | _ => [] end) t.

Let ok_response : Response :=
  {| status := 200; resp_headers := []; resp_body := "ok" |}.

(** One payment of the invoice, a retry that carries [L402 mac1:p1], the
    200 of the server, and one successful record of 1000 satoshis. *)
Example test_client_pays_and_retries :
  let run := exec (get paywall example_url None) (example_client 1000) in
  fst run = Returned ok_response
  /\ payments (log (snd run)) = ["lnbc10u1ptest"]
  /\ map (fun r => Challenge.Headers_get (req_headers r) "Authorization")
         (requests (log (snd run)))
     = [None; Some "L402 mac1:p1"]
  /\ map (fun r => (SpendingLog.amountSats r, SpendingLog.preimage r,
                    SpendingLog.success r))
         (SpendingLog.records (spendingLog (client (snd run))))
     = [(1000, "p1", true)]
  /\ SpendingLog.totalSpent (spendingLog (client (snd run))) = 1000.
Proof. repeat split; reflexivity. Qed.

Example test_client_budget_exceeded :
  let run := exec (get paywall example_url None) (example_client 500) in
  fst run = Raised (BudgetExceededError "per_request" 500 0 1000)
  /\ payments (log (snd run)) = []
  /\ List.length (requests (log (snd run))) = 1%nat.
Proof. repeat split; reflexivity. Qed.

Example test_client_failed_payment :
  let run := exec (get paywall example_url None)
                  (example_client_with failing_wallet 5000) in
  fst run = Raised (PaymentFailedError "payment failed" (Some "lnbc10u1ptest"))
  /\ map SpendingLog.success
         (SpendingLog.records (spendingLog (client (snd run))))
     = [false].
Proof. repeat split; reflexivity. Qed.

(** A second request under the same path prefix uses the cached
    credential: no second payment. *)
Example test_client_cached_credential :
  let first := exec (get paywall example_url None) (example_client 1000) in
  let second :=
    exec (get {| parseURL := fun _ => Some ("api.example.com", "/api/v1/other");
                 now := now paywall; http := http paywall;
                 autoDetectWallet := autoDetectWallet paywall |}
              "https://api.example.com/api/v1/other" None)
         (client (snd first)) in
  fst second = Returned ok_response
  /\ payments (log (snd second)) = []
  /\ map (fun r => Challenge.Headers_get (req_headers r) "Authorization")
         (requests (log (snd second)))
     = [Some "L402 mac1:p1"].
Proof. repeat split; reflexivity. Qed.

Example test_client_post_body :
  let init := Some {| method := None;
                      headers := Some [("Content-Type", "application/json")];
                      body := Some (BString "{name:test}");
                      others := [] |} in
  let run := exec (post paywall example_url init) (example_client 5000) in
  fst run = Returned ok_response
  /\ map req_body (requests (log (snd run)))
     = [Some (BString "{name:test}"); Some (BString "{name:test}")]
  /\ map (fun r => method (req_init r)) (requests (log (snd run)))
     = [Some "POST"; Some "POST"].
Proof. repeat split; reflexivity. Qed.

(** A one-shot stream is read once and sent twice, byte for byte. *)
Example test_client_stream_body :
  let init := Some {| method := None; headers := None;
                      body := Some (BReadableStream ["ab"; "cd"] None);
                      others := [] |} in
  let run := exec (post paywall example_url init) (example_client 5000) in
  map req_body (requests (log (snd run)))
  = [Some (BUint8Array "abcd"); Some (BUint8Array "abcd")].
Proof. reflexivity. Qed.

Example test_client_budget_disabled :
  let c := constructor {| opt_wallet := Some example_wallet;
                          opt_budget := Some None;
                          opt_credentialCache := None;
                          opt_fetchOptions := None |} in
  let w := example_world
             [("WWW-Authenticate",
               ("L402 macaroon=mac1, invoice=lnbc500u1ptest")%string)] in
  let run := exec (get w example_url None) c in
  fst run = Returned ok_response
  /\ payments (log (snd run)) = ["lnbc500u1ptest"].
Proof. repeat split; reflexivity. Qed.

End TestSuite.
